(** * BinaryTree: a shallow embedding of BinaryTree.c / BinaryTree.h

    The C module manipulates [TreeNode_t] records through pointers.  The
    embedding keeps a store of node records indexed by address, a store of
    caller-owned pointer cells (the objects whose address is passed as a
    [TreeNode_t **]), and threads that state explicitly through every
    function.  A call that trips an [ASSERT], or that dereferences a pointer
    naming no live object, stops with [Fault]; the recursive functions take a
    call-depth budget and stop with [OutOfFuel] when it is exhausted. *)

From Stdlib Require Import ZArith Lia.
From stdpp Require Import base option list gmap fin_maps.

Open Scope Z_scope.

(** ** Data model (BinaryTree.h) *)

(** Addresses of live objects; a C pointer is either [NULL] or an address. *)
Abbreviation ptr := (option positive).
Abbreviation NULL := (@None positive).

(** [struct TreeNode]: the field names carry a [tn_] prefix because [left]
    and [right] are taken in Rocq. *)
Record TreeNode_t := mkNode {
  tn_parent : ptr;   (* struct TreeNode* parent *)
  tn_left   : ptr;   (* struct TreeNode* left   *)
  tn_right  : ptr;   (* struct TreeNode* right  *)
  tn_data   : ptr    (* void*            data   *)
}.

#[global] Instance TreeNode_eq_dec : EqDecision TreeNode_t.
Proof. solve_decision. Defined.

(** [enum TreeErrorCode] *)
Inductive TreeErrorCode_t :=
  | ERR_SUCCESS
  | ERR_FAILURE
  | ERR_INVALID_POINTER
  | ERR_MEM
  | ERR_WRONG_PARAM
  | ERR_NODE_EXIST.

#[global] Instance TreeErrorCode_eq_dec : EqDecision TreeErrorCode_t.
Proof. solve_decision. Defined.

Definition INSERT_POS_LEFT : Z := 1.
Definition INSERT_POS_RIGHT : Z := 0.
(** [#define INSERT_MODE_MASK (INSERT_POS_LEFT | INSERT_POS_RIGHT)] *)
Definition INSERT_MODE_MASK : Z := Z.lor INSERT_POS_LEFT INSERT_POS_RIGHT.

(** [int] is 32 bits wide; exceeding [INT_MAX] in signed arithmetic is
    undefined. *)
Definition INT_MAX : Z := 2147483647.

(** An lvalue of type [TreeNode_t *]: a caller-owned pointer variable, or the
    [left] / [right] member of a node ([&pNode->left], [&pNode->right]). *)
Inductive place :=
  | PVar (x : positive)
  | PLeft (a : positive)
  | PRight (a : positive).

#[global] Instance place_eq_dec : EqDecision place.
Proof. solve_decision. Defined.

Record state := mkState {
  nodes : gmap positive TreeNode_t;   (* live node objects *)
  vars  : gmap positive ptr           (* caller-owned pointer cells *)
}.

(** ** Outcomes and sequencing *)

Inductive outcome (A : Type) :=
  | Done (a : A)
  | Fault        (* ASSERT tripped, or access to an object that is not live *)
  | OutOfFuel.   (* call-depth budget exhausted *)
Arguments Done {A} a.
Arguments Fault {A}.
Arguments OutOfFuel {A}.

#[global] Instance outcome_bind : MBind outcome := fun A B k m =>
  match m with
  | Done a => k a
  | Fault => Fault
  | OutOfFuel => OutOfFuel
  end.

(** ** Memory primitives *)

Definition empty_node : TreeNode_t := mkNode NULL NULL NULL NULL.

(** Read the record at address [a]. *)
Definition get_node (a : positive) (s : state) : outcome TreeNode_t :=
  match nodes s !! a with
  | Some n => Done n
  | None => Fault
  end.

Definition put_node (a : positive) (n : TreeNode_t) (s : state) : state :=
  mkState (<[a := n]> (nodes s)) (vars s).

Definition with_parent (v : ptr) (n : TreeNode_t) : TreeNode_t :=
  mkNode v (tn_left n) (tn_right n) (tn_data n).
Definition with_left (v : ptr) (n : TreeNode_t) : TreeNode_t :=
  mkNode (tn_parent n) v (tn_right n) (tn_data n).
Definition with_right (v : ptr) (n : TreeNode_t) : TreeNode_t :=
  mkNode (tn_parent n) (tn_left n) v (tn_data n).
Definition with_data (v : ptr) (n : TreeNode_t) : TreeNode_t :=
  mkNode (tn_parent n) (tn_left n) (tn_right n) v.

(** [a->field = v] *)
Definition set_field (upd : ptr -> TreeNode_t -> TreeNode_t)
    (a : positive) (v : ptr) (s : state) : outcome state :=
  n ← get_node a s; Done (put_node a (upd v n) s).

(** [*pl] *)
Definition load_place (pl : place) (s : state) : outcome ptr :=
  match pl with
  | PVar x => match vars s !! x with Some v => Done v | None => Fault end
  | PLeft a => n ← get_node a s; Done (tn_left n)
  | PRight a => n ← get_node a s; Done (tn_right n)
  end.

(** [*pl = v] *)
Definition store_place (pl : place) (v : ptr) (s : state) : outcome state :=
  match pl with
  | PVar x =>
      match vars s !! x with
      | Some _ => Done (mkState (nodes s) (<[x := v]> (vars s)))
      | None => Fault
      end
  | PLeft a => set_field with_left a v s
  | PRight a => set_field with_right a v s
  end.

(** ** Node lifecycle (BinaryTree.c) *)

(** [void Tree_NodeInit(TreeNode_t* pNode)] *)
Definition Tree_NodeInit (pNode : ptr) (s : state) : outcome state :=
  match pNode with
  | None => Fault                                   (* ASSERT(NULL != pNode) *)
  | Some a =>
      s ← set_field with_parent a NULL s;
      s ← set_field with_left a NULL s;
      s ← set_field with_right a NULL s;
      set_field with_data a NULL s
  end.

(** [TreeErrorCode_t Tree_NodeDelete(TreeNode_t* pNode)] *)
Definition Tree_NodeDelete (pNode : ptr) (s : state)
    : outcome (TreeErrorCode_t * state) :=
  match pNode with
  | None => Fault                                   (* ASSERT(NULL != pNode) *)
  | Some a =>
      n ← get_node a s;
      if negb (bool_decide (tn_left n = NULL))
         || negb (bool_decide (tn_right n = NULL))
      then Done (ERR_FAILURE, s)
      else
        s ← match tn_parent n with
            | None => Done s
            | Some p =>
                np ← get_node p s;
                s ← (if bool_decide (tn_left np = Some a)
                     then set_field with_left p NULL s else Done s);
                np ← get_node p s;
                if bool_decide (tn_right np = Some a)
                then set_field with_right p NULL s else Done s
            end;
        s ← Tree_NodeInit (Some a) s;
        Done (ERR_SUCCESS, s)
  end.

(** [TreeErrorCode_t Tree_NodeValueSet(TreeNode_t* pNode, void* Value)] *)
Definition Tree_NodeValueSet (pNode : ptr) (Value : ptr) (s : state)
    : outcome (TreeErrorCode_t * state) :=
  match pNode with
  | None => Done (ERR_INVALID_POINTER, s)
  | Some a =>
      s ← set_field with_data a Value s;
      Done (ERR_SUCCESS, s)
  end.

(** [void* Tree_NodeValueGet(TreeNode_t* pNode)] *)
Definition Tree_NodeValueGet (pNode : ptr) (s : state) : outcome ptr :=
  match pNode with
  | None => Done NULL
  | Some a => n ← get_node a s; Done (tn_data n)
  end.

(** ** Linkage *)

(** [TreeErrorCode_t Tree_NodeAppend(TreeNode_t* pNode, TreeNode_t* pNewNode, int Mode)] *)
Definition Tree_NodeAppend (pNode pNewNode : ptr) (Mode : Z) (s : state)
    : outcome (TreeErrorCode_t * state) :=
  match pNode, pNewNode with
  | Some a, Some b =>
      if negb (Z.land Mode (Z.lnot INSERT_MODE_MASK) =? 0)
      then Done (ERR_WRONG_PARAM, s)
      else if Z.land Mode INSERT_MODE_MASK =? INSERT_POS_LEFT then
        n ← get_node a s;
        if bool_decide (tn_left n = NULL) then
          s ← set_field with_left a (Some b) s;
          s ← set_field with_parent b (Some a) s;
          Done (ERR_SUCCESS, s)
        else Done (ERR_NODE_EXIST, s)
      else if Z.land Mode INSERT_MODE_MASK =? INSERT_POS_RIGHT then
        n ← get_node a s;
        if bool_decide (tn_right n = NULL) then
          s ← set_field with_right a (Some b) s;
          s ← set_field with_parent b (Some a) s;
          Done (ERR_SUCCESS, s)
        else Done (ERR_NODE_EXIST, s)
      else Done (ERR_WRONG_PARAM, s)
  | _, _ => Done (ERR_INVALID_POINTER, s)
  end.

(** ** Subtree deletion *)

(** [TreeErrorCode_t Tree_SubTreeDelete_Static(TreeNode_t** ppNode)].
    [fuel] bounds the depth of nested calls; the codes returned by the two
    recursive calls and by [Tree_NodeDelete] are dropped, as in the source. *)
Fixpoint Tree_SubTreeDelete_Static (fuel : nat) (ppNode : option place)
    (s : state) : outcome (TreeErrorCode_t * state) :=
  match fuel with
  | O => OutOfFuel
  | S fuel =>
      match ppNode with
      | None => Fault                              (* ASSERT(NULL != ppNode) *)
      | Some pl =>
          pNode ← load_place pl s;
          match pNode with
          | None => Done (ERR_FAILURE, s)
          | Some a =>
              '(_, s) ← Tree_SubTreeDelete_Static fuel (Some (PLeft a)) s;
              '(_, s) ← Tree_SubTreeDelete_Static fuel (Some (PRight a)) s;
              '(_, s) ← Tree_NodeDelete (Some a) s;
              s ← store_place pl NULL s;
              Done (ERR_SUCCESS, s)
          end
      end
  end.

(** ** Dynamic storage ([USE_DYNAMIC_MEMORY]) *)

(** [free(p)]: releases the object at [p]; [free(NULL)] does nothing. *)
Definition free (p : ptr) (s : state) : outcome state :=
  match p with
  | None => Done s
  | Some a =>
      match nodes s !! a with
      | Some _ => Done (mkState (delete a (nodes s)) (vars s))
      | None => Fault
      end
  end.

(** [TreeErrorCode_t Tree_NodeDestory(TreeNode_t **ppNode)] *)
Definition Tree_NodeDestory (ppNode : option place) (s : state)
    : outcome (TreeErrorCode_t * state) :=
  match ppNode with
  | None => Fault                                  (* ASSERT(NULL != ppNode) *)
  | Some pl =>
      pNode ← load_place pl s;
      '(ErrCode, s) ← Tree_NodeDelete pNode s;
      if negb (bool_decide (ErrCode = ERR_SUCCESS))
      then Done (ErrCode, s)
      else
        s ← free pNode s;
        s ← store_place pl NULL s;
        Done (ERR_SUCCESS, s)
  end.

(** ** Depth query *)

(** [x + 1] on [int]. *)
Definition int_succ (x : Z) : outcome Z :=
  if x <? INT_MAX then Done (x + 1) else Fault.

(** [int Tree_DepthGet(TreeNode_t* pNode)] *)
Fixpoint Tree_DepthGet (fuel : nat) (pNode : ptr) (s : state)
    : outcome (Z * state) :=
  match fuel with
  | O => OutOfFuel
  | S fuel =>
      match pNode with
      | None => Done (0, s)
      | Some a =>
          n ← get_node a s;
          '(LChildDeep, s) ← Tree_DepthGet fuel (tn_left n) s;
          n ← get_node a s;
          '(RChildDeep, s) ← Tree_DepthGet fuel (tn_right n) s;
          Deep ← (if LChildDeep >=? RChildDeep
                  then int_succ LChildDeep else int_succ RChildDeep);
          Done (Deep, s)
      end
  end.

(** ** Traversal *)

(** The callback type [TreeCallBackFun_t]: [int f(void* Context, void* Data)].
    A visitor
    may read and write whatever it can reach: it acts on the memory state and
    on a caller-side world [W]; the [int] it returns is the first component.
    A null function pointer is [None]. *)
Definition TreeCallBackFun_t (W : Type) : Type :=
  ptr -> ptr -> state * W -> Z * (state * W).

Section Traversal.
Context {W : Type}.

(** [pFun(Ctx, pNode->data)], return value dropped. *)
Definition call_visitor (pFun : TreeCallBackFun_t W) (Ctx : ptr)
    (a : positive) (w : state * W) : outcome (state * W) :=
  n ← get_node a w.1; Done (pFun Ctx (tn_data n) w).2.

Definition left_of (a : positive) (w : state * W) : outcome ptr :=
  n ← get_node a w.1; Done (tn_left n).
Definition right_of (a : positive) (w : state * W) : outcome ptr :=
  n ← get_node a w.1; Done (tn_right n).

(** [Tree_TravesePreOrder(pNode, pFun, Ctx)] *)
Fixpoint Tree_TravesePreOrder (fuel : nat) (pNode : ptr)
    (pFun : option (TreeCallBackFun_t W)) (Ctx : ptr) (w : state * W)
    : outcome (TreeErrorCode_t * (state * W)) :=
  match fuel with
  | O => OutOfFuel
  | S fuel =>
      match pNode, pFun with
      | Some a, Some f =>
          w ← call_visitor f Ctx a w;
          l ← left_of a w;
          '(_, w) ← Tree_TravesePreOrder fuel l pFun Ctx w;
          r ← right_of a w;
          '(_, w) ← Tree_TravesePreOrder fuel r pFun Ctx w;
          Done (ERR_SUCCESS, w)
      | _, _ => Done (ERR_INVALID_POINTER, w)
      end
  end.

(** [Tree_TraveseInOrder(pNode, pFun, Ctx)] *)
Fixpoint Tree_TraveseInOrder (fuel : nat) (pNode : ptr)
    (pFun : option (TreeCallBackFun_t W)) (Ctx : ptr) (w : state * W)
    : outcome (TreeErrorCode_t * (state * W)) :=
  match fuel with
  | O => OutOfFuel
  | S fuel =>
      match pNode, pFun with
      | Some a, Some f =>
          l ← left_of a w;
          '(_, w) ← Tree_TraveseInOrder fuel l pFun Ctx w;
          w ← call_visitor f Ctx a w;
          r ← right_of a w;
          '(_, w) ← Tree_TraveseInOrder fuel r pFun Ctx w;
          Done (ERR_SUCCESS, w)
      | _, _ => Done (ERR_INVALID_POINTER, w)
      end
  end.

(** [Tree_TravesePostOrder(pNode, pFun, Ctx)] *)
Fixpoint Tree_TravesePostOrder (fuel : nat) (pNode : ptr)
    (pFun : option (TreeCallBackFun_t W)) (Ctx : ptr) (w : state * W)
    : outcome (TreeErrorCode_t * (state * W)) :=
  match fuel with
  | O => OutOfFuel
  | S fuel =>
      match pNode, pFun with
      | Some a, Some f =>
          l ← left_of a w;
          '(_, w) ← Tree_TravesePostOrder fuel l pFun Ctx w;
          r ← right_of a w;
          '(_, w) ← Tree_TravesePostOrder fuel r pFun Ctx w;
          w ← call_visitor f Ctx a w;
          Done (ERR_SUCCESS, w)
      | _, _ => Done (ERR_INVALID_POINTER, w)
      end
  end.
End Traversal.

(** A visitor that appends the pair (context, payload) it receives to a log
    and touches nothing else. *)
Definition record_visit : TreeCallBackFun_t (list (ptr * ptr)) :=
  fun Context Data w => (0, (w.1, w.2 ++ [(Context, Data)])).

(** * Specification-level vocabulary *)

(** What [Tree_NodeDelete] leaves of the parent record [n] of a deleted node
    [a]: each child slot that named [a] is cleared, the rest is kept. *)
Definition unlink_from (a : positive) (n : TreeNode_t) : TreeNode_t :=
  mkNode (tn_parent n)
         (if bool_decide (tn_left n = Some a) then NULL else tn_left n)
         (if bool_decide (tn_right n = Some a) then NULL else tn_right n)
         (tn_data n).

(** The state [Tree_NodeDelete] produces for a leaf [a] with record [n]. *)
Definition deleted (a : positive) (n : TreeNode_t) (s : state) : option state :=
  match tn_parent n with
  | None => Some (put_node a empty_node s)
  | Some p =>
      np ← nodes s !! p;
      Some (put_node a empty_node (put_node p (unlink_from a np) s))
  end.


(** ** Finite tree shapes read off the child links *)

Inductive shape :=
  | SNil
  | SNode (a : positive) (l r : shape).

Definition root_ptr (t : shape) : ptr :=
  match t with
  | SNil => NULL
  | SNode a _ _ => Some a
  end.

Fixpoint addrs (t : shape) : list positive :=
  match t with
  | SNil => []
  | SNode a l r => a :: addrs l ++ addrs r
  end.

Fixpoint height (t : shape) : nat :=
  match t with
  | SNil => O
  | SNode _ l r => S (Nat.max (height l) (height r))
  end.

(** [shape_at s t]: following [left] / [right] from [root_ptr t] in [s]
    unfolds to [t]. *)
Fixpoint shape_at (s : state) (t : shape) : Prop :=
  match t with
  | SNil => True
  | SNode a l r =>
      match nodes s !! a with
      | Some n =>
          tn_left n = root_ptr l /\ tn_right n = root_ptr r
          /\ shape_at s l /\ shape_at s r
      | None => False
      end
  end.

(** [linked_at s par t]: as [shape_at], and every node's [parent] field
    names the node above it ([par] for the root). *)
Fixpoint linked_at (s : state) (par : ptr) (t : shape) : Prop :=
  match t with
  | SNil => True
  | SNode a l r =>
      match nodes s !! a with
      | Some n =>
          tn_parent n = par
          /\ tn_left n = root_ptr l /\ tn_right n = root_ptr r
          /\ linked_at s (Some a) l /\ linked_at s (Some a) r
      | None => False
      end
  end.

(** The depth of the specification: 0 for an absent node, otherwise
    1 + max(depth(left), depth(right)). *)
Fixpoint depth_spec (t : shape) : Z :=
  match t with
  | SNil => 0
  | SNode _ l r => 1 + Z.max (depth_spec l) (depth_spec r)
  end.

(** Two states whose nodes agree on everything but the payload field. *)
Definition same_links (s s' : state) : Prop :=
  forall a, with_data NULL <$> (nodes s !! a) = with_data NULL <$> (nodes s' !! a).

(** The visiting orders of the specification, as payload lists. *)
Section Orders.
Context (s : state).

Definition payload (a : positive) : ptr :=
  match nodes s !! a with
  | Some n => tn_data n
  | None => NULL
  end.

Fixpoint preorder (t : shape) : list ptr :=
  match t with
  | SNil => []
  | SNode a l r => payload a :: preorder l ++ preorder r
  end.

Fixpoint inorder (t : shape) : list ptr :=
  match t with
  | SNil => []
  | SNode a l r => inorder l ++ payload a :: inorder r
  end.

Fixpoint postorder (t : shape) : list ptr :=
  match t with
  | SNil => []
  | SNode a l r => postorder l ++ postorder r ++ [payload a]
  end.
End Orders.

(** The code a traversal answers on a tree, and the log entries the
    recording visitor adds for a list of payloads. *)
Definition visit_code (t : shape) : TreeErrorCode_t :=
  match t with
  | SNil => ERR_INVALID_POINTER
  | SNode _ _ _ => ERR_SUCCESS
  end.

Definition logged (Ctx : ptr) (l : list ptr) : list (ptr * ptr) :=
  (fun d => (Ctx, d)) <$> l.

(** ** Call sequences of the static API *)

Inductive api_call :=
  | NodeInit (p : ptr)
  | NodeValueSet (p v : ptr)
  | NodeAppend (p q : ptr) (Mode : Z)
  | NodeDelete (p : ptr)
  | SubTreeDelete (fuel : nat) (pp : option place).

(** One call; the returned code is not part of the state. *)
Definition run_call (c : api_call) (s : state) : outcome state :=
  match c with
  | NodeInit p => Tree_NodeInit p s
  | NodeValueSet p v => r ← Tree_NodeValueSet p v s; Done r.2
  | NodeAppend p q m => r ← Tree_NodeAppend p q m s; Done r.2
  | NodeDelete p => r ← Tree_NodeDelete p s; Done r.2
  | SubTreeDelete fuel pp => r ← Tree_SubTreeDelete_Static fuel pp s; Done r.2
  end.

Fixpoint run_calls (cs : list api_call) (s : state) : outcome state :=
  match cs with
  | [] => Done s
  | c :: cs => s ← run_call c s; run_calls cs s
  end.

(** ** Effect of subtree deletion *)

(** The cell [pl] lies outside the tree [t]. *)
Definition place_outside (pl : place) (t : shape) : Prop :=
  match pl with
  | PVar _ => True
  | PLeft q | PRight q => q ∉ addrs t
  end.

(** [*pl = NULL] as seen from the record [n] at address [b]. *)
Definition clear_place (pl : place) (b : positive) (n : TreeNode_t) : TreeNode_t :=
  match pl with
  | PVar _ => n
  | PLeft q => if bool_decide (q = b) then with_left NULL n else n
  | PRight q => if bool_decide (q = b) then with_right NULL n else n
  end.

(** What deleting the subtree rooted at [a], whose root has parent field
    [par], through the cell [pl] does to the record [n] of a node [b]
    outside the subtree. *)
Definition outside_effect (a : positive) (par : ptr) (pl : place)
    (b : positive) (n : TreeNode_t) : TreeNode_t :=
  clear_place pl b (if bool_decide (par = Some b) then unlink_from a n else n).

Definition subtree_deleted (t : shape) (par : ptr) (pl : place)
    (s s' : state) : Prop :=
  match t with
  | SNil => s' = s
  | SNode a _ _ =>
      (forall b, b ∈ addrs t -> nodes s' !! b = Some empty_node)
      /\ load_place pl s' = Done NULL
      /\ (forall b, b ∉ addrs t ->
            nodes s' !! b = outside_effect a par pl b <$> nodes s !! b)
      /\ vars s' = match pl with
                   | PVar x => <[x := NULL]> (vars s)
                   | _ => vars s
                   end
  end.

(** ** The back-reference invariant and reachable states *)

(** Every present parent reference names a live node one of whose child
    slots points back. *)
Definition back_linked (s : state) : Prop :=
  forall b n p, nodes s !! b = Some n -> tn_parent n = Some p ->
  exists np, nodes s !! p = Some np
             /\ (tn_left np = Some b \/ tn_right np = Some b).

(** All nodes are in the state [Tree_NodeInit] leaves them in. *)
Definition initialized (s : state) : Prop :=
  forall a n, nodes s !! a = Some n -> n = empty_node.

(** [b] is attached: it has a parent reference, or some child slot holds it. *)
Definition attached (s : state) (b : positive) : Prop :=
  (exists n, nodes s !! b = Some n /\ tn_parent n ≠ NULL)
  \/ (exists a n, nodes s !! a = Some n
                  /\ (tn_left n = Some b \/ tn_right n = Some b)).

(** The caller never appends a node that is already attached. *)
Definition no_double_attach (c : api_call) (s : state) : Prop :=
  match c with
  | NodeAppend _ (Some b) _ => ~ attached s b
  | _ => True
  end.

(** The caller never re-initialises a node that another node still names as
    its parent. *)
Definition no_init_of_parent (c : api_call) (s : state) : Prop :=
  match c with
  | NodeInit (Some a) =>
      forall b n, nodes s !! b = Some n -> tn_parent n = Some a -> b = a
  | _ => True
  end.

(** States reachable from initialised nodes by completed calls that respect
    the discipline [D]. *)
Inductive reachable (D : api_call -> state -> Prop) : state -> Prop :=
  | reach_start s : initialized s -> reachable D s
  | reach_call s c s' :
      reachable D s -> D c s -> run_call c s = Done s' -> reachable D s'.

(** Live nodes stay live, and each child slot keeps its value or becomes
    [NULL]. *)
Definition shrinks (s s' : state) : Prop :=
  forall b n, nodes s !! b = Some n ->
  exists n', nodes s' !! b = Some n'
             /\ (tn_left n' = tn_left n \/ tn_left n' = NULL)
             /\ (tn_right n' = tn_right n \/ tn_right n' = NULL).

(** ** Test fixtures *)

(** Caller-provided storage before initialisation: the contents are whatever
    was there.  [storage l] has such a node at every address of [l] and one
    caller variable, 1, holding [NULL]. *)
Definition stale_node : TreeNode_t :=
  mkNode (Some 77%positive) (Some 78%positive) (Some 79%positive) (Some 80%positive).

Definition storage (l : list positive) : state :=
  mkState (list_to_map ((fun a => (a, stale_node)) <$> l)) (<[1%positive := NULL]> ∅).

(** root(1, left = 2(left = 4), right = 3): the nodes live at addresses
    10, 20, 30, 40 and carry the payload pointers 1, 2, 3, 4. *)
Definition build_tree4 : list api_call :=
  [ NodeInit (Some 10%positive); NodeInit (Some 20%positive);
    NodeInit (Some 30%positive); NodeInit (Some 40%positive);
    NodeValueSet (Some 10%positive) (Some 1%positive);
    NodeValueSet (Some 20%positive) (Some 2%positive);
    NodeValueSet (Some 30%positive) (Some 3%positive);
    NodeValueSet (Some 40%positive) (Some 4%positive);
    NodeAppend (Some 10%positive) (Some 20%positive) INSERT_POS_LEFT;
    NodeAppend (Some 10%positive) (Some 30%positive) INSERT_POS_RIGHT;
    NodeAppend (Some 20%positive) (Some 40%positive) INSERT_POS_LEFT ].

Definition tree4 : state :=
  mkState
    (list_to_map
       [ (10%positive, mkNode NULL (Some 20%positive) (Some 30%positive) (Some 1%positive));
         (20%positive, mkNode (Some 10%positive) (Some 40%positive) NULL (Some 2%positive));
         (30%positive, mkNode (Some 10%positive) NULL NULL (Some 3%positive));
         (40%positive, mkNode (Some 20%positive) NULL NULL (Some 4%positive)) ])
    (<[1%positive := NULL]> ∅).

(** A chain of three nodes, each the left child of the one above; the
    caller's variable 1 holds the root. *)
Definition build_chain3 : list api_call :=
  [ NodeInit (Some 10%positive); NodeInit (Some 20%positive);
    NodeInit (Some 30%positive);
    NodeAppend (Some 10%positive) (Some 20%positive) INSERT_POS_LEFT;
    NodeAppend (Some 20%positive) (Some 30%positive) INSERT_POS_LEFT ].

Definition chain3 : state :=
  mkState
    (list_to_map
       [ (10%positive, mkNode NULL (Some 20%positive) NULL NULL);
         (20%positive, mkNode (Some 10%positive) (Some 30%positive) NULL NULL);
         (30%positive, mkNode (Some 20%positive) NULL NULL NULL) ])
    (<[1%positive := Some 10%positive]> ∅).

(** Two fresh nodes 10 and 20. *)
Definition two_fresh : state :=
  mkState (list_to_map [(10%positive, empty_node); (20%positive, empty_node)]) ∅.

(** 20 still names 10 as its parent, 10 has been re-initialised. *)
Definition orphan_state : state :=
  mkState (list_to_map [(10%positive, empty_node);
                        (20%positive, mkNode (Some 10%positive) NULL NULL NULL)]) ∅.

(** [tree4] with one more freshly initialised node at address 50. *)
Definition tree4_spare : state := put_node 50 empty_node tree4.

(** The shapes of the fixtures. *)
Definition shape4 : shape :=
  SNode 10 (SNode 20 (SNode 40 SNil SNil) SNil) (SNode 30 SNil SNil).

Definition shape_chain3 : shape :=
  SNode 10 (SNode 20 (SNode 30 SNil SNil) SNil) SNil.

(** [two_fresh] after [Tree_NodeAppend(10, 20, INSERT_POS_LEFT)]. *)
Definition linked_pair : state :=
  mkState (list_to_map [(10%positive, mkNode NULL (Some 20%positive) NULL NULL);
                        (20%positive, mkNode (Some 10%positive) NULL NULL NULL)]) ∅.

(** * The rest of the module *)

(** ** Dynamic storage, continued *)

(** [malloc(sizeof(TreeNode_t))].  What the allocator answers is a parameter
    of the model: [None] when it has no memory left, otherwise the address
    of the block it hands out together with the indeterminate contents of
    that block.  An answer naming an object that is still live is outside
    the allocator's contract. *)
Definition malloc (answer : option (positive * TreeNode_t)) (s : state)
    : outcome (ptr * state) :=
  match answer with
  | None => Done (NULL, s)
  | Some (a, junk) =>
      match nodes s !! a with
      | None => Done (Some a, put_node a junk s)
      | Some _ => Fault
      end
  end.

(** [TreeNode_t* Tree_NodeCreate(void)] *)
Definition Tree_NodeCreate (answer : option (positive * TreeNode_t)) (s : state)
    : outcome (ptr * state) :=
  '(pNode, s) ← malloc answer s;
  match pNode with
  | None => Done (NULL, s)
  | Some _ =>
      s ← Tree_NodeInit pNode s;
      Done (pNode, s)
  end.

(** [TreeErrorCode_t Tree_SubTreeDelete_Dynamic(TreeNode_t** ppNode)].  The
    codes of the two recursive calls and of [Tree_NodeDestory] are dropped,
    as in the source. *)
Fixpoint Tree_SubTreeDelete_Dynamic (fuel : nat) (ppNode : option place)
    (s : state) : outcome (TreeErrorCode_t * state) :=
  match fuel with
  | O => OutOfFuel
  | S fuel =>
      match ppNode with
      | None => Fault                              (* ASSERT(NULL != ppNode) *)
      | Some pl =>
          pNode ← load_place pl s;
          match pNode with
          | None => Done (ERR_FAILURE, s)
          | Some a =>
              '(_, s) ← Tree_SubTreeDelete_Dynamic fuel (Some (PLeft a)) s;
              '(_, s) ← Tree_SubTreeDelete_Dynamic fuel (Some (PRight a)) s;
              '(_, s) ← Tree_NodeDestory ppNode s;
              Done (ERR_SUCCESS, s)
          end
      end
  end.

(** ** Vocabulary for the further properties *)

(** A pointer field keeps its value or becomes [NULL]. *)
Definition field_fades (v v' : ptr) : Prop := v' = v \/ v' = NULL.

Definition node_fades (n n' : TreeNode_t) : Prop :=
  field_fades (tn_parent n) (tn_parent n')
  /\ field_fades (tn_left n) (tn_left n')
  /\ field_fades (tn_right n) (tn_right n')
  /\ field_fades (tn_data n) (tn_data n').

(** Nothing is allocated and no pointer is written except [NULL]: every
    node and variable of [s'] was there in [s], with fields that kept their
    value or were cleared. *)
Definition no_new_links (s s' : state) : Prop :=
  (forall b n', nodes s' !! b = Some n' ->
     exists n, nodes s !! b = Some n /\ node_fades n n')
  /\ (forall x v', vars s' !! x = Some v' ->
        exists v, vars s !! x = Some v /\ field_fades v v').

(** No node is released. *)
Definition keeps_live (s s' : state) : Prop :=
  forall b, is_Some (nodes s !! b) -> is_Some (nodes s' !! b).

(** The world after calling the visitor [f] on each payload of [ds] in
    turn, whatever [int] it returns. *)
Definition visit_all {W} (f : TreeCallBackFun_t W) (Ctx : ptr)
    (ds : list ptr) (w : state * W) : state * W :=
  foldl (fun w d => (f Ctx d w).2) w ds.

(** A visitor that counts its calls and always returns a failure code. *)
Definition count_visit : TreeCallBackFun_t nat :=
  fun _ _ w => (-1, (w.1, S w.2)).

(** Every occupied child slot holds a live node whose parent field names
    the holder. *)
Definition forward_linked (s : state) : Prop :=
  forall a n b, nodes s !! a = Some n ->
  tn_left n = Some b \/ tn_right n = Some b ->
  exists nb, nodes s !! b = Some nb /\ tn_parent nb = Some a.

(** The caller never re-initialises a node that another node still holds in
    a child slot. *)
Definition no_init_of_child (c : api_call) (s : state) : Prop :=
  match c with
  | NodeInit (Some a) =>
      forall x nx, nodes s !! x = Some nx ->
      tn_left nx = Some a \/ tn_right nx = Some a -> x = a
  | _ => True
  end.

(** The effect of [Tree_SubTreeDelete_Dynamic] on a well-linked tree: as
    [subtree_deleted], with the nodes of the tree released. *)
Definition subtree_freed (t : shape) (par : ptr) (pl : place)
    (s s' : state) : Prop :=
  match t with
  | SNil => s' = s
  | SNode a _ _ =>
      (forall b, b ∈ addrs t -> nodes s' !! b = None)
      /\ load_place pl s' = Done NULL
      /\ (forall b, b ∉ addrs t ->
            nodes s' !! b = outside_effect a par pl b <$> nodes s !! b)
      /\ vars s' = match pl with
                   | PVar x => <[x := NULL]> (vars s)
                   | _ => vars s
                   end
  end.

(** [b] sits in a child slot of the live node [a]; [c] is reached from [a]
    by following one or more child links. *)
Definition child_of (s : state) (a b : positive) : Prop :=
  exists n, nodes s !! a = Some n /\ (tn_left n = Some b \/ tn_right n = Some b).

Inductive descends (s : state) : positive -> positive -> Prop :=
  | descends_child a b : child_of s a b -> descends s a b
  | descends_step a b c : child_of s a b -> descends s b c -> descends s a c.

(** ** Call sequences of the dynamic API *)

(** The calls a client of the dynamic API makes: the three functions under
    [USE_DYNAMIC_MEMORY], the two functions shared with the static API that
    write memory, and assignments to its own pointer variables. *)
Inductive dyn_call :=
  | DynCreate (answer : option (positive * TreeNode_t))
  | DynAssign (x : positive) (v : ptr)
  | DynValueSet (p v : ptr)
  | DynAppend (p q : ptr) (Mode : Z)
  | DynDestory (pp : option place)
  | DynSubTreeDelete (fuel : nat) (pp : option place).

Definition run_dyn (c : dyn_call) (s : state) : outcome state :=
  match c with
  | DynCreate answer => r ← Tree_NodeCreate answer s; Done r.2
  | DynAssign x v => Done (mkState (nodes s) (<[x := v]> (vars s)))
  | DynValueSet p v => r ← Tree_NodeValueSet p v s; Done r.2
  | DynAppend p q m => r ← Tree_NodeAppend p q m s; Done r.2
  | DynDestory pp => r ← Tree_NodeDestory pp s; Done r.2
  | DynSubTreeDelete fuel pp => r ← Tree_SubTreeDelete_Dynamic fuel pp s; Done r.2
  end.

(** States reachable from an empty node store by completed calls in which
    no attached node is appended. *)
Inductive reachable_dyn : state -> Prop :=
  | reach_dyn_start s : nodes s = ∅ -> reachable_dyn s
  | reach_dyn_call s c s' :
      reachable_dyn s ->
      match c with
      | DynAppend _ (Some b) _ => ~ attached s b
      | _ => True
      end ->
      run_dyn c s = Done s' -> reachable_dyn s'.

(** No live node holds a pointer to a node that is not live. *)
Definition links_closed (s : state) : Prop :=
  forall a n p, nodes s !! a = Some n ->
  tn_parent n = Some p \/ tn_left n = Some p \/ tn_right n = Some p ->
  is_Some (nodes s !! p).

(** ** Further fixtures *)

(** Node 10 is its own left child. *)
Definition self_loop : state :=
  mkState (<[10%positive := mkNode NULL (Some 10%positive) NULL NULL]> ∅) ∅.

(** [chain3] with every node reset, and with every node released. *)
Definition chain3_reset : state :=
  mkState (list_to_map [(10%positive, empty_node); (20%positive, empty_node);
                        (30%positive, empty_node)])
          (<[1%positive := NULL]> ∅).

Definition chain3_released : state := mkState ∅ (<[1%positive := NULL]> ∅).

(** One node, created at address 10. *)
Definition one_created : state := mkState (<[10%positive := empty_node]> ∅) ∅.

(** * Properties *)

(** ** Reduction lemmas for the memory primitives *)

#[local] Arguments get_node : simpl never.
#[local] Arguments put_node : simpl never.
#[local] Arguments set_field : simpl never.
#[local] Arguments Tree_NodeInit : simpl never.
#[local] Arguments Tree_NodeDelete : simpl never.
#[local] Arguments Tree_NodeAppend : simpl never.

Lemma bind_Done {A B} (a : A) (k : A -> outcome B) : (Done a ≫= k) = k a.
Proof. reflexivity. Qed.

Lemma get_node_live a s n : nodes s !! a = Some n -> get_node a s = Done n.
Proof. unfold get_node. intros ->. reflexivity. Qed.

Lemma get_node_Done a s n : get_node a s = Done n -> nodes s !! a = Some n.
Proof. unfold get_node. destruct (nodes s !! a); congruence. Qed.

Lemma set_field_live upd a v s n :
  nodes s !! a = Some n -> set_field upd a v s = Done (put_node a (upd v n) s).
Proof. intros H. unfold set_field. rewrite (get_node_live _ _ _ H). reflexivity. Qed.

Lemma nodes_put_node a n s : nodes (put_node a n s) = <[a := n]> (nodes s).
Proof. reflexivity. Qed.

Lemma vars_put_node a n s : vars (put_node a n s) = vars s.
Proof. reflexivity. Qed.

Lemma put_node_put_node a n1 n2 s :
  put_node a n2 (put_node a n1 s) = put_node a n2 s.
Proof. unfold put_node. simpl. by rewrite insert_insert_eq. Qed.

Lemma put_node_id a n s : nodes s !! a = Some n -> put_node a n s = s.
Proof. intros H. destruct s as [m v]. unfold put_node. simpl in *. by rewrite insert_id. Qed.

Lemma lookup_put_node a b n s :
  nodes (put_node a n s) !! b = if decide (a = b) then Some n else nodes s !! b.
Proof. unfold put_node. simpl. apply lookup_insert. Qed.

Lemma lookup_put_node_eq a n s : nodes (put_node a n s) !! a = Some n.
Proof. unfold put_node. simpl. apply lookup_insert_eq. Qed.

Lemma lookup_put_node_ne a b n s :
  a ≠ b -> nodes (put_node a n s) !! b = nodes s !! b.
Proof. intros. unfold put_node. simpl. by apply lookup_insert_ne. Qed.

(** [Tree_NodeInit] overwrites the four fields of a live node. *)
Lemma Tree_NodeInit_live a n s :
  nodes s !! a = Some n ->
  Tree_NodeInit (Some a) s = Done (put_node a empty_node s).
Proof.
  intros H. unfold Tree_NodeInit.
  rewrite (set_field_live _ _ _ _ _ H), bind_Done.
  rewrite (set_field_live _ _ _ _ _ (lookup_put_node_eq _ _ _)), bind_Done.
  rewrite (set_field_live _ _ _ _ _ (lookup_put_node_eq _ _ _)), bind_Done.
  rewrite (set_field_live _ _ _ _ _ (lookup_put_node_eq _ _ _)).
  by rewrite !put_node_put_node.
Qed.

Lemma Tree_NodeInit_Done p s s' :
  Tree_NodeInit p s = Done s' ->
  exists a n, p = Some a /\ nodes s !! a = Some n /\ s' = put_node a empty_node s.
Proof.
  destruct p as [a|]; [|discriminate].
  destruct (nodes s !! a) as [n|] eqn:H.
  - rewrite (Tree_NodeInit_live _ _ _ H). intros [= <-]. eauto.
  - unfold Tree_NodeInit, set_field, get_node. rewrite H. discriminate.
Qed.

Lemma unlink_from_other a n :
  tn_left n ≠ Some a -> tn_right n ≠ Some a -> unlink_from a n = n.
Proof.
  intros Hl Hr. destruct n as [p l r d]. unfold unlink_from. simpl in *.
  by rewrite !bool_decide_eq_false_2.
Qed.

(** The unlinking step of [Tree_NodeDelete], as one update of the parent. *)
Lemma unlink_step a p np s :
  nodes s !! p = Some np ->
  (np ← get_node p s;
   s ← (if bool_decide (tn_left np = Some a)
        then set_field with_left p NULL s else Done s);
   np ← get_node p s;
   if bool_decide (tn_right np = Some a)
   then set_field with_right p NULL s else Done s)
  = Done (put_node p (unlink_from a np) s).
Proof.
  intros H. rewrite (get_node_live _ _ _ H), bind_Done.
  destruct np as [pp l r d]. unfold unlink_from. simpl.
  destruct (bool_decide (l = Some a)) eqn:El.
  - rewrite (set_field_live _ _ _ _ _ H), bind_Done.
    rewrite (get_node_live _ _ _ (lookup_put_node_eq _ _ _)), bind_Done. simpl.
    destruct (bool_decide (r = Some a)) eqn:Er.
    + rewrite (set_field_live _ _ _ _ _ (lookup_put_node_eq _ _ _)).
      by rewrite put_node_put_node.
    + reflexivity.
  - rewrite bind_Done, (get_node_live _ _ _ H), bind_Done. simpl.
    destruct (bool_decide (r = Some a)) eqn:Er.
    + by rewrite (set_field_live _ _ _ _ _ H).
    + by rewrite (put_node_id _ _ _ H).
Qed.

Lemma Tree_NodeDelete_nonleaf a n s :
  nodes s !! a = Some n ->
  tn_left n ≠ NULL \/ tn_right n ≠ NULL ->
  Tree_NodeDelete (Some a) s = Done (ERR_FAILURE, s).
Proof.
  intros H Hc. unfold Tree_NodeDelete.
  rewrite (get_node_live _ _ _ H), bind_Done.
  destruct Hc as [Hc|Hc].
  - by rewrite (bool_decide_eq_false_2 _ Hc).
  - rewrite (bool_decide_eq_false_2 _ Hc). by rewrite orb_true_r.
Qed.

Lemma Tree_NodeDelete_leaf a n s :
  nodes s !! a = Some n -> tn_left n = NULL -> tn_right n = NULL ->
  Tree_NodeDelete (Some a) s =
    match deleted a n s with
    | Some s' => Done (ERR_SUCCESS, s')
    | None => Fault
    end.
Proof.
  intros H Hl Hr. unfold Tree_NodeDelete, deleted.
  rewrite (get_node_live _ _ _ H), bind_Done.
  rewrite !bool_decide_eq_true_2 by done. simpl.
  destruct (tn_parent n) as [p|].
  - destruct (nodes s !! p) as [np|] eqn:Hp; simpl.
    + rewrite (unlink_step _ _ _ _ Hp), bind_Done.
      destruct (decide (p = a)) as [->|Hne].
      * rewrite (Tree_NodeInit_live _ _ _ (lookup_put_node_eq _ _ _)). reflexivity.
      * assert (nodes (put_node p (unlink_from a np) s) !! a = Some n) as H'
          by (by rewrite lookup_put_node_ne).
        rewrite (Tree_NodeInit_live _ _ _ H'). reflexivity.
    + unfold get_node. rewrite Hp. reflexivity.
  - rewrite bind_Done, (Tree_NodeInit_live _ _ _ H). reflexivity.
Qed.

(** ** Mode decoding in [Tree_NodeAppend] *)

Lemma INSERT_MODE_MASK_val : INSERT_MODE_MASK = 1.
Proof. reflexivity. Qed.

(** No bit outside the mask is set exactly for the two position constants. *)
Lemma mode_bits_recognized Mode :
  Z.land Mode (Z.lnot INSERT_MODE_MASK) = 0 <-> Mode = 0 \/ Mode = 1.
Proof.
  rewrite INSERT_MODE_MASK_val. split.
  - intros H.
    assert (Z.lor (Z.ldiff Mode 1) (Z.land Mode 1) = Mode) as E
      by apply Z.lor_ldiff_and.
    unfold Z.ldiff in H |- *.
    change (Z.ldiff Mode 1) with (Z.land Mode (Z.lnot 1)) in E.
    rewrite H, Z.lor_0_l in E.
    change 1 with (Z.ones 1) in E. rewrite Z.land_ones in E by lia.
    change (2 ^ 1) with 2 in E.
    pose proof (Z.mod_pos_bound Mode 2 ltac:(lia)). lia.
  - intros [-> | ->]; reflexivity.
Qed.

Lemma Tree_NodeAppend_bad_mode a b Mode s :
  Mode ≠ INSERT_POS_LEFT -> Mode ≠ INSERT_POS_RIGHT ->
  Tree_NodeAppend (Some a) (Some b) Mode s = Done (ERR_WRONG_PARAM, s).
Proof.
  intros Hl Hr. unfold Tree_NodeAppend.
  destruct (Z.land Mode (Z.lnot INSERT_MODE_MASK) =? 0) eqn:E; [|reflexivity].
  apply Z.eqb_eq, mode_bits_recognized in E.
  unfold INSERT_POS_LEFT, INSERT_POS_RIGHT in *. lia.
Qed.

Lemma Tree_NodeAppend_left a b s :
  Tree_NodeAppend (Some a) (Some b) INSERT_POS_LEFT s =
    (n ← get_node a s;
     if bool_decide (tn_left n = NULL) then
       s ← set_field with_left a (Some b) s;
       s ← set_field with_parent b (Some a) s;
       Done (ERR_SUCCESS, s)
     else Done (ERR_NODE_EXIST, s)).
Proof. reflexivity. Qed.

Lemma Tree_NodeAppend_right a b s :
  Tree_NodeAppend (Some a) (Some b) INSERT_POS_RIGHT s =
    (n ← get_node a s;
     if bool_decide (tn_right n = NULL) then
       s ← set_field with_right a (Some b) s;
       s ← set_field with_parent b (Some a) s;
       Done (ERR_SUCCESS, s)
     else Done (ERR_NODE_EXIST, s)).
Proof. reflexivity. Qed.

(** A recognised mode never yields [ERR_WRONG_PARAM]. *)
Lemma Tree_NodeAppend_good_mode a b Mode s s' :
  Tree_NodeAppend (Some a) (Some b) Mode s = Done (ERR_WRONG_PARAM, s') ->
  Mode ≠ INSERT_POS_LEFT /\ Mode ≠ INSERT_POS_RIGHT.
Proof.
  intros H. split; intros ->.
  - rewrite Tree_NodeAppend_left in H.
    destruct (get_node a s) as [n| |]; try discriminate. rewrite bind_Done in H.
    destruct (bool_decide (tn_left n = NULL)); [|discriminate].
    destruct (set_field with_left a (Some b) s) as [s1| |]; try discriminate.
    rewrite bind_Done in H.
    destruct (set_field with_parent b (Some a) s1); discriminate.
  - rewrite Tree_NodeAppend_right in H.
    destruct (get_node a s) as [n| |]; try discriminate. rewrite bind_Done in H.
    destruct (bool_decide (tn_right n = NULL)); [|discriminate].
    destruct (set_field with_right a (Some b) s) as [s1| |]; try discriminate.
    rewrite bind_Done in H.
    destruct (set_field with_parent b (Some a) s1); discriminate.
Qed.

(** C7. [Tree_NodeAppend] recognises exactly the two position constants: with
    both pointers non-null, every other [Mode] is answered with
    [ERR_WRONG_PARAM] and the memory state (hence the target node and the new
    node) is returned untouched; and [ERR_WRONG_PARAM] is never the answer
    for [INSERT_POS_LEFT] or [INSERT_POS_RIGHT]. *)
Theorem Tree_NodeAppend_unrecognized_mode a b Mode s :
  Mode ≠ INSERT_POS_LEFT -> Mode ≠ INSERT_POS_RIGHT ->
  Tree_NodeAppend (Some a) (Some b) Mode s = Done (ERR_WRONG_PARAM, s)
  /\ (forall m s', Tree_NodeAppend (Some a) (Some b) m s = Done (ERR_WRONG_PARAM, s') ->
        m ≠ INSERT_POS_LEFT /\ m ≠ INSERT_POS_RIGHT).
Proof.
  intros Hl Hr. split.
  - by apply Tree_NodeAppend_bad_mode.
  - intros m s'. apply Tree_NodeAppend_good_mode.
Qed.

(** C6. When the child slot selected by a recognised [Mode] is already
    occupied, [Tree_NodeAppend] answers [ERR_NODE_EXIST] and returns the
    memory state unchanged: the existing subtree, the target node and the
    new node all keep their contents. *)
Theorem Tree_NodeAppend_occupied a b Mode s n :
  nodes s !! a = Some n ->
  (Mode = INSERT_POS_LEFT /\ tn_left n ≠ NULL)
    \/ (Mode = INSERT_POS_RIGHT /\ tn_right n ≠ NULL) ->
  Tree_NodeAppend (Some a) (Some b) Mode s = Done (ERR_NODE_EXIST, s).
Proof.
  intros H [[-> Hocc] | [-> Hocc]].
  - rewrite Tree_NodeAppend_left, (get_node_live _ _ _ H), bind_Done.
    by rewrite (bool_decide_eq_false_2 _ Hocc).
  - rewrite Tree_NodeAppend_right, (get_node_live _ _ _ H), bind_Done.
    by rewrite (bool_decide_eq_false_2 _ Hocc).
Qed.

(** What a successful left append writes. *)
Lemma Tree_NodeAppend_left_free a b n s :
  nodes s !! a = Some n -> tn_left n = NULL ->
  Tree_NodeAppend (Some a) (Some b) INSERT_POS_LEFT s =
    (s ← set_field with_parent b (Some a) (put_node a (with_left (Some b) n) s);
     Done (ERR_SUCCESS, s)).
Proof.
  intros H Hl. rewrite Tree_NodeAppend_left, (get_node_live _ _ _ H), bind_Done.
  rewrite (bool_decide_eq_true_2 _ Hl), (set_field_live _ _ _ _ _ H), bind_Done.
  reflexivity.
Qed.

Lemma Tree_NodeAppend_right_free a b n s :
  nodes s !! a = Some n -> tn_right n = NULL ->
  Tree_NodeAppend (Some a) (Some b) INSERT_POS_RIGHT s =
    (s ← set_field with_parent b (Some a) (put_node a (with_right (Some b) n) s);
     Done (ERR_SUCCESS, s)).
Proof.
  intros H Hl. rewrite Tree_NodeAppend_right, (get_node_live _ _ _ H), bind_Done.
  rewrite (bool_decide_eq_true_2 _ Hl), (set_field_live _ _ _ _ _ H), bind_Done.
  reflexivity.
Qed.

(** On success the chosen slot of the target holds the new node and the new
    node's parent field names the target; for distinct nodes nothing else
    changes. *)
Theorem Tree_NodeAppend_links a b na nb Mode s :
  a ≠ b -> nodes s !! a = Some na -> nodes s !! b = Some nb ->
  (Mode = INSERT_POS_LEFT /\ tn_left na = NULL)
    \/ (Mode = INSERT_POS_RIGHT /\ tn_right na = NULL) ->
  Tree_NodeAppend (Some a) (Some b) Mode s
  = Done (ERR_SUCCESS,
          put_node b (with_parent (Some a) nb)
            (put_node a (if Mode =? INSERT_POS_LEFT
                         then with_left (Some b) na
                         else with_right (Some b) na) s)).
Proof.
  intros Hne Ha Hb [[-> Hfree] | [-> Hfree]]; simpl.
  - rewrite (Tree_NodeAppend_left_free _ _ _ _ Ha Hfree).
    assert (nodes (put_node a (with_left (Some b) na) s) !! b = Some nb) as Hb'
      by (by rewrite lookup_put_node_ne).
    by rewrite (set_field_live _ _ _ _ _ Hb').
  - rewrite (Tree_NodeAppend_right_free _ _ _ _ Ha Hfree).
    assert (nodes (put_node a (with_right (Some b) na) s) !! b = Some nb) as Hb'
      by (by rewrite lookup_put_node_ne).
    by rewrite (set_field_live _ _ _ _ _ Hb').
Qed.

Lemma put_node_comm a b na nb s :
  a ≠ b -> put_node a na (put_node b nb s) = put_node b nb (put_node a na s).
Proof. intros. unfold put_node. simpl. by rewrite insert_insert_ne. Qed.

(** C3. [Tree_NodeDelete] on a live node whose parent pointer, when present,
    names a live node: if a child slot is occupied the call answers
    [ERR_FAILURE] and the state is unchanged; if the node is a leaf the call
    answers [ERR_SUCCESS], the node's record becomes the empty record, the
    parent's record keeps everything except the child slots that named the
    node, which are cleared, and nothing else changes. *)
Theorem Tree_NodeDelete_leaf_only a n s :
  nodes s !! a = Some n ->
  (forall p, tn_parent n = Some p -> is_Some (nodes s !! p)) ->
  (tn_left n ≠ NULL \/ tn_right n ≠ NULL ->
     Tree_NodeDelete (Some a) s = Done (ERR_FAILURE, s))
  /\ (tn_left n = NULL -> tn_right n = NULL ->
      exists s', Tree_NodeDelete (Some a) s = Done (ERR_SUCCESS, s')
        /\ nodes s' !! a = Some empty_node
        /\ (forall p np, tn_parent n = Some p -> p ≠ a -> nodes s !! p = Some np ->
              nodes s' !! p = Some (unlink_from a np)
              /\ tn_parent (unlink_from a np) = tn_parent np
              /\ tn_data (unlink_from a np) = tn_data np
              /\ tn_left (unlink_from a np) = (if bool_decide (tn_left np = Some a) then NULL else tn_left np)
              /\ tn_right (unlink_from a np) = (if bool_decide (tn_right np = Some a) then NULL else tn_right np))
        /\ (forall b, b ≠ a -> tn_parent n ≠ Some b -> nodes s' !! b = nodes s !! b)
        /\ vars s' = vars s).
Proof.
  intros H Hpar. split; [by apply Tree_NodeDelete_nonleaf|].
  intros Hl Hr. rewrite (Tree_NodeDelete_leaf _ _ _ H Hl Hr). unfold deleted.
  destruct (tn_parent n) as [p|] eqn:Ep.
  - destruct (Hpar p eq_refl) as [np Hp]. rewrite Hp. simpl.
    eexists; split; [reflexivity|]. split; [apply lookup_put_node_eq|].
    split; [|split; [|reflexivity]].
    + intros p' np' [= <-] Hne Hp'. rewrite Hp in Hp'. injection Hp' as <-.
      rewrite lookup_put_node_ne, lookup_put_node_eq by done. done.
    + intros b Hb Hpb. rewrite !lookup_put_node_ne; congruence.
  - eexists; split; [reflexivity|]. split; [apply lookup_put_node_eq|].
    split; [|split; [|reflexivity]].
    + intros p' np' [=].
    + intros b Hb _. by rewrite lookup_put_node_ne.
Qed.

(** The round trip below needs the new node to be held by no other slot of
    the target: when 20 already sits in the right slot of 10, deleting it
    after the left append clears both slots. *)
Example append_delete_second_slot :
  Tree_NodeAppend (Some 10%positive) (Some 20%positive) INSERT_POS_LEFT
    (put_node 10 (mkNode NULL NULL (Some 20%positive) NULL) two_fresh)
  = Done (ERR_SUCCESS,
          put_node 20 (mkNode (Some 10%positive) NULL NULL NULL)
            (put_node 10 (mkNode NULL (Some 20%positive) (Some 20%positive) NULL)
               two_fresh))
  /\ Tree_NodeDelete (Some 20%positive)
       (put_node 20 (mkNode (Some 10%positive) NULL NULL NULL)
          (put_node 10 (mkNode NULL (Some 20%positive) (Some 20%positive) NULL)
             two_fresh))
     = Done (ERR_SUCCESS, two_fresh).
Proof. split; vm_compute; reflexivity. Qed.

(** C1. Round trip.  [A] and [B] are distinct live nodes, [A]'s left slot is
    free, [B] is freshly initialised and is not already held by [A]'s other
    slot.  Then [Tree_NodeAppend(A, B, INSERT_POS_LEFT)] succeeds and links
    the two nodes, and the following [Tree_NodeDelete(B)] succeeds and
    returns memory to the state before the append: [A] has its old record
    (left slot absent, other fields as before) and [B] is the empty record. *)
Theorem append_delete_roundtrip A B nA s :
  A ≠ B ->
  nodes s !! A = Some nA -> tn_left nA = NULL -> tn_right nA ≠ Some B ->
  nodes s !! B = Some empty_node ->
  exists s1 s2,
    Tree_NodeAppend (Some A) (Some B) INSERT_POS_LEFT s = Done (ERR_SUCCESS, s1)
    /\ nodes s1 !! A = Some (with_left (Some B) nA)
    /\ nodes s1 !! B = Some (with_parent (Some A) empty_node)
    /\ Tree_NodeDelete (Some B) s1 = Done (ERR_SUCCESS, s2)
    /\ s2 = s
    /\ nodes s2 !! A = Some nA /\ tn_left nA = NULL
    /\ nodes s2 !! B = Some empty_node.
Proof.
  intros Hne HA Hl Hr HB.
  set (s1 := put_node B (with_parent (Some A) empty_node)
               (put_node A (with_left (Some B) nA) s)).
  assert (nodes s1 !! A = Some (with_left (Some B) nA)) as HA1.
  { unfold s1. rewrite lookup_put_node_ne by done. apply lookup_put_node_eq. }
  assert (nodes s1 !! B = Some (with_parent (Some A) empty_node)) as HB1
    by apply lookup_put_node_eq.
  assert (unlink_from B (with_left (Some B) nA) = nA) as Hun.
  { destruct nA as [p l r d]. simpl in *. subst l. unfold unlink_from. simpl.
    rewrite bool_decide_eq_true_2 by done.
    by rewrite (bool_decide_eq_false_2 _ Hr). }
  exists s1, s. split; [|split; [done|split; [done|split; [|done]]]].
  - rewrite (Tree_NodeAppend_left_free _ _ _ _ HA Hl).
    assert (nodes (put_node A (with_left (Some B) nA) s) !! B = Some empty_node) as HB'
      by (by rewrite lookup_put_node_ne).
    by rewrite (set_field_live _ _ _ _ _ HB').
  - rewrite (Tree_NodeDelete_leaf _ _ _ HB1 eq_refl eq_refl). unfold deleted.
    change (tn_parent (with_parent (Some A) empty_node)) with (Some A).
    cbv beta iota. rewrite HA1. simpl. rewrite Hun. unfold s1.
    rewrite (put_node_comm A B) by done.
    rewrite !put_node_put_node.
    rewrite (put_node_id B) by (by rewrite lookup_put_node_ne).
    by rewrite (put_node_id A).
Qed.

(** ** Fixtures are what the API builds *)

Lemma build_tree4_runs :
  run_calls build_tree4 (storage [10; 20; 30; 40]%positive) = Done tree4.
Proof. vm_compute. reflexivity. Qed.

Lemma build_chain3_runs :
  (s ← run_calls build_chain3 (storage [10; 20; 30]%positive);
   store_place (PVar 1) (Some 10%positive) s) = Done chain3.
Proof. vm_compute. reflexivity. Qed.

(** ** Traversal *)

(** C2. On the four-node tree root(1, left = 2(left = 4), right = 3), for
    every context value and every call budget of at least four frames, the
    three traversals succeed, leave memory as it was, and call the visitor
    on the payloads 1,2,4,3 (pre-order), 4,2,1,3 (in-order) and 4,2,3,1
    (post-order), handing it the same context value each time. *)
Theorem traverse_tree4_orders (Ctx : ptr) (k : nat) :
  Tree_TravesePreOrder (4 + k) (Some 10%positive) (Some record_visit) Ctx (tree4, [])
    = Done (ERR_SUCCESS,
            (tree4, [(Ctx, Some 1); (Ctx, Some 2); (Ctx, Some 4); (Ctx, Some 3)]%positive))
  /\ Tree_TraveseInOrder (4 + k) (Some 10%positive) (Some record_visit) Ctx (tree4, [])
    = Done (ERR_SUCCESS,
            (tree4, [(Ctx, Some 4); (Ctx, Some 2); (Ctx, Some 1); (Ctx, Some 3)]%positive))
  /\ Tree_TravesePostOrder (4 + k) (Some 10%positive) (Some record_visit) Ctx (tree4, [])
    = Done (ERR_SUCCESS,
            (tree4, [(Ctx, Some 4); (Ctx, Some 2); (Ctx, Some 3); (Ctx, Some 1)]%positive)).
Proof. repeat split; vm_compute; reflexivity. Qed.

(** C9. With a positive call budget, each traversal started on an absent
    root, or with an absent callback, answers [ERR_INVALID_POINTER] at once:
    memory and the visitor's world come back exactly as they went in,
    whatever the visitor would have done, so the visitor ran zero times. *)
Theorem traverse_invalid_pointer {W : Type} (fuel : nat) (pNode : ptr)
    (pFun : option (TreeCallBackFun_t W)) (Ctx : ptr) (w : state * W) :
  pNode = NULL \/ pFun = None ->
  Tree_TravesePreOrder (S fuel) pNode pFun Ctx w = Done (ERR_INVALID_POINTER, w)
  /\ Tree_TraveseInOrder (S fuel) pNode pFun Ctx w = Done (ERR_INVALID_POINTER, w)
  /\ Tree_TravesePostOrder (S fuel) pNode pFun Ctx w = Done (ERR_INVALID_POINTER, w).
Proof.
  intros [-> | ->]; simpl; [done|]. by destruct pNode.
Qed.

(** ** Dynamic storage *)

(** Every completed [Tree_NodeDelete] either refused and changed nothing, or
    succeeded. *)
Lemma Tree_NodeDelete_codes p s code s' :
  Tree_NodeDelete p s = Done (code, s') ->
  code = ERR_SUCCESS \/ (code = ERR_FAILURE /\ s' = s).
Proof.
  unfold Tree_NodeDelete. destruct p as [a|]; [|discriminate].
  destruct (get_node a s) as [n| |]; try discriminate. rewrite bind_Done.
  destruct (negb _ || negb _).
  - intros [= <- <-]. by right.
  - match goal with |- (?m ≫= _) = _ -> _ => destruct m as [s1| |] end;
      try discriminate.
    rewrite bind_Done.
    destruct (Tree_NodeInit (Some a) s1); try discriminate.
    rewrite bind_Done. intros [= <- <-]. by left.
Qed.

(** C8, as the code has it.  [Tree_NodeDestory] hands [*ppNode] to
    [Tree_NodeDelete] unchecked, so a reference whose pointee is absent
    trips that function's assertion: the call does not return a code.
    Whenever the underlying delete completes with a code other than
    [ERR_SUCCESS], destroy returns that code ([ERR_FAILURE]) and the state
    is unchanged: nothing is released and the reference still holds the
    node. *)
Theorem Tree_NodeDestory_failure pl s :
  (load_place pl s = Done NULL -> Tree_NodeDestory (Some pl) s = Fault)
  /\ (forall p code s',
        load_place pl s = Done p ->
        Tree_NodeDelete p s = Done (code, s') -> code ≠ ERR_SUCCESS ->
        Tree_NodeDestory (Some pl) s = Done (code, s)
        /\ code = ERR_FAILURE /\ s' = s).
Proof.
  split.
  - intros H. unfold Tree_NodeDestory. rewrite H. reflexivity.
  - intros p code s' Hp Hd Hc.
    destruct (Tree_NodeDelete_codes _ _ _ _ Hd) as [->|[-> ->]]; [done|].
    unfold Tree_NodeDestory. rewrite Hp, bind_Done, Hd. done.
Qed.

(** C8, counterexample to the claim as stated: variable 1 is a valid
    reference holding [NULL]; destroying through it faults instead of
    returning a failure code. *)
Lemma Tree_NodeDestory_absent_pointee_faults :
  load_place (PVar 1) (storage []) = Done NULL
  /\ Tree_NodeDestory (Some (PVar 1)) (storage []) = Fault
  /\ ~ (exists code s', Tree_NodeDestory (Some (PVar 1)) (storage []) = Done (code, s')).
Proof.
  split; [reflexivity|]. split; [reflexivity|].
  intros (code & s' & H). vm_compute in H. discriminate.
Qed.

(** ** Depth query *)

Lemma depth_spec_height t : depth_spec t = Z.of_nat (height t).
Proof. induction t as [|a l IHl r IHr]; simpl; [done|]. lia. Qed.

Lemma int_succ_in_range x : x < INT_MAX -> int_succ x = Done (x + 1).
Proof. intros H. unfold int_succ. by rewrite (proj2 (Z.ltb_lt _ _)). Qed.

Lemma int_succ_Done x y : int_succ x = Done y -> y = x + 1.
Proof. unfold int_succ. destruct (x <? INT_MAX); congruence. Qed.

(** The code agrees with the specification's recursion on every finite
    shape whose depth fits an [int]. *)
Lemma Tree_DepthGet_shape s t :
  shape_at s t -> depth_spec t <= INT_MAX ->
  forall fuel, (height t < fuel)%nat ->
  Tree_DepthGet fuel (root_ptr t) s = Done (depth_spec t, s).
Proof.
  induction t as [|a l IHl r IHr]; intros Hs Hd fuel Hf;
    (destruct fuel as [|fuel]; [lia|]); simpl in *; [done|].
  destruct (nodes s !! a) as [n|] eqn:Hn; [|done].
  destruct Hs as (Hl & Hr & Hsl & Hsr).
  pose proof (depth_spec_height l). pose proof (depth_spec_height r).
  rewrite (get_node_live _ _ _ Hn), bind_Done, Hl.
  rewrite (IHl Hsl ltac:(lia) fuel ltac:(lia)), bind_Done.
  rewrite (get_node_live _ _ _ Hn), bind_Done, Hr.
  rewrite (IHr Hsr ltac:(lia) fuel ltac:(lia)), bind_Done.
  rewrite Z.geb_leb.
  destruct (Z.leb_spec (depth_spec r) (depth_spec l)).
  - rewrite int_succ_in_range by lia. rewrite bind_Done. do 2 f_equal. lia.
  - rewrite int_succ_in_range by lia. rewrite bind_Done. do 2 f_equal. lia.
Qed.

(** Whatever the links look like, a completed query returns the state it was
    given, 0 for an absent node and at least 1 for a present one. *)
Lemma Tree_DepthGet_pure fuel :
  forall p s d s', Tree_DepthGet fuel p s = Done (d, s') ->
  s' = s /\ (p = NULL -> d = 0) /\ (p ≠ NULL -> 1 <= d) /\ 0 <= d.
Proof.
  induction fuel as [|fuel IH]; intros p s d s'; simpl; [discriminate|].
  destruct p as [a|].
  - destruct (get_node a s) as [n| |]; try discriminate. rewrite bind_Done.
    destruct (Tree_DepthGet fuel (tn_left n) s) as [[dl s1]| |] eqn:El;
      try discriminate.
    rewrite bind_Done. destruct (IH _ _ _ _ El) as (-> & _ & _ & Hdl).
    destruct (get_node a s) as [n'| |]; try discriminate. rewrite bind_Done.
    destruct (Tree_DepthGet fuel (tn_right n') s) as [[dr s2]| |] eqn:Er;
      try discriminate.
    rewrite bind_Done. destruct (IH _ _ _ _ Er) as (-> & _ & _ & Hdr).
    destruct (dl >=? dr).
    + destruct (int_succ dl) as [x| |] eqn:Ex; try discriminate.
      rewrite bind_Done. intros [= <- <-]. apply int_succ_Done in Ex.
      repeat split; [done|lia|lia].
    + destruct (int_succ dr) as [x| |] eqn:Ex; try discriminate.
      rewrite bind_Done. intros [= <- <-]. apply int_succ_Done in Ex.
      repeat split; [done|lia|lia].
  - intros [= <- <-]. repeat split; [done|lia].
Qed.

Lemma shape_at_same_links s s' t : same_links s s' -> shape_at s t -> shape_at s' t.
Proof.
  intros Hs. induction t as [|a l IHl r IHr]; simpl; [done|].
  specialize (Hs a).
  destruct (nodes s !! a) as [n|], (nodes s' !! a) as [n'|]; simpl in Hs;
    try done.
  injection Hs as Hp Hl Hr. rewrite <- Hl, <- Hr.
  intros (? & ? & ? & ?). auto.
Qed.

(** C5. On every finite tree of nodes whose depth fits an [int], and with a
    call budget exceeding its height, [Tree_DepthGet] returns the depth of
    the specification (0 for an absent node, 1 + max(depth(left),
    depth(right)) for a present one) together with the state it was given;
    the value is 0 exactly for the absent node, at least 1 for a present
    node and exactly 1 for a childless one; and it is the same in every
    state that differs only in payload fields. *)
Theorem Tree_DepthGet_spec s t fuel :
  shape_at s t -> depth_spec t <= INT_MAX -> (height t < fuel)%nat ->
  exists d,
    Tree_DepthGet fuel (root_ptr t) s = Done (d, s)
    /\ d = match t with
           | SNil => 0
           | SNode _ l r => 1 + Z.max (depth_spec l) (depth_spec r)
           end
    /\ (root_ptr t = NULL -> d = 0)
    /\ (root_ptr t ≠ NULL -> 1 <= d)
    /\ (forall a, t = SNode a SNil SNil -> d = 1)
    /\ (forall s', same_links s s' ->
          Tree_DepthGet fuel (root_ptr t) s' = Done (d, s')).
Proof.
  intros Hs Hd Hf. exists (depth_spec t).
  split; [by apply Tree_DepthGet_shape|].
  split; [by destruct t|].
  split; [by destruct t|].
  split; [|split].
  - destruct t as [|a l r]; simpl; [done|].
    pose proof (depth_spec_height l). pose proof (depth_spec_height r). lia.
  - by intros a ->.
  - intros s' Hs'. apply Tree_DepthGet_shape; [|done..].
    by apply (shape_at_same_links s).
Qed.

(** ** Subtree deletion *)

#[local] Arguments load_place : simpl never.
#[local] Arguments store_place : simpl never.

Lemma linked_at_agree s s' par t :
  (forall b, b ∈ addrs t -> nodes s' !! b = nodes s !! b) ->
  linked_at s par t -> linked_at s' par t.
Proof.
  revert par. induction t as [|a l IHl r IHr]; intros par Hag; simpl; [done|].
  rewrite (Hag a) by (simpl; apply elem_of_cons; auto).
  destruct (nodes s !! a) as [n|]; [|done].
  intros (Hp & Hl & Hr & Hll & Hlr). repeat split; try done.
  - apply IHl; [|done]. intros b Hb. apply Hag. simpl.
    apply elem_of_cons. right. apply elem_of_app. auto.
  - apply IHr; [|done]. intros b Hb. apply Hag. simpl.
    apply elem_of_cons. right. apply elem_of_app. auto.
Qed.

Lemma root_ptr_addrs t c : root_ptr t = Some c -> c ∈ addrs t.
Proof. destruct t; simpl; [done|]. intros [= ->]. apply elem_of_cons. auto. Qed.

Lemma load_place_left a n s :
  nodes s !! a = Some n -> load_place (PLeft a) s = Done (tn_left n).
Proof. intros H. unfold load_place. by rewrite (get_node_live _ _ _ H). Qed.

Lemma load_place_right a n s :
  nodes s !! a = Some n -> load_place (PRight a) s = Done (tn_right n).
Proof. intros H. unfold load_place. by rewrite (get_node_live _ _ _ H). Qed.

(** What the recursive call on [&pNode->left] leaves behind. *)
Lemma subtree_deleted_left c a n s s' :
  nodes s !! a = Some n -> tn_left n = root_ptr c ->
  (forall c0, root_ptr c = Some c0 -> tn_right n ≠ Some c0) ->
  a ∉ addrs c ->
  subtree_deleted c (Some a) (PLeft a) s s' ->
  nodes s' !! a = Some (with_left NULL n)
  /\ (forall b, b ∈ addrs c -> nodes s' !! b = Some empty_node)
  /\ (forall b, b ∉ addrs c -> b ≠ a -> nodes s' !! b = nodes s !! b)
  /\ vars s' = vars s.
Proof.
  intros Hn Hl Hr Ha. destruct c as [|c0 cl cr]; simpl.
  - intros ->. split; [|split; [|done]].
    + rewrite Hn. destruct n; simpl in *. by subst.
    + intros b Hb. by apply elem_of_nil in Hb.
  - intros (Hin & _ & Hout & Hv). split; [|split; [done|split; [|done]]].
    + rewrite (Hout a Ha), Hn. simpl. f_equal.
      unfold outside_effect, clear_place, unlink_from.
      rewrite !bool_decide_eq_true_2 by done.
      rewrite (bool_decide_eq_false_2 (tn_right n = Some c0)) by (by apply Hr).
      reflexivity.
    + intros b Hb Hne. rewrite (Hout b Hb).
      unfold outside_effect, clear_place.
      rewrite !bool_decide_eq_false_2 by congruence.
      by destruct (nodes s !! b).
Qed.

(** What the recursive call on [&pNode->right] leaves behind. *)
Lemma subtree_deleted_right c a n s s' :
  nodes s !! a = Some n -> tn_right n = root_ptr c ->
  (forall c0, root_ptr c = Some c0 -> tn_left n ≠ Some c0) ->
  a ∉ addrs c ->
  subtree_deleted c (Some a) (PRight a) s s' ->
  nodes s' !! a = Some (with_right NULL n)
  /\ (forall b, b ∈ addrs c -> nodes s' !! b = Some empty_node)
  /\ (forall b, b ∉ addrs c -> b ≠ a -> nodes s' !! b = nodes s !! b)
  /\ vars s' = vars s.
Proof.
  intros Hn Hr Hl Ha. destruct c as [|c0 cl cr]; simpl.
  - intros ->. split; [|split; [|done]].
    + rewrite Hn. destruct n; simpl in *. by subst.
    + intros b Hb. by apply elem_of_nil in Hb.
  - intros (Hin & _ & Hout & Hv). split; [|split; [done|split; [|done]]].
    + rewrite (Hout a Ha), Hn. simpl. f_equal.
      unfold outside_effect, clear_place, unlink_from.
      rewrite !bool_decide_eq_true_2 by done.
      rewrite (bool_decide_eq_false_2 (tn_left n = Some c0)) by (by apply Hl).
      reflexivity.
    + intros b Hb Hne. rewrite (Hout b Hb).
      unfold outside_effect, clear_place.
      rewrite !bool_decide_eq_false_2 by congruence.
      by destruct (nodes s !! b).
Qed.

(** [Tree_NodeDelete] on a leaf, read through lookups. *)
Lemma Tree_NodeDelete_leaf_lookup a n s :
  nodes s !! a = Some n -> tn_left n = NULL -> tn_right n = NULL ->
  (forall p, tn_parent n = Some p -> is_Some (nodes s !! p)) ->
  exists s', Tree_NodeDelete (Some a) s = Done (ERR_SUCCESS, s')
    /\ vars s' = vars s
    /\ forall b, nodes s' !! b =
         if decide (a = b) then Some empty_node
         else (fun nb => if bool_decide (tn_parent n = Some b)
                         then unlink_from a nb else nb) <$> nodes s !! b.
Proof.
  intros Hn Hl Hr Hpar. rewrite (Tree_NodeDelete_leaf _ _ _ Hn Hl Hr).
  unfold deleted. destruct (tn_parent n) as [p|].
  - destruct (Hpar p eq_refl) as [np Hnp]. rewrite Hnp. simpl.
    eexists; split; [reflexivity|]. split; [reflexivity|].
    intros b. rewrite !lookup_put_node.
    destruct (decide (a = b)) as [|Hab]; [done|].
    destruct (decide (p = b)) as [->|Hpb].
    + rewrite Hnp. simpl. by rewrite bool_decide_eq_true_2.
    + rewrite bool_decide_eq_false_2 by congruence.
      by destruct (nodes s !! b).
  - eexists; split; [reflexivity|]. split; [reflexivity|].
    intros b. rewrite lookup_put_node.
    destruct (decide (a = b)); [done|].
    rewrite bool_decide_eq_false_2 by done. by destruct (nodes s !! b).
Qed.

Lemma load_place_Done pl s v :
  load_place pl s = Done v ->
  match pl with
  | PVar x => vars s !! x = Some v
  | PLeft q => exists n, nodes s !! q = Some n /\ tn_left n = v
  | PRight q => exists n, nodes s !! q = Some n /\ tn_right n = v
  end.
Proof.
  unfold load_place. destruct pl as [x|q|q].
  - destruct (vars s !! x); congruence.
  - destruct (get_node q s) as [n| |] eqn:E; try discriminate.
    rewrite bind_Done. intros [= <-]. apply get_node_Done in E. eauto.
  - destruct (get_node q s) as [n| |] eqn:E; try discriminate.
    rewrite bind_Done. intros [= <-]. apply get_node_Done in E. eauto.
Qed.

(** [*pl = NULL] on a live cell, read through lookups. *)
Lemma store_place_NULL_lookup pl s v :
  load_place pl s = Done v ->
  exists s', store_place pl NULL s = Done s'
    /\ load_place pl s' = Done NULL
    /\ (forall b, nodes s' !! b = clear_place pl b <$> nodes s !! b)
    /\ vars s' = match pl with
                 | PVar x => <[x := NULL]> (vars s)
                 | _ => vars s
                 end.
Proof.
  intros H. apply load_place_Done in H. unfold store_place, load_place.
  destruct pl as [x|q|q].
  - rewrite H. eexists; split; [reflexivity|]. simpl.
    rewrite lookup_insert_eq. repeat split. intros b. by destruct (nodes s !! b).
  - destruct H as (n & Hq & _). rewrite (set_field_live _ _ _ _ _ Hq).
    eexists; split; [reflexivity|].
    rewrite (get_node_live _ _ _ (lookup_put_node_eq _ _ _)).
    repeat split. intros b. rewrite lookup_put_node. unfold clear_place.
    destruct (decide (q = b)) as [->|Hne].
    + rewrite Hq. simpl. by rewrite bool_decide_eq_true_2.
    + rewrite bool_decide_eq_false_2 by done. by destruct (nodes s !! b).
  - destruct H as (n & Hq & _). rewrite (set_field_live _ _ _ _ _ Hq).
    eexists; split; [reflexivity|].
    rewrite (get_node_live _ _ _ (lookup_put_node_eq _ _ _)).
    repeat split. intros b. rewrite lookup_put_node. unfold clear_place.
    destruct (decide (q = b)) as [->|Hne].
    + rewrite Hq. simpl. by rewrite bool_decide_eq_true_2.
    + rewrite bool_decide_eq_false_2 by done. by destruct (nodes s !! b).
Qed.

(** A cell that is live stays loadable when the nodes keep their addresses
    and the variables are kept. *)
Lemma load_place_preserved pl s s' v :
  load_place pl s = Done v ->
  (forall b, is_Some (nodes s !! b) -> is_Some (nodes s' !! b)) ->
  vars s' = vars s ->
  exists v', load_place pl s' = Done v'.
Proof.
  intros H Hn Hv. apply load_place_Done in H. unfold load_place.
  destruct pl as [x|q|q].
  - rewrite Hv, H. eauto.
  - destruct H as (n & Hq & _). destruct (Hn q) as [n' Hq']; [by eexists|].
    rewrite (get_node_live _ _ _ Hq'). eauto.
  - destruct H as (n & Hq & _). destruct (Hn q) as [n' Hq']; [by eexists|].
    rewrite (get_node_live _ _ _ Hq'). eauto.
Qed.

Lemma clear_place_outside pl t b n :
  place_outside pl t -> b ∈ addrs t -> clear_place pl b n = n.
Proof.
  unfold place_outside, clear_place. destruct pl as [x|q|q]; [done| |];
    intros Hq Hb; rewrite bool_decide_eq_false_2; congruence.
Qed.

(** The call on a well-linked finite tree completes and has the effect
    [subtree_deleted]; on an absent tree it answers [ERR_FAILURE] and does
    nothing. *)
Lemma Tree_SubTreeDelete_Static_effect t :
  forall s par pl fuel,
  linked_at s par t -> NoDup (addrs t) ->
  (forall p, par = Some p -> (p ∉ addrs t) /\ is_Some (nodes s !! p)) ->
  load_place pl s = Done (root_ptr t) -> place_outside pl t ->
  (height t < fuel)%nat ->
  exists s',
    Tree_SubTreeDelete_Static fuel (Some pl) s
      = Done (match t with SNil => ERR_FAILURE | _ => ERR_SUCCESS end, s')
    /\ subtree_deleted t par pl s s'.
Proof.
  induction t as [|a l IHl r IHr]; intros s par pl fuel Hlk Hnd Hpar Hld Hout Hf;
    (destruct fuel as [|fuel]; [simpl in Hf; lia|]);
    simpl Tree_SubTreeDelete_Static; rewrite Hld, bind_Done.
  { eexists. split; reflexivity. }
  simpl root_ptr. cbv iota.
  simpl in Hlk. destruct (nodes s !! a) as [n|] eqn:Hn; [|done].
  destruct Hlk as (Hp & Hl & Hr & Hll & Hlr).
  simpl in Hnd. apply NoDup_cons in Hnd as [Ha Hnd].
  apply NoDup_app in Hnd as (Hndl & Hdisj & Hndr).
  apply not_elem_of_app in Ha as [Hal Har].
  simpl in Hf.
  (* Tree_SubTreeDelete_Static(&pNode->left) *)
  destruct (IHl s (Some a) (PLeft a) fuel Hll Hndl) as (s1 & E1 & D1).
  { intros p [= <-]. split; [done|by eexists]. }
  { by rewrite (load_place_left _ _ _ Hn), Hl. }
  { done. }
  { lia. }
  rewrite E1, bind_Done. cbv beta iota.
  destruct (subtree_deleted_left l a n s s1 Hn Hl) as (Ha1 & Hin1 & Hout1 & Hv1);
    [|done|done|].
  { intros c0 Hc0. rewrite Hr. intros Hc0'.
    apply (Hdisj c0); by apply root_ptr_addrs. }
  (* Tree_SubTreeDelete_Static(&pNode->right) *)
  destruct (IHr s1 (Some a) (PRight a) fuel) as (s2 & E2 & D2).
  { apply (linked_at_agree s); [|done]. intros b Hb. apply Hout1; [|congruence].
    intros Hb'. by apply (Hdisj b). }
  { done. }
  { intros p [= <-]. split; [done|by eexists]. }
  { rewrite (load_place_right _ _ _ Ha1). simpl. by rewrite Hr. }
  { done. }
  { lia. }
  rewrite E2, bind_Done. cbv beta iota.
  destruct (subtree_deleted_right r a _ s1 s2 Ha1 Hr) as (Ha2 & Hin2 & Hout2 & Hv2);
    [done|done|done|].
  assert (forall b, b ∉ addrs l -> b ∉ addrs r -> b ≠ a ->
            nodes s2 !! b = nodes s !! b) as Hfr.
  { intros b Hbl Hbr Hba. by rewrite Hout2, Hout1. }
  (* Tree_NodeDelete(pNode) *)
  destruct (Tree_NodeDelete_leaf_lookup a _ s2 Ha2 eq_refl eq_refl)
    as (s3 & E3 & Hv3 & Hlk3).
  { simpl. rewrite Hp. intros p Hpp. destruct (Hpar p Hpp) as [Hpo Hpl].
    simpl in Hpo. apply not_elem_of_cons in Hpo as [Hpa Hpo].
    apply not_elem_of_app in Hpo as [Hpol Hpor]. by rewrite Hfr. }
  rewrite E3, bind_Done. cbv beta iota.
  simpl tn_parent in Hlk3. rewrite Hp in Hlk3.
  (* *ppNode = NULL *)
  destruct (load_place_preserved pl s s3 _ Hld) as (v3 & Hld3).
  { intros b Hb. rewrite Hlk3. destruct (decide (a = b)) as [|Hab]; [done|].
    apply fmap_is_Some.
    destruct (decide (b ∈ addrs l)) as [Hbl|Hbl].
    { rewrite Hout2, (Hin1 b Hbl); [done| |congruence].
      intros Hbr. by apply (Hdisj b). }
    destruct (decide (b ∈ addrs r)) as [Hbr|Hbr].
    { by rewrite (Hin2 b Hbr). }
    rewrite Hfr by done. done. }
  { congruence. }
  destruct (store_place_NULL_lookup pl s3 _ Hld3) as (s4 & E4 & Hld4 & Hlk4 & Hv4).
  rewrite E4, bind_Done. eexists. split; [reflexivity|].
  split; [|split; [done|split]].
  - intros b Hb. rewrite Hlk4, Hlk3.
    destruct (decide (a = b)) as [->|Hab].
    { simpl. f_equal. by apply (clear_place_outside _ (SNode b l r)). }
    assert (par ≠ Some b) as Hpb.
    { intros Hpb. destruct (Hpar b Hpb) as [Hpo _]. done. }
    rewrite bool_decide_eq_false_2 by done.
    assert (nodes s2 !! b = Some empty_node) as ->.
    { simpl in Hb. apply elem_of_cons in Hb as [->|Hb]; [done|].
      apply elem_of_app in Hb as [Hb|Hb].
      - rewrite Hout2, (Hin1 b Hb); [done| |congruence].
        intros Hbr. by apply (Hdisj b).
      - by apply Hin2. }
    simpl. f_equal. by apply (clear_place_outside _ (SNode a l r)).
  - intros b Hb. rewrite Hlk4, Hlk3. simpl in Hb.
    apply not_elem_of_cons in Hb as [Hba Hb].
    apply not_elem_of_app in Hb as [Hbl Hbr].
    rewrite decide_False by congruence.
    rewrite Hfr by done. unfold outside_effect.
    by destruct (nodes s !! b).
  - rewrite Hv4, Hv3, Hv2, Hv1. reflexivity.
Qed.

(** C4. Let the nodes reachable from the root form a finite tree [t] without
    sharing whose parent fields are consistent, let the root's parent (if
    any) and the caller's reference cell [pl] lie outside the tree, and let
    the call budget exceed the height.  Then
    [Tree_SubTreeDelete_Static(&ref)] completes with [ERR_SUCCESS]; every
    node of the subtree ends as the empty record; the reference reads
    [NULL]; and a node outside the subtree changes only where it pointed at
    the root: the child slots of the root's parent naming the root, and the
    reference cell itself. *)
Theorem Tree_SubTreeDelete_Static_spec t s par pl fuel :
  t ≠ SNil ->
  linked_at s par t -> NoDup (addrs t) ->
  (forall p, par = Some p -> (p ∉ addrs t) /\ is_Some (nodes s !! p)) ->
  load_place pl s = Done (root_ptr t) -> place_outside pl t ->
  (height t < fuel)%nat ->
  exists s',
    Tree_SubTreeDelete_Static fuel (Some pl) s = Done (ERR_SUCCESS, s')
    /\ (forall b, b ∈ addrs t -> nodes s' !! b = Some empty_node)
    /\ load_place pl s' = Done NULL
    /\ (forall b a, b ∉ addrs t -> root_ptr t = Some a ->
          nodes s' !! b = outside_effect a par pl b <$> nodes s !! b).
Proof.
  intros Hne Hlk Hnd Hpar Hld Hout Hf.
  destruct (Tree_SubTreeDelete_Static_effect t s par pl fuel) as (s' & E & D);
    try done.
  destruct t as [|a l r]; [done|]. destruct D as (Hin & Hl & Ho & Hv).
  exists s'. repeat split; try done.
  intros b a' Hb [= <-]. by apply Ho.
Qed.

(** ** The back-reference invariant *)

Lemma initialized_back_linked s : initialized s -> back_linked s.
Proof. intros Hi b n p Hb Hp. rewrite (Hi _ _ Hb) in Hp. discriminate. Qed.

(** Every completed [Tree_NodeDelete], read through lookups. *)
Lemma Tree_NodeDelete_Done a s code s' :
  Tree_NodeDelete (Some a) s = Done (code, s') ->
  (code = ERR_FAILURE /\ s' = s)
  \/ (code = ERR_SUCCESS /\ exists n,
        nodes s !! a = Some n /\ tn_left n = NULL /\ tn_right n = NULL
        /\ vars s' = vars s
        /\ forall b, nodes s' !! b =
             if decide (a = b) then Some empty_node
             else (fun nb => if bool_decide (tn_parent n = Some b)
                             then unlink_from a nb else nb) <$> nodes s !! b).
Proof.
  intros H. destruct (nodes s !! a) as [n|] eqn:Hn.
  2:{ unfold Tree_NodeDelete, get_node in H. rewrite Hn in H. discriminate. }
  destruct (decide (tn_left n = NULL)) as [Hl|Hl].
  2:{ rewrite (Tree_NodeDelete_nonleaf _ _ _ Hn) in H by auto.
      injection H as <- <-. by left. }
  destruct (decide (tn_right n = NULL)) as [Hr|Hr].
  2:{ rewrite (Tree_NodeDelete_nonleaf _ _ _ Hn) in H by auto.
      injection H as <- <-. by left. }
  right.
  assert (forall p, tn_parent n = Some p -> is_Some (nodes s !! p)) as Hpar.
  { intros p Hp. rewrite (Tree_NodeDelete_leaf _ _ _ Hn Hl Hr) in H.
    unfold deleted in H. rewrite Hp in H.
    destruct (nodes s !! p); [done|discriminate]. }
  destruct (Tree_NodeDelete_leaf_lookup _ _ _ Hn Hl Hr Hpar) as (s1 & E & Hv & Hlk).
  rewrite E in H. injection H as <- <-. split; [done|]. by exists n.
Qed.

(** Every completed [Tree_NodeAppend] either changed nothing or filled a free
    slot of [a] with [b] and then set [b]'s parent field. *)
Lemma Tree_NodeAppend_Done a b m s code s' :
  Tree_NodeAppend (Some a) (Some b) m s = Done (code, s') ->
  s' = s
  \/ exists n n1 nb,
       nodes s !! a = Some n
       /\ ((tn_left n = NULL /\ n1 = with_left (Some b) n)
           \/ (tn_right n = NULL /\ n1 = with_right (Some b) n))
       /\ nodes (put_node a n1 s) !! b = Some nb
       /\ s' = put_node b (with_parent (Some a) nb) (put_node a n1 s).
Proof.
  unfold Tree_NodeAppend.
  destruct (negb _); [intros [= _ <-]; by left|].
  destruct (_ =? INSERT_POS_LEFT).
  - destruct (get_node a s) as [n| |] eqn:Hn; try discriminate.
    apply get_node_Done in Hn. rewrite bind_Done.
    destruct (bool_decide (tn_left n = NULL)) eqn:Hl;
      [|intros [= _ <-]; by left].
    apply bool_decide_eq_true_1 in Hl.
    rewrite (set_field_live _ _ _ _ _ Hn), bind_Done.
    destruct (get_node b (put_node a (with_left (Some b) n) s)) as [nb| |] eqn:Hb.
    + apply get_node_Done in Hb. rewrite (set_field_live _ _ _ _ _ Hb), bind_Done.
      intros [= _ <-]. right. exists n, (with_left (Some b) n), nb. auto.
    + unfold set_field. rewrite Hb. discriminate.
    + unfold set_field. rewrite Hb. discriminate.
  - destruct (_ =? INSERT_POS_RIGHT); [|intros [= _ <-]; by left].
    destruct (get_node a s) as [n| |] eqn:Hn; try discriminate.
    apply get_node_Done in Hn. rewrite bind_Done.
    destruct (bool_decide (tn_right n = NULL)) eqn:Hl;
      [|intros [= _ <-]; by left].
    apply bool_decide_eq_true_1 in Hl.
    rewrite (set_field_live _ _ _ _ _ Hn), bind_Done.
    destruct (get_node b (put_node a (with_right (Some b) n) s)) as [nb| |] eqn:Hb.
    + apply get_node_Done in Hb. rewrite (set_field_live _ _ _ _ _ Hb), bind_Done.
      intros [= _ <-]. right. exists n, (with_right (Some b) n), nb. auto.
    + unfold set_field. rewrite Hb. discriminate.
    + unfold set_field. rewrite Hb. discriminate.
Qed.

(** Replacing a record by one with the same parent whose child slots still
    hold whatever they held keeps the invariant. *)
Lemma put_node_back_linked a n n1 s :
  nodes s !! a = Some n ->
  tn_parent n1 = tn_parent n ->
  (forall x, tn_left n = Some x -> tn_left n1 = Some x) ->
  (forall x, tn_right n = Some x -> tn_right n1 = Some x) ->
  back_linked s -> back_linked (put_node a n1 s).
Proof.
  intros Hn Hp Hl Hr Hbl b nb p Hb Hpb.
  assert (exists nb0, nodes s !! b = Some nb0 /\ tn_parent nb0 = Some p)
    as (nb0 & Hb0 & Hpb0).
  { rewrite lookup_put_node in Hb. destruct (decide (a = b)) as [<-|].
    - injection Hb as <-. exists n. split; congruence.
    - eauto. }
  destruct (Hbl _ _ _ Hb0 Hpb0) as (np & Hnp & Hback).
  rewrite lookup_put_node. destruct (decide (a = p)) as [<-|]; [|eauto].
  rewrite Hn in Hnp. injection Hnp as <-. exists n1. split; [done|].
  destruct Hback; auto.
Qed.

(** Pointing [b]'s parent field at a node that holds [b] keeps the
    invariant. *)
Lemma set_parent_back_linked a b na nb s :
  nodes s !! a = Some na -> (tn_left na = Some b \/ tn_right na = Some b) ->
  nodes s !! b = Some nb ->
  back_linked s -> back_linked (put_node b (with_parent (Some a) nb) s).
Proof.
  intros Ha Hab Hb Hbl x nx p Hx Hpx.
  assert (forall q nq, nodes s !! q = Some nq ->
            exists nq', nodes (put_node b (with_parent (Some a) nb) s) !! q = Some nq'
                        /\ tn_left nq' = tn_left nq /\ tn_right nq' = tn_right nq)
    as Hkeep.
  { intros q nq Hq. rewrite lookup_put_node. destruct (decide (b = q)) as [<-|].
    - rewrite Hb in Hq. injection Hq as <-. eauto.
    - eauto. }
  rewrite lookup_put_node in Hx. destruct (decide (b = x)) as [<-|].
  - injection Hx as <-. simpl in Hpx. injection Hpx as <-.
    destruct (Hkeep _ _ Ha) as (na' & Ha' & Hl & Hr).
    exists na'. split; [done|]. rewrite Hl, Hr. done.
  - destruct (Hbl _ _ _ Hx Hpx) as (np & Hnp & Hback).
    destruct (Hkeep _ _ Hnp) as (np' & Hnp' & Hl & Hr).
    exists np'. split; [done|]. rewrite Hl, Hr. done.
Qed.

Lemma Tree_NodeAppend_back_linked a b m s code s' :
  Tree_NodeAppend (Some a) (Some b) m s = Done (code, s') ->
  back_linked s -> back_linked s'.
Proof.
  intros H Hbl. apply Tree_NodeAppend_Done in H as [->|H]; [done|].
  destruct H as (n & n1 & nb & Hn & Hn1 & Hb & ->).
  apply (set_parent_back_linked a b n1); [apply lookup_put_node_eq| |done|].
  - destruct Hn1 as [[_ ->]|[_ ->]]; simpl; auto.
  - apply (put_node_back_linked a n); [done|..|done].
    + by destruct Hn1 as [[_ ->]|[_ ->]].
    + destruct Hn1 as [[Hl ->]|[_ ->]]; simpl; [congruence|auto].
    + destruct Hn1 as [[_ ->]|[Hr ->]]; simpl; [auto|congruence].
Qed.

Lemma Tree_NodeInit_back_linked a s s' :
  Tree_NodeInit (Some a) s = Done s' ->
  (forall b n, nodes s !! b = Some n -> tn_parent n = Some a -> b = a) ->
  back_linked s -> back_linked s'.
Proof.
  intros H Hd Hbl. apply Tree_NodeInit_Done in H as (a' & n & [= <-] & Hn & ->).
  intros b nb p Hb Hp. rewrite lookup_put_node in Hb.
  destruct (decide (a = b)) as [<-|Hab]; [by injection Hb as <-|].
  destruct (Hbl _ _ _ Hb Hp) as (np & Hnp & Hback).
  exists np. split; [|done]. rewrite lookup_put_node_ne; [done|].
  intros <-. apply Hab. symmetry. by apply (Hd b nb).
Qed.

Lemma Tree_NodeValueSet_back_linked p v s code s' :
  Tree_NodeValueSet p v s = Done (code, s') ->
  back_linked s -> back_linked s'.
Proof.
  unfold Tree_NodeValueSet. destruct p as [a|]; [|by intros [= _ <-]].
  destruct (nodes s !! a) as [n|] eqn:Hn.
  - rewrite (set_field_live _ _ _ _ _ Hn), bind_Done. intros [= _ <-].
    by apply (put_node_back_linked a n).
  - unfold set_field, get_node. rewrite Hn. discriminate.
Qed.

Lemma unlink_from_keeps a x n :
  x ≠ a ->
  (tn_left n = Some x -> tn_left (unlink_from a n) = Some x)
  /\ (tn_right n = Some x -> tn_right (unlink_from a n) = Some x).
Proof.
  intros Hx. unfold unlink_from. simpl. split; intros H; rewrite H;
    by rewrite bool_decide_eq_false_2 by congruence.
Qed.

Lemma Tree_NodeDelete_back_linked a s code s' :
  Tree_NodeDelete (Some a) s = Done (code, s') ->
  back_linked s -> back_linked s'.
Proof.
  intros H Hbl. apply Tree_NodeDelete_Done in H as [[_ ->]|[_ H]]; [done|].
  destruct H as (n & Hn & Hl & Hr & _ & Hlk).
  intros b nb p Hb Hp. rewrite Hlk in Hb.
  destruct (decide (a = b)) as [<-|Hab]; [by injection Hb as <-|].
  destruct (nodes s !! b) as [nb0|] eqn:Hb0; [|done]. simpl in Hb.
  assert (tn_parent nb0 = Some p) as Hp0.
  { injection Hb as <-. by destruct (bool_decide _). }
  destruct (Hbl _ _ _ Hb0 Hp0) as (np & Hnp & Hback).
  assert (a ≠ p) as Hap.
  { intros <-. rewrite Hn in Hnp. injection Hnp as <-.
    rewrite Hl, Hr in Hback. by destruct Hback. }
  rewrite Hlk, decide_False, Hnp by done. simpl.
  eexists. split; [reflexivity|].
  destruct (bool_decide (tn_parent n = Some p)); [|exact Hback].
  destruct (unlink_from_keeps a b np) as [Hkl Hkr]; [congruence|].
  destruct Hback; auto.
Qed.

Lemma shrinks_refl s : shrinks s s.
Proof. intros b n Hb. exists n. auto. Qed.

Lemma shrinks_trans s1 s2 s3 : shrinks s1 s2 -> shrinks s2 s3 -> shrinks s1 s3.
Proof.
  intros H12 H23 b n Hb.
  destruct (H12 _ _ Hb) as (n2 & Hb2 & Hl2 & Hr2).
  destruct (H23 _ _ Hb2) as (n3 & Hb3 & Hl3 & Hr3).
  exists n3. split; [done|]. split.
  - destruct Hl3 as [->| ->]; auto.
  - destruct Hr3 as [->| ->]; auto.
Qed.

Lemma unlink_from_slots a n :
  (tn_left (unlink_from a n) = tn_left n \/ tn_left (unlink_from a n) = NULL)
  /\ (tn_right (unlink_from a n) = tn_right n \/ tn_right (unlink_from a n) = NULL).
Proof. unfold unlink_from. simpl. split; destruct (bool_decide _); auto. Qed.

Lemma Tree_NodeDelete_shrinks a s code s' :
  Tree_NodeDelete (Some a) s = Done (code, s') -> shrinks s s'.
Proof.
  intros H. apply Tree_NodeDelete_Done in H as [[_ ->]|[_ H]];
    [apply shrinks_refl|].
  destruct H as (n & Hn & Hl & Hr & _ & Hlk). intros b nb Hb. rewrite Hlk, Hb.
  destruct (decide (a = b)) as [<-|Hab].
  - exists empty_node. simpl. auto.
  - simpl. eexists. split; [reflexivity|].
    destruct (bool_decide _); [apply unlink_from_slots|auto].
Qed.

Lemma clear_place_slots pl b n :
  tn_parent (clear_place pl b n) = tn_parent n
  /\ (tn_left (clear_place pl b n) = tn_left n \/ tn_left (clear_place pl b n) = NULL)
  /\ (tn_right (clear_place pl b n) = tn_right n \/ tn_right (clear_place pl b n) = NULL).
Proof.
  unfold clear_place. destruct pl as [x|q|q]; [auto|..];
    destruct (bool_decide _); simpl; auto.
Qed.

Lemma store_place_Done pl v s s' :
  store_place pl v s = Done s' -> exists v0, load_place pl s = Done v0.
Proof.
  unfold store_place, load_place, set_field. destruct pl as [x|q|q].
  - destruct (vars s !! x); [eauto|discriminate].
  - destruct (get_node q s); [eauto|discriminate..].
  - destruct (get_node q s); [eauto|discriminate..].
Qed.

(** A completed subtree deletion keeps the invariant, only ever clears child
    slots, and leaves [NULL] in the cell it was given. *)
Lemma Tree_SubTreeDelete_Static_back_linked fuel :
  forall pl s code s',
  Tree_SubTreeDelete_Static fuel (Some pl) s = Done (code, s') ->
  back_linked s ->
  back_linked s' /\ shrinks s s' /\ load_place pl s' = Done NULL.
Proof.
  induction fuel as [|fuel IH]; intros pl s code s' H Hbl;
    simpl in H; [discriminate|].
  destruct (load_place pl s) as [v| |] eqn:Hld; try discriminate.
  rewrite bind_Done in H. destruct v as [a|].
  2:{ injection H as <- <-. split; [done|]. split; [apply shrinks_refl|done]. }
  destruct (Tree_SubTreeDelete_Static fuel (Some (PLeft a)) s)
    as [[c1 s1]| |] eqn:E1; try discriminate.
  rewrite bind_Done in H. cbv beta iota in H.
  destruct (IH _ _ _ _ E1 Hbl) as (Hbl1 & Hsh1 & Hl1).
  destruct (Tree_SubTreeDelete_Static fuel (Some (PRight a)) s1)
    as [[c2 s2]| |] eqn:E2; try discriminate.
  rewrite bind_Done in H. cbv beta iota in H.
  destruct (IH _ _ _ _ E2 Hbl1) as (Hbl2 & Hsh2 & Hr2).
  destruct (Tree_NodeDelete (Some a) s2) as [[c3 s3]| |] eqn:E3;
    try discriminate.
  rewrite bind_Done in H. cbv beta iota in H.
  destruct (store_place pl NULL s3) as [s4| |] eqn:E4; try discriminate.
  rewrite bind_Done in H. injection H as <- <-.
  (* the node is a leaf when it is deleted *)
  apply load_place_Done in Hl1 as (n1 & Hn1 & Hnl1).
  apply load_place_Done in Hr2 as (n2 & Hn2 & Hnr2).
  assert (tn_left n2 = NULL) as Hnl2.
  { destruct (Hsh2 _ _ Hn1) as (n2' & Hn2' & Hl & _).
    rewrite Hn2 in Hn2'. injection Hn2' as <-. destruct Hl; congruence. }
  pose proof (Tree_NodeDelete_back_linked _ _ _ _ E3 Hbl2) as Hbl3.
  pose proof (Tree_NodeDelete_shrinks _ _ _ _ E3) as Hsh3.
  assert (nodes s3 !! a = Some empty_node) as Ha3.
  { pose proof E3 as E3'.
    rewrite (Tree_NodeDelete_leaf _ _ _ Hn2 Hnl2 Hnr2) in E3'.
    apply Tree_NodeDelete_Done in E3 as [[-> _]|[_ (n & _ & _ & _ & _ & Hlk)]].
    - destruct (deleted a n2 s2); discriminate.
    - rewrite Hlk. by rewrite decide_True. }
  pose proof (shrinks_trans _ _ _ (shrinks_trans _ _ _ Hsh1 Hsh2) Hsh3) as Hsh03.
  (* the final store *)
  destruct (store_place_Done _ _ _ _ E4) as (v3 & Hld3).
  destruct (store_place_NULL_lookup pl s3 _ Hld3) as (s4' & E4' & Hld4 & Hlk4 & _).
  rewrite E4 in E4'. injection E4' as <-.
  split; [|split; [|done]].
  - intros b nb p Hb Hp. rewrite Hlk4 in Hb.
    destruct (nodes s3 !! b) as [nb3|] eqn:Hb3; [|done].
    injection Hb as <-.
    destruct (clear_place_slots pl b nb3) as (Hpar & _). rewrite Hpar in Hp.
    destruct (Hbl3 _ _ _ Hb3 Hp) as (np & Hnp & Hback).
    rewrite Hlk4, Hnp. simpl. eexists. split; [reflexivity|].
    assert (b ≠ a) as Hba.
    { intros ->. rewrite Ha3 in Hb3. injection Hb3 as <-. discriminate. }
    apply load_place_Done in Hld.
    unfold clear_place. destruct pl as [x|q|q]; [done|..];
      (destruct (decide (q = p)) as [->|Hqp];
       [rewrite bool_decide_eq_true_2 by done
       |by rewrite bool_decide_eq_false_2 by done]);
      destruct Hld as (nq & Hq & Hqa);
      destruct (Hsh03 _ _ Hq) as (nq3 & Hq3 & Hql & Hqr);
      rewrite Hnp in Hq3; injection Hq3 as <-; simpl.
    + destruct Hback as [Hback|Hback]; [|auto].
      destruct Hql as [Hql|Hql]; congruence.
    + destruct Hback as [Hback|Hback]; [auto|].
      destruct Hqr as [Hqr|Hqr]; congruence.
  - apply (shrinks_trans _ _ _ Hsh03).
    intros b nb Hb. rewrite Hlk4, Hb. simpl. eexists. split; [reflexivity|].
    apply clear_place_slots.
Qed.

(** Every call of the static API preserves the invariant, provided
    [Tree_NodeInit] is not applied to a node that another node still names
    as its parent. *)
Lemma run_call_back_linked c s s' :
  no_init_of_parent c s -> run_call c s = Done s' ->
  back_linked s -> back_linked s'.
Proof.
  destruct c as [p|p v|p q m|p|fuel pp]; simpl; intros Hd H Hbl.
  - destruct p as [a|]; [|discriminate].
    by apply (Tree_NodeInit_back_linked a s).
  - destruct (Tree_NodeValueSet p v s) as [[code s1]| |] eqn:E; try discriminate.
    injection H as <-. by apply (Tree_NodeValueSet_back_linked _ _ _ _ _ E).
  - destruct (Tree_NodeAppend p q m s) as [[code s1]| |] eqn:E; try discriminate.
    injection H as <-. destruct p as [a|], q as [b|];
      try (by injection E as _ <-).
    by apply (Tree_NodeAppend_back_linked _ _ _ _ _ _ E).
  - destruct (Tree_NodeDelete p s) as [[code s1]| |] eqn:E; try discriminate.
    injection H as <-. destruct p as [a|]; [|discriminate].
    by apply (Tree_NodeDelete_back_linked _ _ _ _ E).
  - destruct (Tree_SubTreeDelete_Static fuel pp s) as [[code s1]| |] eqn:E;
      try discriminate.
    injection H as <-. destruct pp as [pl|]; [|by destruct fuel].
    by apply (Tree_SubTreeDelete_Static_back_linked _ _ _ _ _ E).
Qed.

Lemma reachable_back_linked D s :
  (forall c s, D c s -> no_init_of_parent c s) ->
  reachable D s -> back_linked s.
Proof.
  intros HD. induction 1 as [s Hi|s c s' _ IH Hc Hrun].
  - by apply initialized_back_linked.
  - apply (run_call_back_linked c s); auto.
Qed.

(** C10, as amended.  Start from initialised nodes and apply any sequence of
    completed calls of the static API in which the caller never appends a
    node that is already attached and never re-initialises a node that
    another node still names as its parent.  In every state so reached,
    each node with a parent reference has a live parent one of whose child
    slots points back to it. *)
Theorem back_reference_invariant s :
  reachable (fun c s => no_double_attach c s /\ no_init_of_parent c s) s ->
  back_linked s.
Proof. apply reachable_back_linked. by intros c s0 [_ H]. Qed.

Lemma two_fresh_initialized : initialized two_fresh.
Proof.
  intros a n. unfold two_fresh. simpl.
  rewrite !lookup_insert. repeat case_decide; try congruence.
  by rewrite lookup_empty.
Qed.

Lemma two_fresh_detached b : ~ attached two_fresh b.
Proof.
  intros [(n & Hn & Hp)|(a & n & Hn & Hc)].
  - apply two_fresh_initialized in Hn as ->. by apply Hp.
  - apply two_fresh_initialized in Hn as ->. by destruct Hc.
Qed.

(** Appending 20 under 10 is a call every discipline considered here
    admits. *)
Lemma linked_pair_reachable (D : api_call -> state -> Prop) :
  D (NodeAppend (Some 10%positive) (Some 20%positive) INSERT_POS_LEFT) two_fresh ->
  reachable D linked_pair.
Proof.
  intros HD.
  apply (reach_call _ two_fresh
           (NodeAppend (Some 10%positive) (Some 20%positive) INSERT_POS_LEFT)).
  - apply reach_start, two_fresh_initialized.
  - exact HD.
  - vm_compute. reflexivity.
Qed.

(** C10, counterexample to the claim as stated: from two fresh nodes,
    appending 20 under 10 and then re-initialising 10 respects the rule
    about attaching, yet leaves 20 naming a parent whose slots are empty. *)
Lemma orphaned_back_reference :
  reachable no_double_attach orphan_state /\ ~ back_linked orphan_state.
Proof.
  split.
  - apply (reach_call _ linked_pair (NodeInit (Some 10%positive))).
    + apply linked_pair_reachable. simpl. apply two_fresh_detached.
    + exact I.
    + vm_compute. reflexivity.
  - intros H.
    destruct (H 20%positive (mkNode (Some 10%positive) NULL NULL NULL) 10%positive)
      as (np & Hnp & Hback); [reflexivity..|].
    vm_compute in Hnp. injection Hnp as <-. by destruct Hback.
Qed.

(** ** Traversal orders on arbitrary finite trees *)

#[local] Arguments call_visitor : simpl never.
#[local] Arguments left_of : simpl never.
#[local] Arguments right_of : simpl never.

Lemma call_visitor_record Ctx a n s log :
  nodes s !! a = Some n ->
  call_visitor record_visit Ctx a (s, log) = Done (s, log ++ [(Ctx, tn_data n)]).
Proof.
  intros H. unfold call_visitor. simpl. by rewrite (get_node_live _ _ _ H).
Qed.

Lemma left_of_live {W} a n s (w : W) :
  nodes s !! a = Some n -> left_of a (s, w) = Done (tn_left n).
Proof. intros H. unfold left_of. simpl. by rewrite (get_node_live _ _ _ H). Qed.

Lemma right_of_live {W} a n s (w : W) :
  nodes s !! a = Some n -> right_of a (s, w) = Done (tn_right n).
Proof. intros H. unfold right_of. simpl. by rewrite (get_node_live _ _ _ H). Qed.

Lemma Tree_TravesePreOrder_shape s Ctx t :
  shape_at s t ->
  forall fuel log, (height t < fuel)%nat ->
  Tree_TravesePreOrder fuel (root_ptr t) (Some record_visit) Ctx (s, log)
  = Done (visit_code t, (s, log ++ logged Ctx (preorder s t))).
Proof.
  induction t as [|a l IHl r IHr]; intros Hs fuel log Hf;
    (destruct fuel as [|fuel]; [simpl in Hf; lia|]); simpl in *.
  { by rewrite app_nil_r. }
  destruct (nodes s !! a) as [n|] eqn:Hn; [|done].
  destruct Hs as (Hl & Hr & Hsl & Hsr).
  rewrite (call_visitor_record _ _ _ _ _ Hn), bind_Done.
  rewrite (left_of_live _ _ _ _ Hn), bind_Done, Hl.
  rewrite (IHl Hsl fuel _ ltac:(lia)), bind_Done. cbv beta iota.
  rewrite (right_of_live _ _ _ _ Hn), bind_Done, Hr.
  rewrite (IHr Hsr fuel _ ltac:(lia)), bind_Done. cbv beta iota.
  unfold logged, payload. rewrite Hn, ?fmap_app, ?fmap_cons, <- ?app_assoc.
  reflexivity.
Qed.

Lemma Tree_TraveseInOrder_shape s Ctx t :
  shape_at s t ->
  forall fuel log, (height t < fuel)%nat ->
  Tree_TraveseInOrder fuel (root_ptr t) (Some record_visit) Ctx (s, log)
  = Done (visit_code t, (s, log ++ logged Ctx (inorder s t))).
Proof.
  induction t as [|a l IHl r IHr]; intros Hs fuel log Hf;
    (destruct fuel as [|fuel]; [simpl in Hf; lia|]); simpl in *.
  { by rewrite app_nil_r. }
  destruct (nodes s !! a) as [n|] eqn:Hn; [|done].
  destruct Hs as (Hl & Hr & Hsl & Hsr).
  rewrite (left_of_live _ _ _ _ Hn), bind_Done, Hl.
  rewrite (IHl Hsl fuel _ ltac:(lia)), bind_Done. cbv beta iota.
  rewrite (call_visitor_record _ _ _ _ _ Hn), bind_Done.
  rewrite (right_of_live _ _ _ _ Hn), bind_Done, Hr.
  rewrite (IHr Hsr fuel _ ltac:(lia)), bind_Done. cbv beta iota.
  unfold logged, payload. rewrite Hn, ?fmap_app, ?fmap_cons, <- ?app_assoc.
  reflexivity.
Qed.

Lemma Tree_TravesePostOrder_shape s Ctx t :
  shape_at s t ->
  forall fuel log, (height t < fuel)%nat ->
  Tree_TravesePostOrder fuel (root_ptr t) (Some record_visit) Ctx (s, log)
  = Done (visit_code t, (s, log ++ logged Ctx (postorder s t))).
Proof.
  induction t as [|a l IHl r IHr]; intros Hs fuel log Hf;
    (destruct fuel as [|fuel]; [simpl in Hf; lia|]); simpl in *.
  { by rewrite app_nil_r. }
  destruct (nodes s !! a) as [n|] eqn:Hn; [|done].
  destruct Hs as (Hl & Hr & Hsl & Hsr).
  rewrite (left_of_live _ _ _ _ Hn), bind_Done, Hl.
  rewrite (IHl Hsl fuel _ ltac:(lia)), bind_Done. cbv beta iota.
  rewrite (right_of_live _ _ _ _ Hn), bind_Done, Hr.
  rewrite (IHr Hsr fuel _ ltac:(lia)), bind_Done. cbv beta iota.
  rewrite (call_visitor_record _ _ _ _ _ Hn), bind_Done.
  unfold logged, payload. rewrite Hn, ?fmap_app, ?fmap_cons, <- ?app_assoc.
  reflexivity.
Qed.

(** On every finite tree the three traversals, run with the recording
    visitor and a call budget above the height, succeed on a present root,
    leave memory unchanged, and extend the log by the payloads in pre-order
    (node, left, right), in-order (left, node, right) and post-order (left,
    right, node), each paired with the context value that was passed in. *)
Theorem traverse_orders s Ctx t fuel log :
  shape_at s t -> (height t < fuel)%nat ->
  Tree_TravesePreOrder fuel (root_ptr t) (Some record_visit) Ctx (s, log)
    = Done (visit_code t, (s, log ++ logged Ctx (preorder s t)))
  /\ Tree_TraveseInOrder fuel (root_ptr t) (Some record_visit) Ctx (s, log)
    = Done (visit_code t, (s, log ++ logged Ctx (inorder s t)))
  /\ Tree_TravesePostOrder fuel (root_ptr t) (Some record_visit) Ctx (s, log)
    = Done (visit_code t, (s, log ++ logged Ctx (postorder s t))).
Proof.
  intros Hs Hf. split; [|split].
  - by apply Tree_TravesePreOrder_shape.
  - by apply Tree_TraveseInOrder_shape.
  - by apply Tree_TravesePostOrder_shape.
Qed.

(** ** The theorems at concrete inputs *)

(** C1 on [tree4_spare]: node 30 (a right child carrying payload 3) receives
    the spare node 50 on its left and loses it again. *)
Lemma append_delete_roundtrip_witness :
  exists s1 s2,
    Tree_NodeAppend (Some 30%positive) (Some 50%positive) INSERT_POS_LEFT tree4_spare
      = Done (ERR_SUCCESS, s1)
    /\ nodes s1 !! 30%positive
       = Some (with_left (Some 50%positive)
                 (mkNode (Some 10%positive) NULL NULL (Some 3%positive)))
    /\ nodes s1 !! 50%positive = Some (with_parent (Some 30%positive) empty_node)
    /\ Tree_NodeDelete (Some 50%positive) s1 = Done (ERR_SUCCESS, s2)
    /\ s2 = tree4_spare
    /\ nodes s2 !! 30%positive
       = Some (mkNode (Some 10%positive) NULL NULL (Some 3%positive))
    /\ tn_left (mkNode (Some 10%positive) NULL NULL (Some 3%positive)) = NULL
    /\ nodes s2 !! 50%positive = Some empty_node.
Proof.
  apply (append_delete_roundtrip 30 50
           (mkNode (Some 10%positive) NULL NULL (Some 3%positive)) tree4_spare).
  - discriminate.
  - vm_compute. reflexivity.
  - reflexivity.
  - discriminate.
  - vm_compute. reflexivity.
Defined.

(** C3 on [tree4]: node 40 is a leaf under node 20. *)
Lemma Tree_NodeDelete_leaf_only_witness :
  let n := mkNode (Some 20%positive) NULL NULL (Some 4%positive) in
  (tn_left n ≠ NULL \/ tn_right n ≠ NULL ->
     Tree_NodeDelete (Some 40%positive) tree4 = Done (ERR_FAILURE, tree4))
  /\ (tn_left n = NULL -> tn_right n = NULL ->
      exists s', Tree_NodeDelete (Some 40%positive) tree4 = Done (ERR_SUCCESS, s')
        /\ nodes s' !! 40%positive = Some empty_node
        /\ (forall p np, tn_parent n = Some p -> p ≠ 40%positive ->
              nodes tree4 !! p = Some np ->
              nodes s' !! p = Some (unlink_from 40 np)
              /\ tn_parent (unlink_from 40 np) = tn_parent np
              /\ tn_data (unlink_from 40 np) = tn_data np
              /\ tn_left (unlink_from 40 np)
                 = (if bool_decide (tn_left np = Some 40%positive) then NULL else tn_left np)
              /\ tn_right (unlink_from 40 np)
                 = (if bool_decide (tn_right np = Some 40%positive) then NULL else tn_right np))
        /\ (forall b, b ≠ 40%positive -> tn_parent n ≠ Some b ->
              nodes s' !! b = nodes tree4 !! b)
        /\ vars s' = vars tree4).
Proof.
  apply (Tree_NodeDelete_leaf_only 40
           (mkNode (Some 20%positive) NULL NULL (Some 4%positive)) tree4).
  - vm_compute. reflexivity.
  - intros p [= <-]. vm_compute. eauto.
Defined.

(** C3 on [tree4]: node 20 has a child and is refused. *)
Example Tree_NodeDelete_refuses_inner :
  Tree_NodeDelete (Some 20%positive) tree4 = Done (ERR_FAILURE, tree4).
Proof. vm_compute. reflexivity. Qed.

(** C4 on the three-node chain, through the caller's variable 1. *)
Lemma Tree_SubTreeDelete_Static_spec_witness :
  exists s',
    Tree_SubTreeDelete_Static 4 (Some (PVar 1)) chain3 = Done (ERR_SUCCESS, s')
    /\ (forall b, b ∈ addrs shape_chain3 -> nodes s' !! b = Some empty_node)
    /\ load_place (PVar 1) s' = Done NULL
    /\ (forall b a, b ∉ addrs shape_chain3 -> root_ptr shape_chain3 = Some a ->
          nodes s' !! b = outside_effect a NULL (PVar 1) b <$> nodes chain3 !! b).
Proof.
  apply (Tree_SubTreeDelete_Static_spec shape_chain3 chain3 NULL (PVar 1) 4).
  - discriminate.
  - vm_compute. tauto.
  - apply (bool_decide_unpack _). vm_compute. exact I.
  - discriminate.
  - vm_compute. reflexivity.
  - exact I.
  - simpl. lia.
Defined.

(** The same call, evaluated. *)
Example Tree_SubTreeDelete_Static_chain3 :
  Tree_SubTreeDelete_Static 4 (Some (PVar 1)) chain3
  = Done (ERR_SUCCESS,
          mkState (list_to_map [(10%positive, empty_node); (20%positive, empty_node);
                                (30%positive, empty_node)])
                  (<[1%positive := NULL]> ∅)).
Proof. vm_compute. reflexivity. Qed.

(** C5 on [tree4]: depth 3. *)
Lemma Tree_DepthGet_spec_witness :
  exists d,
    Tree_DepthGet 4 (Some 10%positive) tree4 = Done (d, tree4)
    /\ d = 1 + Z.max (depth_spec (SNode 20 (SNode 40 SNil SNil) SNil))
                     (depth_spec (SNode 30 SNil SNil))
    /\ (Some 10%positive = NULL -> d = 0)
    /\ (Some 10%positive ≠ NULL -> 1 <= d)
    /\ (forall a, shape4 = SNode a SNil SNil -> d = 1)
    /\ (forall s', same_links tree4 s' ->
          Tree_DepthGet 4 (Some 10%positive) s' = Done (d, s')).
Proof.
  apply (Tree_DepthGet_spec tree4 shape4 4).
  - vm_compute. tauto.
  - vm_compute. discriminate.
  - simpl. lia.
Defined.

Example Tree_DepthGet_tree4 :
  Tree_DepthGet 4 (Some 10%positive) tree4 = Done (3, tree4)
  /\ Tree_DepthGet 4 (Some 30%positive) tree4 = Done (1, tree4)
  /\ Tree_DepthGet 4 NULL tree4 = Done (0, tree4).
Proof. repeat split; vm_compute; reflexivity. Qed.

(** C6 on [tree4]: both slots of node 10 are taken. *)
Lemma Tree_NodeAppend_occupied_witness :
  Tree_NodeAppend (Some 10%positive) (Some 40%positive) INSERT_POS_RIGHT tree4
  = Done (ERR_NODE_EXIST, tree4).
Proof.
  apply (Tree_NodeAppend_occupied 10 40 INSERT_POS_RIGHT tree4
           (mkNode NULL (Some 20%positive) (Some 30%positive) (Some 1%positive))).
  - vm_compute. reflexivity.
  - right. split; [reflexivity|discriminate].
Defined.

(** C7 at [Mode = 2]. *)
Lemma Tree_NodeAppend_unrecognized_mode_witness :
  Tree_NodeAppend (Some 30%positive) (Some 50%positive) 2 tree4_spare
    = Done (ERR_WRONG_PARAM, tree4_spare)
  /\ (forall m s',
        Tree_NodeAppend (Some 30%positive) (Some 50%positive) m tree4_spare
          = Done (ERR_WRONG_PARAM, s') ->
        m ≠ INSERT_POS_LEFT /\ m ≠ INSERT_POS_RIGHT).
Proof.
  apply (Tree_NodeAppend_unrecognized_mode 30 50 2 tree4_spare); discriminate.
Defined.

(** C8 on [chain3]: variable 1 holds node 10, which has a child. *)
Lemma Tree_NodeDestory_failure_witness :
  Tree_NodeDestory (Some (PVar 1)) chain3 = Done (ERR_FAILURE, chain3)
  /\ ERR_FAILURE = ERR_FAILURE /\ chain3 = chain3.
Proof.
  apply (proj2 (Tree_NodeDestory_failure (PVar 1) chain3)
           (Some 10%positive) ERR_FAILURE chain3).
  - vm_compute. reflexivity.
  - vm_compute. reflexivity.
  - discriminate.
Defined.

(** C9 with the recording visitor: absent root, and absent callback on a
    present root; the log stays empty. *)
Lemma traverse_invalid_pointer_witness :
  (Tree_TravesePreOrder 1 NULL (Some record_visit) (Some 9%positive) (tree4, [])
     = Done (ERR_INVALID_POINTER, (tree4, []))
   /\ Tree_TraveseInOrder 1 NULL (Some record_visit) (Some 9%positive) (tree4, [])
     = Done (ERR_INVALID_POINTER, (tree4, []))
   /\ Tree_TravesePostOrder 1 NULL (Some record_visit) (Some 9%positive) (tree4, [])
     = Done (ERR_INVALID_POINTER, (tree4, [])))
  /\ (Tree_TravesePreOrder 1 (Some 10%positive) None (Some 9%positive)
        (tree4, @nil (ptr * ptr))
     = Done (ERR_INVALID_POINTER, (tree4, []))
   /\ Tree_TraveseInOrder 1 (Some 10%positive) None (Some 9%positive)
        (tree4, @nil (ptr * ptr))
     = Done (ERR_INVALID_POINTER, (tree4, []))
   /\ Tree_TravesePostOrder 1 (Some 10%positive) None (Some 9%positive)
        (tree4, @nil (ptr * ptr))
     = Done (ERR_INVALID_POINTER, (tree4, []))).
Proof.
  split.
  - apply (traverse_invalid_pointer 0 NULL (Some record_visit)). left. reflexivity.
  - apply (traverse_invalid_pointer 0 (Some 10%positive) None). right. reflexivity.
Defined.

(** C10 on the linked pair. *)
Lemma back_reference_invariant_witness : back_linked linked_pair.
Proof.
  apply back_reference_invariant, linked_pair_reachable.
  split; [apply two_fresh_detached|exact I].
Defined.

(** The general order theorem on [tree4], continuing a non-empty log. *)
Lemma traverse_orders_witness :
  let log := [(Some 7%positive, Some 8%positive)] in
  Tree_TravesePreOrder 4 (Some 10%positive) (Some record_visit) (Some 9%positive) (tree4, log)
    = Done (ERR_SUCCESS, (tree4, log ++ logged (Some 9%positive) (preorder tree4 shape4)))
  /\ Tree_TraveseInOrder 4 (Some 10%positive) (Some record_visit) (Some 9%positive) (tree4, log)
    = Done (ERR_SUCCESS, (tree4, log ++ logged (Some 9%positive) (inorder tree4 shape4)))
  /\ Tree_TravesePostOrder 4 (Some 10%positive) (Some record_visit) (Some 9%positive) (tree4, log)
    = Done (ERR_SUCCESS, (tree4, log ++ logged (Some 9%positive) (postorder tree4 shape4))).
Proof.
  apply (traverse_orders tree4 (Some 9%positive) shape4 4).
  - vm_compute. tauto.
  - simpl. lia.
Defined.

(** The append theorem on [tree4_spare]: node 50 goes under node 30. *)
Lemma Tree_NodeAppend_links_witness :
  Tree_NodeAppend (Some 30%positive) (Some 50%positive) INSERT_POS_RIGHT tree4_spare
  = Done (ERR_SUCCESS,
          put_node 50 (with_parent (Some 30%positive) empty_node)
            (put_node 30 (with_right (Some 50%positive)
                            (mkNode (Some 10%positive) NULL NULL (Some 3%positive)))
               tree4_spare)).
Proof.
  apply (Tree_NodeAppend_links 30 50
           (mkNode (Some 10%positive) NULL NULL (Some 3%positive)) empty_node
           INSERT_POS_RIGHT tree4_spare).
  - discriminate.
  - vm_compute. reflexivity.
  - vm_compute. reflexivity.
  - right. split; reflexivity.
Defined.

(** * Further properties of the module *)

(** ** Append: codes and atomicity *)

(** X3.  Whatever the arguments, a completed [Tree_NodeAppend] answers one of four
    codes; it answers [ERR_INVALID_POINTER] exactly when one of the two
    pointers is [NULL], before [Mode] is even looked at; and unless it
    answers [ERR_SUCCESS] it returns the state it was given. *)
Theorem Tree_NodeAppend_failure_atomic p q Mode s code s' :
  Tree_NodeAppend p q Mode s = Done (code, s') ->
  (code = ERR_SUCCESS
   \/ (s' = s /\ (code = ERR_INVALID_POINTER \/ code = ERR_WRONG_PARAM
                  \/ code = ERR_NODE_EXIST)))
  /\ (code = ERR_INVALID_POINTER <-> p = NULL \/ q = NULL).
Proof.
  assert (Hnull : p = NULL \/ q = NULL ->
            Tree_NodeAppend p q Mode s = Done (ERR_INVALID_POINTER, s)).
  { intros [-> | ->]; [reflexivity|]. by destruct p. }
  destruct p as [a|]; [destruct q as [b|]|].
  2,3: rewrite Hnull by auto; intros [= <- <-]; split; [right|]; auto;
       split; auto.
  clear Hnull. unfold Tree_NodeAppend.
  assert (Hsome : ~ (Some a = NULL \/ Some b = NULL)) by (intros [|]; discriminate).
  destruct (negb _).
  { intros [= <- <-]. split; [auto|]. split; [discriminate|done]. }
  destruct (_ =? INSERT_POS_LEFT).
  - destruct (get_node a s) as [n| |]; try discriminate. rewrite bind_Done.
    destruct (bool_decide _).
    + destruct (set_field with_left a (Some b) s) as [s1| |]; try discriminate.
      rewrite bind_Done.
      destruct (set_field with_parent b (Some a) s1) as [s2| |]; try discriminate.
      rewrite bind_Done. intros [= <- <-]. split; [auto|].
      split; [discriminate|done].
    + intros [= <- <-]. split; [auto|]. split; [discriminate|done].
  - destruct (_ =? INSERT_POS_RIGHT).
    + destruct (get_node a s) as [n| |]; try discriminate. rewrite bind_Done.
      destruct (bool_decide _).
      * destruct (set_field with_right a (Some b) s) as [s1| |]; try discriminate.
        rewrite bind_Done.
        destruct (set_field with_parent b (Some a) s1) as [s2| |]; try discriminate.
        rewrite bind_Done. intros [= <- <-]. split; [auto|].
        split; [discriminate|done].
      * intros [= <- <-]. split; [auto|]. split; [discriminate|done].
    + intros [= <- <-]. split; [auto|]. split; [discriminate|done].
Qed.

(** ** Round trip on the right slot *)

(** X4.  The right-hand counterpart of the left round trip: for distinct live
    nodes [A] and [B], with [A]'s right slot free, [B] freshly initialised
    and not held by [A]'s left slot, [Tree_NodeAppend(A, B,
    INSERT_POS_RIGHT)] followed by [Tree_NodeDelete(B)] succeeds twice and
    returns memory to the state before the append. *)
Theorem append_right_delete_roundtrip A B nA s :
  A ≠ B ->
  nodes s !! A = Some nA -> tn_right nA = NULL -> tn_left nA ≠ Some B ->
  nodes s !! B = Some empty_node ->
  exists s1,
    Tree_NodeAppend (Some A) (Some B) INSERT_POS_RIGHT s = Done (ERR_SUCCESS, s1)
    /\ nodes s1 !! A = Some (with_right (Some B) nA)
    /\ nodes s1 !! B = Some (with_parent (Some A) empty_node)
    /\ Tree_NodeDelete (Some B) s1 = Done (ERR_SUCCESS, s).
Proof.
  intros Hne HA Hr Hl HB.
  set (s1 := put_node B (with_parent (Some A) empty_node)
               (put_node A (with_right (Some B) nA) s)).
  assert (nodes s1 !! A = Some (with_right (Some B) nA)) as HA1.
  { unfold s1. rewrite lookup_put_node_ne by done. apply lookup_put_node_eq. }
  assert (nodes s1 !! B = Some (with_parent (Some A) empty_node)) as HB1
    by apply lookup_put_node_eq.
  assert (unlink_from B (with_right (Some B) nA) = nA) as Hun.
  { destruct nA as [p l r d]. simpl in *. subst r. unfold unlink_from. simpl.
    rewrite (bool_decide_eq_false_2 _ Hl).
    by rewrite bool_decide_eq_true_2. }
  exists s1. split; [|split; [done|split; [done|]]].
  - rewrite (Tree_NodeAppend_right_free _ _ _ _ HA Hr).
    assert (nodes (put_node A (with_right (Some B) nA) s) !! B = Some empty_node) as HB'
      by (by rewrite lookup_put_node_ne).
    by rewrite (set_field_live _ _ _ _ _ HB').
  - rewrite (Tree_NodeDelete_leaf _ _ _ HB1 eq_refl eq_refl). unfold deleted.
    change (tn_parent (with_parent (Some A) empty_node)) with (Some A).
    cbv beta iota. rewrite HA1. simpl. rewrite Hun. unfold s1.
    rewrite (put_node_comm A B) by done.
    rewrite !put_node_put_node.
    rewrite (put_node_id B) by (by rewrite lookup_put_node_ne).
    by rewrite (put_node_id A).
Qed.

(** ** Payload accessors *)

#[local] Arguments Tree_NodeValueSet : simpl never.
#[local] Arguments Tree_NodeValueGet : simpl never.

Lemma same_links_put_data a n v s :
  nodes s !! a = Some n -> same_links s (put_node a (with_data v n) s).
Proof.
  intros H b. rewrite lookup_put_node. destruct (decide (a = b)) as [<-|]; [|done].
  by rewrite H.
Qed.

(** X5.  Storing a payload pointer in a live node and reading it back returns
    that pointer; the store changes the payload field of that node and
    nothing else (links, other nodes, variables); on [NULL] the setter
    answers [ERR_INVALID_POINTER] without touching memory and the getter
    answers [NULL]. *)
Theorem Tree_NodeValue_roundtrip a n v s :
  nodes s !! a = Some n ->
  exists s',
    Tree_NodeValueSet (Some a) v s = Done (ERR_SUCCESS, s')
    /\ Tree_NodeValueGet (Some a) s' = Done v
    /\ nodes s' !! a = Some (with_data v n)
    /\ (forall b, b ≠ a -> nodes s' !! b = nodes s !! b)
    /\ vars s' = vars s
    /\ same_links s s'
    /\ Tree_NodeValueSet NULL v s = Done (ERR_INVALID_POINTER, s)
    /\ Tree_NodeValueGet NULL s' = Done NULL.
Proof.
  intros H. exists (put_node a (with_data v n) s).
  split; [|split; [|split; [|split; [|split; [|split; [|split]]]]]].
  - unfold Tree_NodeValueSet. by rewrite (set_field_live _ _ _ _ _ H).
  - unfold Tree_NodeValueGet.
    by rewrite (get_node_live _ _ _ (lookup_put_node_eq _ _ _)).
  - apply lookup_put_node_eq.
  - intros b Hb. by rewrite lookup_put_node_ne.
  - reflexivity.
  - by apply same_links_put_data.
  - reflexivity.
  - reflexivity.
Qed.

(** ** Initialised and deleted nodes *)

(** X6.  After a completed [Tree_NodeInit], and likewise after a successful
    [Tree_NodeDelete], the node is a standalone empty node: initialising it
    again or deleting it (again) succeeds and changes nothing, and its depth
    is 1. *)
Theorem reset_node_is_standalone p s s1 (k : nat) :
  Tree_NodeInit p s = Done s1 \/ Tree_NodeDelete p s = Done (ERR_SUCCESS, s1) ->
  Tree_NodeInit p s1 = Done s1
  /\ Tree_NodeDelete p s1 = Done (ERR_SUCCESS, s1)
  /\ Tree_DepthGet (2 + k) p s1 = Done (1, s1).
Proof.
  intros H.
  assert (exists a, p = Some a /\ nodes s1 !! a = Some empty_node) as (a & -> & Ha).
  { destruct H as [H|H].
    - apply Tree_NodeInit_Done in H as (a & n & -> & _ & ->).
      exists a. split; [done|]. apply lookup_put_node_eq.
    - destruct p as [a|]; [|discriminate]. exists a. split; [done|].
      apply Tree_NodeDelete_Done in H as [[[=] _]|[_ (n & _ & _ & _ & _ & Hlk)]].
      rewrite Hlk. by rewrite decide_True. }
  split; [|split].
  - rewrite (Tree_NodeInit_live _ _ _ Ha). by rewrite (put_node_id _ _ _ Ha).
  - rewrite (Tree_NodeDelete_leaf _ _ _ Ha eq_refl eq_refl). unfold deleted. simpl.
    by rewrite (put_node_id _ _ _ Ha).
  - apply (Tree_DepthGet_shape s1 (SNode a SNil SNil)).
    + simpl. by rewrite Ha.
    + vm_compute. discriminate.
    + simpl. lia.
Qed.

(** ** More on the depth query *)

Lemma shape_at_agree s s' t :
  (forall b, b ∈ addrs t -> nodes s' !! b = nodes s !! b) ->
  shape_at s t -> shape_at s' t.
Proof.
  induction t as [|a l IHl r IHr]; intros Hag; simpl; [done|].
  rewrite (Hag a) by (simpl; apply elem_of_cons; auto).
  destruct (nodes s !! a) as [n|]; [|done].
  intros (Hl & Hr & Hsl & Hsr). repeat split; try done.
  - apply IHl; [|done]. intros b Hb. apply Hag. simpl.
    apply elem_of_cons. right. apply elem_of_app. auto.
  - apply IHr; [|done]. intros b Hb. apply Hag. simpl.
    apply elem_of_cons. right. apply elem_of_app. auto.
Qed.

Lemma Tree_DepthGet_Done_shape fuel :
  forall p s d s', Tree_DepthGet fuel p s = Done (d, s') ->
  exists t, root_ptr t = p /\ shape_at s t /\ d = depth_spec t
            /\ (height t < fuel)%nat /\ d <= INT_MAX /\ s' = s.
Proof.
  induction fuel as [|fuel IH]; intros p s d s'; simpl; [discriminate|].
  destruct p as [a|].
  2:{ intros [= <- <-]. exists SNil. simpl. repeat split; try done; lia. }
  destruct (get_node a s) as [n| |] eqn:Hn; try discriminate.
  rewrite bind_Done. apply get_node_Done in Hn.
  destruct (Tree_DepthGet fuel (tn_left n) s) as [[dl s1]| |] eqn:El;
    try discriminate.
  rewrite bind_Done. cbv beta iota.
  destruct (IH _ _ _ _ El) as (tl & Hrl & Hsl & -> & Hhl & _ & ->).
  rewrite (get_node_live _ _ _ Hn), bind_Done.
  destruct (Tree_DepthGet fuel (tn_right n) s) as [[dr s2]| |] eqn:Er;
    try discriminate.
  rewrite bind_Done. cbv beta iota.
  destruct (IH _ _ _ _ Er) as (tr & Hrr & Hsr & -> & Hhr & _ & ->).
  intros H. exists (SNode a tl tr). simpl. rewrite Hn.
  assert (d = 1 + Z.max (depth_spec tl) (depth_spec tr) /\ d <= INT_MAX /\ s' = s)
    as (-> & Hd & ->).
  { rewrite Z.geb_leb in H. unfold int_succ in H.
    destruct (Z.leb_spec (depth_spec tr) (depth_spec tl));
      match type of H with context [?x <? INT_MAX] =>
        destruct (Z.ltb_spec x INT_MAX); [|discriminate] end;
      rewrite bind_Done in H; injection H as <- <-; repeat split; lia. }
  repeat split; try done. lia.
Qed.

(** X7.  The query completes only on finite trees: whenever [Tree_DepthGet]
    returns, the child links below the queried pointer unfold to a finite
    shape, lower than the call budget, and the value returned is the depth
    of that shape (at most [INT_MAX]); the state comes back unchanged. *)
Theorem Tree_DepthGet_finite fuel p s d s' :
  Tree_DepthGet fuel p s = Done (d, s') ->
  exists t, root_ptr t = p /\ shape_at s t /\ d = depth_spec t
            /\ (height t < fuel)%nat /\ d <= INT_MAX /\ s' = s.
Proof. intros H. by apply Tree_DepthGet_Done_shape. Qed.

Lemma shape_at_descends s t a b :
  shape_at s t -> root_ptr t = Some a -> descends s a b ->
  exists t', shape_at s t' /\ root_ptr t' = Some b /\ (height t' < height t)%nat.
Proof.
  intros Hs Hr Hd. revert t Hs Hr.
  induction Hd as [a b (n & Hn & Hc)|a b c (n & Hn & Hc) _ IH]; intros t Hs Hr;
    (destruct t as [|a' l r]; [discriminate|]); simpl in Hr; injection Hr as ->;
    simpl in Hs; rewrite Hn in Hs; destruct Hs as (Hl & Hr & Hsl & Hsr).
  - destruct Hc as [Hc|Hc].
    + exists l. simpl. split; [done|]. split; [congruence|lia].
    + exists r. simpl. split; [done|]. split; [congruence|lia].
  - destruct Hc as [Hc|Hc].
    + destruct (IH l Hsl ltac:(congruence)) as (t' & ? & ? & ?).
      exists t'. simpl. split; [done|]. split; [done|lia].
    + destruct (IH r Hsr ltac:(congruence)) as (t' & ? & ? & ?).
      exists t'. simpl. split; [done|]. split; [done|lia].
Qed.

Lemma shape_at_no_cycle s a :
  descends s a a ->
  forall h t, (height t <= h)%nat -> shape_at s t -> root_ptr t = Some a -> False.
Proof.
  intros Hd. induction h as [|h IH]; intros t Hh Hs Hr.
  - destruct t; [discriminate|]. simpl in Hh. lia.
  - destruct (shape_at_descends _ _ _ _ Hs Hr Hd) as (t' & Hs' & Hr' & Hlt).
    apply (IH t'); [lia|done..].
Qed.

Lemma Tree_DepthGet_never_on_cycle s a fuel d s' :
  descends s a a -> Tree_DepthGet fuel (Some a) s ≠ Done (d, s').
Proof.
  intros Hd H. apply Tree_DepthGet_Done_shape in H as (t & Hr & Hs & _).
  by apply (shape_at_no_cycle s a Hd (height t) t).
Qed.

(** X8.  There is no cycle detection: when the queried node can be reached
    from itself through child links, [Tree_DepthGet] completes for no call
    budget at all, whatever value and state one might expect back. *)
Theorem Tree_DepthGet_cycle s a fuel d s' :
  descends s a a -> Tree_DepthGet fuel (Some a) s ≠ Done (d, s').
Proof. intros Hd. by apply Tree_DepthGet_never_on_cycle. Qed.

(** X9.  Hanging a childless node [b] into the free slot of the root [a] of a
    tree that does not contain [b] makes the depth of [a] the larger of 2
    and its old depth. *)
Theorem depth_after_append s a l r b nb Mode fuel :
  shape_at s (SNode a l r) -> NoDup (addrs (SNode a l r)) ->
  b ∉ addrs (SNode a l r) ->
  nodes s !! b = Some nb -> tn_left nb = NULL -> tn_right nb = NULL ->
  (Mode = INSERT_POS_LEFT /\ l = SNil) \/ (Mode = INSERT_POS_RIGHT /\ r = SNil) ->
  depth_spec (SNode a l r) <= INT_MAX ->
  (height (SNode a l r) < fuel)%nat -> (2 < fuel)%nat ->
  exists s',
    Tree_NodeAppend (Some a) (Some b) Mode s = Done (ERR_SUCCESS, s')
    /\ Tree_DepthGet fuel (Some a) s'
       = Done (Z.max 2 (depth_spec (SNode a l r)), s').
Proof.
  intros Hs Hnd Hb Hnb Hbl Hbr Hmode Hd Hf Hf2.
  simpl in Hs. destruct (nodes s !! a) as [n|] eqn:Hn; [|done].
  destruct Hs as (Hl & Hr & Hsl & Hsr).
  simpl in Hnd. apply NoDup_cons in Hnd as [Ha _].
  apply not_elem_of_app in Ha as [Hal Har].
  simpl in Hb. apply not_elem_of_cons in Hb as [Hba Hb].
  apply not_elem_of_app in Hb as [Hbl' Hbr'].
  pose proof (depth_spec_height l) as Hdl. pose proof (depth_spec_height r) as Hdr.
  simpl in Hd, Hf.
  set (n1 := if Mode =? INSERT_POS_LEFT then with_left (Some b) n
             else with_right (Some b) n).
  set (s' := put_node b (with_parent (Some a) nb) (put_node a n1 s)).
  assert (Tree_NodeAppend (Some a) (Some b) Mode s = Done (ERR_SUCCESS, s')) as Happ.
  { unfold s', n1. destruct Hmode as [[-> ->]|[-> ->]]; simpl.
    - rewrite (Tree_NodeAppend_left_free _ _ _ _ Hn Hl).
      by rewrite (set_field_live with_parent b (Some a) _ nb)
        by (by rewrite lookup_put_node_ne by congruence).
    - rewrite (Tree_NodeAppend_right_free _ _ _ _ Hn Hr).
      by rewrite (set_field_live with_parent b (Some a) _ nb)
        by (by rewrite lookup_put_node_ne by congruence). }
  assert (forall x, x ≠ a -> x ≠ b -> nodes s' !! x = nodes s !! x) as Hkeep.
  { intros x Hxa Hxb. unfold s'. by rewrite !lookup_put_node_ne. }
  assert (nodes s' !! a = Some n1) as Ha'.
  { unfold s'. rewrite lookup_put_node_ne by congruence. apply lookup_put_node_eq. }
  assert (nodes s' !! b = Some (with_parent (Some a) nb)) as Hb'
    by apply lookup_put_node_eq.
  clearbody s'. exists s'. split; [done|]. clear Happ.
  assert (shape_at s' (SNode b SNil SNil)) as Hsb.
  { simpl. rewrite Hb'. simpl. by rewrite Hbl, Hbr. }
  destruct Hmode as [[-> ->]|[-> ->]].
  - assert (shape_at s' (SNode a (SNode b SNil SNil) r)) as Hs'.
    { simpl in Hsb |- *. rewrite Ha'. rewrite Hb' in Hsb |- *.
      repeat split; try done; try apply Hsb.
      apply (shape_at_agree s); [|done]. intros x Hx. apply Hkeep; congruence. }
    rewrite (Tree_DepthGet_shape s' _ Hs');
      [|cbn [depth_spec] in *; unfold INT_MAX in *; lia|cbn [height] in *; lia].
    do 2 f_equal. cbn [depth_spec] in *. lia.
  - assert (shape_at s' (SNode a l (SNode b SNil SNil))) as Hs'.
    { simpl in Hsb |- *. rewrite Ha'. rewrite Hb' in Hsb |- *.
      repeat split; try done; try apply Hsb.
      apply (shape_at_agree s); [|done]. intros x Hx. apply Hkeep; congruence. }
    rewrite (Tree_DepthGet_shape s' _ Hs');
      [|cbn [depth_spec] in *; unfold INT_MAX in *; lia|cbn [height] in *; lia].
    do 2 f_equal. cbn [depth_spec] in *. lia.
Qed.

(** ** Traversal with an arbitrary visitor *)

Section Visitor.
Context {W : Type} (f : TreeCallBackFun_t W) (Ctx : ptr).
Hypothesis f_keeps_memory : forall c d w, (f c d w).2.1 = w.1.

Lemma visit_all_memory ds w : (visit_all f Ctx ds w).1 = w.1.
Proof.
  revert w. induction ds as [|d ds IH]; intros w; simpl; [done|].
  unfold visit_all in *. simpl. by rewrite IH, f_keeps_memory.
Qed.

Lemma visit_all_app ds1 ds2 w :
  visit_all f Ctx (ds1 ++ ds2) w = visit_all f Ctx ds2 (visit_all f Ctx ds1 w).
Proof. unfold visit_all. apply foldl_app. Qed.

Lemma call_visitor_any a n w :
  nodes w.1 !! a = Some n ->
  call_visitor f Ctx a w = Done (visit_all f Ctx [tn_data n] w).
Proof. intros H. unfold call_visitor. by rewrite (get_node_live _ _ _ H). Qed.

Lemma left_of_any a n (w : state * W) :
  nodes w.1 !! a = Some n -> left_of a w = Done (tn_left n).
Proof. intros H. unfold left_of. by rewrite (get_node_live _ _ _ H). Qed.

Lemma right_of_any a n (w : state * W) :
  nodes w.1 !! a = Some n -> right_of a w = Done (tn_right n).
Proof. intros H. unfold right_of. by rewrite (get_node_live _ _ _ H). Qed.

Lemma Tree_TravesePreOrder_any t :
  forall fuel w, shape_at w.1 t -> (height t < fuel)%nat ->
  Tree_TravesePreOrder fuel (root_ptr t) (Some f) Ctx w
  = Done (visit_code t, visit_all f Ctx (preorder w.1 t) w).
Proof.
  induction t as [|a l IHl r IHr]; intros fuel w Hs Hf;
    (destruct fuel as [|fuel]; [simpl in Hf; lia|]); [done|].
  cbn [root_ptr Tree_TravesePreOrder shape_at height preorder visit_code] in *.
  destruct (nodes w.1 !! a) as [n|] eqn:Hn; [|done].
  destruct Hs as (Hl & Hr & Hsl & Hsr).
  rewrite (call_visitor_any _ _ _ Hn), bind_Done.
  set (w1 := visit_all f Ctx [tn_data n] w).
  assert (w1.1 = w.1) as E1 by apply visit_all_memory.
  rewrite (left_of_any a n w1), bind_Done, Hl by (by rewrite E1).
  rewrite (IHl fuel w1) by (rewrite ?E1; first [done|lia]).
  rewrite bind_Done. cbv beta iota.
  set (w2 := visit_all f Ctx (preorder w1.1 l) w1).
  assert (w2.1 = w.1) as E2 by (unfold w2; by rewrite visit_all_memory).
  rewrite (right_of_any a n w2), bind_Done, Hr by (by rewrite E2).
  rewrite (IHr fuel w2) by (rewrite ?E2; first [done|lia]).
  rewrite bind_Done. cbv beta iota. do 2 f_equal.
  rewrite E2. unfold w2. rewrite E1. unfold w1, payload. rewrite Hn.
  change (tn_data n :: preorder w.1 l ++ preorder w.1 r)
    with ([tn_data n] ++ preorder w.1 l ++ preorder w.1 r).
  by rewrite !visit_all_app.
Qed.

Lemma Tree_TraveseInOrder_any t :
  forall fuel w, shape_at w.1 t -> (height t < fuel)%nat ->
  Tree_TraveseInOrder fuel (root_ptr t) (Some f) Ctx w
  = Done (visit_code t, visit_all f Ctx (inorder w.1 t) w).
Proof.
  induction t as [|a l IHl r IHr]; intros fuel w Hs Hf;
    (destruct fuel as [|fuel]; [simpl in Hf; lia|]); [done|].
  cbn [root_ptr Tree_TraveseInOrder shape_at height inorder visit_code] in *.
  destruct (nodes w.1 !! a) as [n|] eqn:Hn; [|done].
  destruct Hs as (Hl & Hr & Hsl & Hsr).
  rewrite (left_of_any a n w), bind_Done, Hl by done.
  rewrite (IHl fuel w) by first [done|lia].
  rewrite bind_Done. cbv beta iota.
  set (w1 := visit_all f Ctx (inorder w.1 l) w).
  assert (w1.1 = w.1) as E1 by apply visit_all_memory.
  rewrite (call_visitor_any a n w1), bind_Done by (by rewrite E1).
  set (w2 := visit_all f Ctx [tn_data n] w1).
  assert (w2.1 = w.1) as E2 by (unfold w2; by rewrite visit_all_memory).
  rewrite (right_of_any a n w2), bind_Done, Hr by (by rewrite E2).
  rewrite (IHr fuel w2) by (rewrite ?E2; first [done|lia]).
  rewrite bind_Done. cbv beta iota. do 2 f_equal.
  rewrite E2. unfold w2, w1, payload. rewrite Hn.
  change (inorder w.1 l ++ tn_data n :: inorder w.1 r)
    with (inorder w.1 l ++ [tn_data n] ++ inorder w.1 r).
  by rewrite !visit_all_app.
Qed.

Lemma Tree_TravesePostOrder_any t :
  forall fuel w, shape_at w.1 t -> (height t < fuel)%nat ->
  Tree_TravesePostOrder fuel (root_ptr t) (Some f) Ctx w
  = Done (visit_code t, visit_all f Ctx (postorder w.1 t) w).
Proof.
  induction t as [|a l IHl r IHr]; intros fuel w Hs Hf;
    (destruct fuel as [|fuel]; [simpl in Hf; lia|]); [done|].
  cbn [root_ptr Tree_TravesePostOrder shape_at height postorder visit_code] in *.
  destruct (nodes w.1 !! a) as [n|] eqn:Hn; [|done].
  destruct Hs as (Hl & Hr & Hsl & Hsr).
  rewrite (left_of_any a n w), bind_Done, Hl by done.
  rewrite (IHl fuel w) by first [done|lia].
  rewrite bind_Done. cbv beta iota.
  set (w1 := visit_all f Ctx (postorder w.1 l) w).
  assert (w1.1 = w.1) as E1 by apply visit_all_memory.
  rewrite (right_of_any a n w1), bind_Done, Hr by (by rewrite E1).
  rewrite (IHr fuel w1) by (rewrite ?E1; first [done|lia]).
  rewrite bind_Done. cbv beta iota.
  set (w2 := visit_all f Ctx (postorder w1.1 r) w1).
  assert (w2.1 = w.1) as E2 by (unfold w2; by rewrite visit_all_memory).
  rewrite (call_visitor_any a n w2), bind_Done by (by rewrite E2).
  do 2 f_equal.
  unfold w2. rewrite E1. unfold w1, payload. rewrite Hn.
  by rewrite !visit_all_app.
Qed.

(** X10.  For any visitor that leaves memory alone, each traversal of a finite
    tree applies the visitor to every payload once, in its order, threading
    the visitor's world from call to call; the [int] the visitor returns is
    never looked at, so a failing visitor does not stop the walk, and the
    traversal answers [ERR_SUCCESS] on a present root. *)
Theorem traverse_any_visitor t fuel w :
  shape_at w.1 t -> (height t < fuel)%nat ->
  Tree_TravesePreOrder fuel (root_ptr t) (Some f) Ctx w
    = Done (visit_code t, visit_all f Ctx (preorder w.1 t) w)
  /\ Tree_TraveseInOrder fuel (root_ptr t) (Some f) Ctx w
    = Done (visit_code t, visit_all f Ctx (inorder w.1 t) w)
  /\ Tree_TravesePostOrder fuel (root_ptr t) (Some f) Ctx w
    = Done (visit_code t, visit_all f Ctx (postorder w.1 t) w).
Proof.
  intros Hs Hf. split; [|split].
  - by apply Tree_TravesePreOrder_any.
  - by apply Tree_TraveseInOrder_any.
  - by apply Tree_TravesePostOrder_any.
Qed.
End Visitor.

(** ** Subtree deletion on an arbitrary state *)

Lemma field_fades_refl v : field_fades v v.
Proof. by left. Qed.

Lemma field_fades_NULL v : field_fades v NULL.
Proof. by right. Qed.

Lemma field_fades_trans v1 v2 v3 :
  field_fades v1 v2 -> field_fades v2 v3 -> field_fades v1 v3.
Proof. unfold field_fades. intros [->| ->] [->| ->]; auto. Qed.

Lemma node_fades_refl n : node_fades n n.
Proof. repeat split; apply field_fades_refl. Qed.

Lemma node_fades_empty n : node_fades n empty_node.
Proof. repeat split; apply field_fades_NULL. Qed.

Lemma node_fades_trans n1 n2 n3 :
  node_fades n1 n2 -> node_fades n2 n3 -> node_fades n1 n3.
Proof.
  intros (? & ? & ? & ?) (? & ? & ? & ?).
  repeat split; eapply field_fades_trans; eauto.
Qed.

Lemma node_fades_unlink a n : node_fades n (unlink_from a n).
Proof.
  unfold unlink_from. repeat split; simpl; try apply field_fades_refl;
    destruct (bool_decide _); first [apply field_fades_refl|apply field_fades_NULL].
Qed.

Lemma node_fades_clear_place pl b n : node_fades n (clear_place pl b n).
Proof.
  unfold clear_place. destruct pl as [x|q|q]; [apply node_fades_refl|..];
    (destruct (bool_decide _); [|apply node_fades_refl]);
    repeat split; simpl;
    first [apply field_fades_refl|apply field_fades_NULL].
Qed.

Lemma clear_place_empty pl b : clear_place pl b empty_node = empty_node.
Proof.
  unfold clear_place. destruct pl as [x|q|q]; [done|..];
    by destruct (bool_decide _).
Qed.

Lemma no_new_links_refl s : no_new_links s s.
Proof.
  split.
  - intros b n Hb. exists n. split; [done|apply node_fades_refl].
  - intros x v Hx. exists v. split; [done|apply field_fades_refl].
Qed.

Lemma no_new_links_trans s1 s2 s3 :
  no_new_links s1 s2 -> no_new_links s2 s3 -> no_new_links s1 s3.
Proof.
  intros [Hn12 Hv12] [Hn23 Hv23]. split.
  - intros b n3 Hb. destruct (Hn23 _ _ Hb) as (n2 & Hb2 & Hf2).
    destruct (Hn12 _ _ Hb2) as (n1 & Hb1 & Hf1).
    exists n1. split; [done|]. by apply (node_fades_trans _ n2).
  - intros x v3 Hx. destruct (Hv23 _ _ Hx) as (v2 & Hx2 & Hf2).
    destruct (Hv12 _ _ Hx2) as (v1 & Hx1 & Hf1).
    exists v1. split; [done|]. by apply (field_fades_trans _ v2).
Qed.

Lemma keeps_live_refl s : keeps_live s s.
Proof. by intros b. Qed.

Lemma keeps_live_trans s1 s2 s3 :
  keeps_live s1 s2 -> keeps_live s2 s3 -> keeps_live s1 s3.
Proof. intros H12 H23 b Hb. auto. Qed.

Lemma Tree_NodeDelete_no_new_links a s code s' :
  Tree_NodeDelete (Some a) s = Done (code, s') ->
  no_new_links s s' /\ keeps_live s s'.
Proof.
  intros H. apply Tree_NodeDelete_Done in H as [[_ ->]|[_ H]].
  { split; [apply no_new_links_refl|apply keeps_live_refl]. }
  destruct H as (n & Hn & _ & _ & Hv & Hlk). split; [split|].
  - intros b n' Hb. rewrite Hlk in Hb. destruct (decide (a = b)) as [<-|].
    + injection Hb as <-. exists n. split; [done|apply node_fades_empty].
    + destruct (nodes s !! b) as [nb|]; [|done]. injection Hb as <-.
      exists nb. split; [done|].
      destruct (bool_decide _); [apply node_fades_unlink|apply node_fades_refl].
  - intros x v Hx. rewrite Hv in Hx. exists v.
    split; [done|apply field_fades_refl].
  - intros b [nb Hb]. rewrite Hlk. destruct (decide (a = b)); [done|].
    by rewrite Hb.
Qed.

Lemma store_place_NULL_no_new_links pl s s' :
  store_place pl NULL s = Done s' ->
  no_new_links s s' /\ keeps_live s s' /\ load_place pl s' = Done NULL
  /\ forall b, nodes s' !! b = clear_place pl b <$> nodes s !! b.
Proof.
  intros H. destruct (store_place_Done _ _ _ _ H) as (v & Hld).
  destruct (store_place_NULL_lookup pl s v Hld) as (s1 & E & Hl & Hlk & Hv).
  rewrite H in E. injection E as <-.
  split; [split|split; [|done]].
  - intros b n' Hb. rewrite Hlk in Hb.
    destruct (nodes s !! b) as [nb|]; [|done]. injection Hb as <-.
    exists nb. split; [done|apply node_fades_clear_place].
  - intros x v' Hx. rewrite Hv in Hx. destruct pl as [y|q|q];
      try (exists v'; split; [done|apply field_fades_refl]).
    rewrite lookup_insert in Hx. destruct (decide (y = x)) as [<-|].
    + injection Hx as <-. apply load_place_Done in Hld.
      exists v. split; [done|apply field_fades_NULL].
    + exists v'. split; [done|apply field_fades_refl].
  - intros b [nb Hb]. by rewrite Hlk, Hb.
Qed.

(** X11.  Whatever the links look like, a completed [Tree_SubTreeDelete_Static]
    allocates and releases nothing and writes no pointer except [NULL]; on
    an absent reference it answers [ERR_FAILURE] and changes nothing; on a
    present one it answers [ERR_SUCCESS], the node the reference named is
    left as the empty record and the reference reads [NULL]. *)
Theorem Tree_SubTreeDelete_Static_any fuel :
  forall pl s code s',
  Tree_SubTreeDelete_Static fuel (Some pl) s = Done (code, s') ->
  no_new_links s s' /\ keeps_live s s'
  /\ ((load_place pl s = Done NULL /\ code = ERR_FAILURE /\ s' = s)
      \/ (exists a, load_place pl s = Done (Some a) /\ code = ERR_SUCCESS
                    /\ nodes s' !! a = Some empty_node
                    /\ load_place pl s' = Done NULL)).
Proof.
  induction fuel as [|fuel IH]; intros pl s code s' H; simpl in H;
    [discriminate|].
  destruct (load_place pl s) as [v| |] eqn:Hld; try discriminate.
  rewrite bind_Done in H. destruct v as [a|].
  2:{ injection H as <- <-.
      split; [apply no_new_links_refl|]. split; [apply keeps_live_refl|auto]. }
  destruct (Tree_SubTreeDelete_Static fuel (Some (PLeft a)) s)
    as [[c1 s1]| |] eqn:E1; try discriminate.
  rewrite bind_Done in H. cbv beta iota in H.
  destruct (IH _ _ _ _ E1) as (Hn1 & Hk1 & Hc1).
  destruct (Tree_SubTreeDelete_Static fuel (Some (PRight a)) s1)
    as [[c2 s2]| |] eqn:E2; try discriminate.
  rewrite bind_Done in H. cbv beta iota in H.
  destruct (IH _ _ _ _ E2) as (Hn2 & Hk2 & Hc2).
  destruct (Tree_NodeDelete (Some a) s2) as [[c3 s3]| |] eqn:E3;
    try discriminate.
  rewrite bind_Done in H. cbv beta iota in H.
  destruct (store_place pl NULL s3) as [s4| |] eqn:E4; try discriminate.
  rewrite bind_Done in H. injection H as <- <-.
  (* both child slots are empty when the node is deleted *)
  assert (load_place (PLeft a) s1 = Done NULL) as Hl1.
  { destruct Hc1 as [(Hl & _ & ->)|(c & _ & _ & _ & Hl)]; done. }
  assert (load_place (PRight a) s2 = Done NULL) as Hr2.
  { destruct Hc2 as [(Hl & _ & ->)|(c & _ & _ & _ & Hl)]; done. }
  apply load_place_Done in Hl1 as (n1 & Ha1 & Hnl1).
  apply load_place_Done in Hr2 as (n2 & Ha2 & Hnr2).
  assert (tn_left n2 = NULL) as Hnl2.
  { destruct Hn2 as [Hn2 _]. destruct (Hn2 _ _ Ha2) as (n1' & Ha1' & _ & Hf & _).
    rewrite Ha1 in Ha1'. injection Ha1' as <-. destruct Hf; congruence. }
  destruct (Tree_NodeDelete_no_new_links _ _ _ _ E3) as [Hn3 Hk3].
  assert (nodes s3 !! a = Some empty_node) as Ha3.
  { pose proof E3 as E3'.
    rewrite (Tree_NodeDelete_leaf _ _ _ Ha2 Hnl2 Hnr2) in E3'.
    apply Tree_NodeDelete_Done in E3 as [[-> _]|[_ (n & _ & _ & _ & _ & Hlk)]].
    - destruct (deleted a n2 s2); discriminate.
    - rewrite Hlk. by rewrite decide_True. }
  destruct (store_place_NULL_no_new_links _ _ _ E4) as (Hn4 & Hk4 & Hl4 & Hlk4).
  split; [|split].
  - eapply no_new_links_trans; [|exact Hn4].
    eapply no_new_links_trans; [|exact Hn3].
    eapply no_new_links_trans; [exact Hn1|exact Hn2].
  - eapply keeps_live_trans; [|exact Hk4].
    eapply keeps_live_trans; [|exact Hk3].
    eapply keeps_live_trans; [exact Hk1|exact Hk2].
  - right. exists a. repeat split; try done.
    rewrite Hlk4, Ha3. simpl. by rewrite clear_place_empty.
Qed.

(** ** Dynamic storage: create and destroy *)

#[local] Arguments free : simpl never.
#[local] Arguments malloc : simpl never.
#[local] Arguments Tree_NodeDestory : simpl never.
#[local] Arguments Tree_NodeCreate : simpl never.

Lemma Tree_NodeCreate_block a junk s :
  nodes s !! a = None ->
  Tree_NodeCreate (Some (a, junk)) s = Done (Some a, put_node a empty_node s).
Proof.
  intros H. unfold Tree_NodeCreate, malloc. rewrite H, bind_Done. cbv beta iota.
  rewrite (Tree_NodeInit_live a junk) by apply lookup_put_node_eq.
  by rewrite bind_Done, put_node_put_node.
Qed.

Lemma Tree_NodeCreate_Done answer s p s' :
  Tree_NodeCreate answer s = Done (p, s') ->
  (answer = None /\ p = NULL /\ s' = s)
  \/ (exists a junk, answer = Some (a, junk) /\ nodes s !! a = None
        /\ p = Some a /\ s' = put_node a empty_node s).
Proof.
  destruct answer as [[a junk]|].
  - destruct (nodes s !! a) as [n|] eqn:Ha.
    + unfold Tree_NodeCreate, malloc. rewrite Ha. discriminate.
    + rewrite (Tree_NodeCreate_block _ _ _ Ha). intros [= <- <-]. right.
      exists a, junk. auto.
  - intros [= <- <-]. by left.
Qed.

(** X12.  A completed [Tree_NodeCreate] either reports that the allocator had no
    memory, returning [NULL] and the state untouched, or returns the address
    of the new block, which now holds the empty record whatever the block
    contained, every other node and every variable being as before. *)
Theorem Tree_NodeCreate_spec answer s p s' :
  Tree_NodeCreate answer s = Done (p, s') ->
  (answer = None /\ p = NULL /\ s' = s)
  \/ (exists a junk, answer = Some (a, junk) /\ nodes s !! a = None
        /\ p = Some a /\ nodes s' !! a = Some empty_node
        /\ (forall b, b ≠ a -> nodes s' !! b = nodes s !! b)
        /\ vars s' = vars s).
Proof.
  intros H. apply Tree_NodeCreate_Done in H
    as [?|(a & junk & -> & Ha & -> & ->)]; [by left|]. right.
  exists a, junk. repeat split; try done.
  - apply lookup_put_node_eq.
  - intros b Hb. by rewrite lookup_put_node_ne.
Qed.

Lemma free_live a n s :
  nodes s !! a = Some n ->
  free (Some a) s = Done (mkState (delete a (nodes s)) (vars s)).
Proof. intros H. unfold free. by rewrite H. Qed.

(** [Tree_NodeDestory] through a live cell holding a leaf whose parent
    pointer, when present, names a live node. *)
Lemma Tree_NodeDestory_leaf_lookup pl a n s :
  load_place pl s = Done (Some a) ->
  nodes s !! a = Some n -> tn_left n = NULL -> tn_right n = NULL ->
  (forall p, tn_parent n = Some p -> is_Some (nodes s !! p)) ->
  exists s',
    Tree_NodeDestory (Some pl) s = Done (ERR_SUCCESS, s')
    /\ nodes s' !! a = None
    /\ load_place pl s' = Done NULL
    /\ (forall b, b ≠ a ->
          nodes s' !! b = outside_effect a (tn_parent n) pl b <$> nodes s !! b)
    /\ vars s' = match pl with
                 | PVar x => <[x := NULL]> (vars s)
                 | _ => vars s
                 end.
Proof.
  intros Hld Hn Hl Hr Hpar.
  destruct (Tree_NodeDelete_leaf_lookup _ _ _ Hn Hl Hr Hpar) as (s1 & E1 & Hv1 & Hlk1).
  assert (nodes s1 !! a = Some empty_node) as Ha1
    by (by rewrite Hlk1, decide_True).
  set (s2 := mkState (delete a (nodes s1)) (vars s1)).
  assert (exists v, load_place pl s2 = Done v) as (v2 & Hld2).
  { pose proof (load_place_Done _ _ _ Hld) as Hpl. unfold load_place.
    destruct pl as [x|q|q].
    - simpl. rewrite Hv1, Hpl. eauto.
    - destruct Hpl as (nq & Hq & Hqa).
      assert (q ≠ a) as Hqa' by (intros ->; congruence).
      assert (is_Some (nodes s2 !! q)) as [nq2 Hq2].
      { simpl. rewrite lookup_delete_ne, Hlk1, decide_False, Hq by done. done. }
      rewrite (get_node_live _ _ _ Hq2). eauto.
    - destruct Hpl as (nq & Hq & Hqa).
      assert (q ≠ a) as Hqa' by (intros ->; congruence).
      assert (is_Some (nodes s2 !! q)) as [nq2 Hq2].
      { simpl. rewrite lookup_delete_ne, Hlk1, decide_False, Hq by done. done. }
      rewrite (get_node_live _ _ _ Hq2). eauto. }
  destruct (store_place_NULL_lookup pl s2 _ Hld2) as (s3 & E3 & Hld3 & Hlk3 & Hv3).
  exists s3. split; [|split; [|split; [done|split]]].
  - unfold Tree_NodeDestory. rewrite Hld, bind_Done, E1, bind_Done.
    cbv beta iota. simpl negb. cbv iota.
    rewrite (free_live _ _ _ Ha1), bind_Done. fold s2.
    by rewrite E3.
  - rewrite Hlk3. simpl. by rewrite lookup_delete_eq.
  - intros b Hb. rewrite Hlk3. simpl.
    rewrite lookup_delete_ne, Hlk1, decide_False by done.
    unfold outside_effect. by destruct (nodes s !! b).
  - rewrite Hv3. simpl. by rewrite Hv1.
Qed.

(** X13.  Destroying a leaf through a reference releases it: given a live
    reference that holds a leaf whose parent pointer, if any, names a live
    node, [Tree_NodeDestory] answers [ERR_SUCCESS], the node is no longer
    live, the reference reads [NULL], the parent's slots that named the node
    are cleared, and every other node is unchanged. *)
Theorem Tree_NodeDestory_leaf pl a n s :
  load_place pl s = Done (Some a) ->
  nodes s !! a = Some n -> tn_left n = NULL -> tn_right n = NULL ->
  (forall p, tn_parent n = Some p -> is_Some (nodes s !! p)) ->
  exists s',
    Tree_NodeDestory (Some pl) s = Done (ERR_SUCCESS, s')
    /\ nodes s' !! a = None
    /\ load_place pl s' = Done NULL
    /\ (forall b, b ≠ a ->
          nodes s' !! b = outside_effect a (tn_parent n) pl b <$> nodes s !! b).
Proof.
  intros Hld Hn Hl Hr Hpar.
  destruct (Tree_NodeDestory_leaf_lookup pl a n s) as (s' & ? & ? & ? & ? & ?);
    try done.
  exists s'. auto.
Qed.

(** X14.  Create, keep the result in a variable, destroy through that variable:
    every step succeeds and memory is back in the state it started from. *)
Theorem create_destroy_roundtrip a junk x s :
  nodes s !! a = None -> vars s !! x = Some NULL ->
  exists s1 s2,
    Tree_NodeCreate (Some (a, junk)) s = Done (Some a, s1)
    /\ store_place (PVar x) (Some a) s1 = Done s2
    /\ Tree_NodeDestory (Some (PVar x)) s2 = Done (ERR_SUCCESS, s).
Proof.
  intros Ha Hx. destruct s as [m v]. simpl in *.
  exists (mkState (<[a := empty_node]> m) v),
         (mkState (<[a := empty_node]> m) (<[x := Some a]> v)).
  split; [|split].
  - by rewrite (Tree_NodeCreate_block a junk (mkState m v) Ha).
  - unfold store_place. simpl. by rewrite Hx.
  - set (s2 := mkState (<[a := empty_node]> m) (<[x := Some a]> v)).
    assert (nodes s2 !! a = Some empty_node) as Ha2 by apply lookup_insert_eq.
    unfold Tree_NodeDestory, load_place. simpl.
    rewrite lookup_insert_eq, bind_Done.
    rewrite (Tree_NodeDelete_leaf _ _ _ Ha2 eq_refl eq_refl). unfold deleted.
    simpl. rewrite (put_node_id _ _ _ Ha2).
    rewrite (free_live _ _ _ Ha2), bind_Done. unfold store_place. simpl.
    rewrite lookup_insert_eq, bind_Done. do 2 f_equal. f_equal.
    + by rewrite delete_insert_id.
    + rewrite insert_insert_eq. by apply insert_id.
Qed.

(** ** Dynamic subtree deletion *)

(** What the recursive call on [&pNode->left] leaves behind. *)
Lemma subtree_freed_left c a n s s' :
  nodes s !! a = Some n -> tn_left n = root_ptr c ->
  (forall c0, root_ptr c = Some c0 -> tn_right n ≠ Some c0) ->
  a ∉ addrs c ->
  subtree_freed c (Some a) (PLeft a) s s' ->
  nodes s' !! a = Some (with_left NULL n)
  /\ (forall b, b ∈ addrs c -> nodes s' !! b = None)
  /\ (forall b, b ∉ addrs c -> b ≠ a -> nodes s' !! b = nodes s !! b)
  /\ vars s' = vars s.
Proof.
  intros Hn Hl Hr Ha. destruct c as [|c0 cl cr]; simpl.
  - intros ->. split; [|split; [|done]].
    + rewrite Hn. destruct n; simpl in *. by subst.
    + intros b Hb. by apply elem_of_nil in Hb.
  - intros (Hin & _ & Hout & Hv). split; [|split; [done|split; [|done]]].
    + rewrite (Hout a Ha), Hn. simpl. f_equal.
      unfold outside_effect, clear_place, unlink_from.
      rewrite !bool_decide_eq_true_2 by done.
      rewrite (bool_decide_eq_false_2 (tn_right n = Some c0)) by (by apply Hr).
      reflexivity.
    + intros b Hb Hne. rewrite (Hout b Hb).
      unfold outside_effect, clear_place.
      rewrite !bool_decide_eq_false_2 by congruence.
      by destruct (nodes s !! b).
Qed.

(** What the recursive call on [&pNode->right] leaves behind. *)
Lemma subtree_freed_right c a n s s' :
  nodes s !! a = Some n -> tn_right n = root_ptr c ->
  (forall c0, root_ptr c = Some c0 -> tn_left n ≠ Some c0) ->
  a ∉ addrs c ->
  subtree_freed c (Some a) (PRight a) s s' ->
  nodes s' !! a = Some (with_right NULL n)
  /\ (forall b, b ∈ addrs c -> nodes s' !! b = None)
  /\ (forall b, b ∉ addrs c -> b ≠ a -> nodes s' !! b = nodes s !! b)
  /\ vars s' = vars s.
Proof.
  intros Hn Hr Hl Ha. destruct c as [|c0 cl cr]; simpl.
  - intros ->. split; [|split; [|done]].
    + rewrite Hn. destruct n; simpl in *. by subst.
    + intros b Hb. by apply elem_of_nil in Hb.
  - intros (Hin & _ & Hout & Hv). split; [|split; [done|split; [|done]]].
    + rewrite (Hout a Ha), Hn. simpl. f_equal.
      unfold outside_effect, clear_place, unlink_from.
      rewrite !bool_decide_eq_true_2 by done.
      rewrite (bool_decide_eq_false_2 (tn_left n = Some c0)) by (by apply Hl).
      reflexivity.
    + intros b Hb Hne. rewrite (Hout b Hb).
      unfold outside_effect, clear_place.
      rewrite !bool_decide_eq_false_2 by congruence.
      by destruct (nodes s !! b).
Qed.

Lemma load_place_agree pl s s' :
  (forall q, (pl = PLeft q \/ pl = PRight q) -> nodes s' !! q = nodes s !! q) ->
  vars s' = vars s ->
  load_place pl s' = load_place pl s.
Proof.
  intros Hq Hv. unfold load_place, get_node. destruct pl as [x|q|q].
  - by rewrite Hv.
  - by rewrite (Hq q) by auto.
  - by rewrite (Hq q) by auto.
Qed.

Lemma Tree_SubTreeDelete_Dynamic_effect t :
  forall s par pl fuel,
  linked_at s par t -> NoDup (addrs t) ->
  (forall p, par = Some p -> (p ∉ addrs t) /\ is_Some (nodes s !! p)) ->
  load_place pl s = Done (root_ptr t) -> place_outside pl t ->
  (height t < fuel)%nat ->
  exists s',
    Tree_SubTreeDelete_Dynamic fuel (Some pl) s
      = Done (match t with SNil => ERR_FAILURE | _ => ERR_SUCCESS end, s')
    /\ subtree_freed t par pl s s'.
Proof.
  induction t as [|a l IHl r IHr]; intros s par pl fuel Hlk Hnd Hpar Hld Hout Hf;
    (destruct fuel as [|fuel]; [simpl in Hf; lia|]);
    simpl Tree_SubTreeDelete_Dynamic; rewrite Hld, bind_Done.
  { eexists. split; reflexivity. }
  simpl root_ptr. cbv iota.
  simpl in Hlk. destruct (nodes s !! a) as [n|] eqn:Hn; [|done].
  destruct Hlk as (Hp & Hl & Hr & Hll & Hlr).
  simpl in Hnd. apply NoDup_cons in Hnd as [Ha Hnd].
  apply NoDup_app in Hnd as (Hndl & Hdisj & Hndr).
  pose proof Ha as Ha0.
  apply not_elem_of_app in Ha as [Hal Har].
  simpl in Hf.
  (* Tree_SubTreeDelete_Dynamic(&pNode->left) *)
  destruct (IHl s (Some a) (PLeft a) fuel Hll Hndl) as (s1 & E1 & D1).
  { intros p [= <-]. split; [done|by eexists]. }
  { by rewrite (load_place_left _ _ _ Hn), Hl. }
  { done. }
  { lia. }
  rewrite E1, bind_Done. cbv beta iota.
  destruct (subtree_freed_left l a n s s1 Hn Hl) as (Ha1 & Hin1 & Hout1 & Hv1);
    [|done|done|].
  { intros c0 Hc0. rewrite Hr. intros Hc0'.
    apply (Hdisj c0); by apply root_ptr_addrs. }
  (* Tree_SubTreeDelete_Dynamic(&pNode->right) *)
  destruct (IHr s1 (Some a) (PRight a) fuel) as (s2 & E2 & D2).
  { apply (linked_at_agree s); [|done]. intros b Hb. apply Hout1; [|congruence].
    intros Hb'. by apply (Hdisj b). }
  { done. }
  { intros p [= <-]. split; [done|by eexists]. }
  { rewrite (load_place_right _ _ _ Ha1). simpl. by rewrite Hr. }
  { done. }
  { lia. }
  rewrite E2, bind_Done. cbv beta iota.
  destruct (subtree_freed_right r a _ s1 s2 Ha1 Hr) as (Ha2 & Hin2 & Hout2 & Hv2);
    [done|done|done|].
  assert (forall b, b ∉ addrs l -> b ∉ addrs r -> b ≠ a ->
            nodes s2 !! b = nodes s !! b) as Hfr.
  { intros b Hbl Hbr Hba. by rewrite Hout2, Hout1. }
  (* Tree_NodeDestory(ppNode) *)
  assert (load_place pl s2 = Done (Some a)) as Hld2.
  { transitivity (load_place pl s); [|exact Hld].
    apply load_place_agree; [|congruence].
    intros q Hq. assert (q ∉ a :: addrs l ++ addrs r) as Hqo
      by (destruct Hq as [->| ->]; exact Hout).
    apply not_elem_of_cons in Hqo as [Hqa Hqo].
    apply not_elem_of_app in Hqo as [Hql Hqr]. by apply Hfr. }
  destruct (Tree_NodeDestory_leaf_lookup pl a _ s2 Hld2 Ha2 eq_refl eq_refl)
    as (s3 & E3 & Ha3 & Hld3 & Hlk3 & Hv3).
  { simpl. rewrite Hp. intros p Hpp. destruct (Hpar p Hpp) as [Hpo Hpl].
    simpl in Hpo. apply not_elem_of_cons in Hpo as [Hpa Hpo].
    apply not_elem_of_app in Hpo as [Hpol Hpor]. by rewrite Hfr. }
  rewrite E3, bind_Done. cbv beta iota.
  simpl tn_parent in Hlk3. rewrite Hp in Hlk3.
  eexists. split; [reflexivity|].
  split; [|split; [done|split]].
  - intros b Hb. destruct (decide (b = a)) as [->|Hba]; [done|].
    rewrite Hlk3 by done.
    assert (nodes s2 !! b = None) as ->; [|done].
    simpl in Hb. apply elem_of_cons in Hb as [->|Hb]; [done|].
    apply elem_of_app in Hb as [Hb|Hb].
    + rewrite Hout2, (Hin1 b Hb); [done| |done].
      intros Hbr. by apply (Hdisj b).
    + by apply Hin2.
  - intros b Hb. simpl in Hb.
    apply not_elem_of_cons in Hb as [Hba Hb].
    apply not_elem_of_app in Hb as [Hbl Hbr].
    rewrite Hlk3 by done. by rewrite Hfr.
  - rewrite Hv3, Hv2, Hv1. reflexivity.
Qed.

(** X15.  On a finite, sharing-free, consistently parent-linked subtree whose
    reference cell and root parent lie outside it,
    [Tree_SubTreeDelete_Dynamic] (called with a budget above the height)
    answers [ERR_SUCCESS], releases every node of the subtree, leaves
    [NULL] in the reference, and changes a node outside the subtree only
    where it pointed at the root. *)
Theorem Tree_SubTreeDelete_Dynamic_spec t s par pl fuel :
  t ≠ SNil ->
  linked_at s par t -> NoDup (addrs t) ->
  (forall p, par = Some p -> (p ∉ addrs t) /\ is_Some (nodes s !! p)) ->
  load_place pl s = Done (root_ptr t) -> place_outside pl t ->
  (height t < fuel)%nat ->
  exists s',
    Tree_SubTreeDelete_Dynamic fuel (Some pl) s = Done (ERR_SUCCESS, s')
    /\ (forall b, b ∈ addrs t -> nodes s' !! b = None)
    /\ load_place pl s' = Done NULL
    /\ (forall b a, b ∉ addrs t -> root_ptr t = Some a ->
          nodes s' !! b = outside_effect a par pl b <$> nodes s !! b).
Proof.
  intros Hne Hlk Hnd Hpar Hld Hout Hf.
  destruct (Tree_SubTreeDelete_Dynamic_effect t s par pl fuel) as (s' & E & D);
    try done.
  destruct t as [|a l r]; [done|]. destruct D as (Hin & Hl & Ho & Hv).
  exists s'. repeat split; try done.
  intros b a' Hb [= <-]. by apply Ho.
Qed.

Lemma free_Done a s s' :
  free (Some a) s = Done s' -> s' = mkState (delete a (nodes s)) (vars s).
Proof. unfold free. destruct (nodes s !! a); [|discriminate]. by intros [= <-]. Qed.

Lemma free_no_new_links a s s' :
  free (Some a) s = Done s' -> no_new_links s s' /\ nodes s' !! a = None.
Proof.
  intros ->%free_Done. split; [split|].
  - simpl. intros b n' Hb. apply lookup_delete_Some in Hb as [_ Hb].
    exists n'. split; [done|apply node_fades_refl].
  - simpl. intros x v Hx. exists v. split; [done|apply field_fades_refl].
  - simpl. apply lookup_delete_eq.
Qed.

(** Every completed [Tree_NodeDestory] either refused, changing nothing,
    or deleted, released and cleared in that order. *)
Lemma Tree_NodeDestory_Done pl s code s' :
  Tree_NodeDestory (Some pl) s = Done (code, s') ->
  exists p, load_place pl s = Done p
    /\ ((code = ERR_FAILURE /\ s' = s /\ Tree_NodeDelete p s = Done (ERR_FAILURE, s))
        \/ (code = ERR_SUCCESS /\ exists a s1 s2,
              p = Some a
              /\ Tree_NodeDelete (Some a) s = Done (ERR_SUCCESS, s1)
              /\ free (Some a) s1 = Done s2
              /\ store_place pl NULL s2 = Done s')).
Proof.
  unfold Tree_NodeDestory.
  destruct (load_place pl s) as [p| |]; try discriminate. rewrite bind_Done.
  destruct (Tree_NodeDelete p s) as [[c1 s1]| |] eqn:E1; try discriminate.
  rewrite bind_Done. cbv beta iota. intros H. exists p. split; [done|].
  destruct (Tree_NodeDelete_codes _ _ _ _ E1) as [->|[-> ->]].
  - right. simpl in H.
    destruct (free p s1) as [s2| |] eqn:E2; try discriminate.
    rewrite bind_Done in H.
    destruct (store_place pl NULL s2) as [s3| |] eqn:E3; try discriminate.
    rewrite bind_Done in H. injection H as <- <-.
    destruct p as [a|]; [|discriminate]. split; [done|].
    exists a, s1, s2. auto.
  - left. simpl in H. injection H as <- <-. auto.
Qed.

Lemma load_place_fades pl s s' p' :
  no_new_links s s' -> load_place pl s' = Done p' ->
  exists p, load_place pl s = Done p /\ field_fades p p'.
Proof.
  intros [Hn Hv] H. apply load_place_Done in H. unfold load_place.
  destruct pl as [x|q|q].
  - destruct (Hv _ _ H) as (v & Hx & Hf). rewrite Hx. eauto.
  - destruct H as (n' & Hq & <-). destruct (Hn _ _ Hq) as (n & Hq0 & _ & Hf & _).
    rewrite (get_node_live _ _ _ Hq0). eauto.
  - destruct H as (n' & Hq & <-). destruct (Hn _ _ Hq) as (n & Hq0 & _ & _ & Hf & _).
    rewrite (get_node_live _ _ _ Hq0). eauto.
Qed.

(** X16.  Whatever the links look like, a completed [Tree_SubTreeDelete_Dynamic]
    allocates nothing and writes no pointer except [NULL]; on an absent
    reference it answers [ERR_FAILURE] and changes nothing; on a present one
    it answers [ERR_SUCCESS], and then the node the reference named has
    been released and the reference reads [NULL]: the code dropped from
    [Tree_NodeDestory] was never a failure. *)
Theorem Tree_SubTreeDelete_Dynamic_any fuel :
  forall pl s code s',
  Tree_SubTreeDelete_Dynamic fuel (Some pl) s = Done (code, s') ->
  no_new_links s s'
  /\ ((load_place pl s = Done NULL /\ code = ERR_FAILURE /\ s' = s)
      \/ (exists a, load_place pl s = Done (Some a) /\ code = ERR_SUCCESS
                    /\ nodes s' !! a = None
                    /\ load_place pl s' = Done NULL)).
Proof.
  induction fuel as [|fuel IH]; intros pl s code s' H; simpl in H;
    [discriminate|].
  destruct (load_place pl s) as [v| |] eqn:Hld; try discriminate.
  rewrite bind_Done in H. destruct v as [a|].
  2:{ injection H as <- <-. split; [apply no_new_links_refl|auto]. }
  destruct (Tree_SubTreeDelete_Dynamic fuel (Some (PLeft a)) s)
    as [[c1 s1]| |] eqn:E1; try discriminate.
  rewrite bind_Done in H. cbv beta iota in H.
  destruct (IH _ _ _ _ E1) as (Hn1 & Hc1).
  destruct (Tree_SubTreeDelete_Dynamic fuel (Some (PRight a)) s1)
    as [[c2 s2]| |] eqn:E2; try discriminate.
  rewrite bind_Done in H. cbv beta iota in H.
  destruct (IH _ _ _ _ E2) as (Hn2 & Hc2).
  destruct (Tree_NodeDestory (Some pl) s2) as [[c3 s3]| |] eqn:E3;
    try discriminate.
  rewrite bind_Done in H. injection H as <- <-.
  pose proof (no_new_links_trans _ _ _ Hn1 Hn2) as Hn02.
  (* both child slots are empty when the node is destroyed *)
  assert (load_place (PLeft a) s1 = Done NULL) as Hl1.
  { destruct Hc1 as [(Hl & _ & ->)|(c & _ & _ & _ & Hl)]; done. }
  assert (load_place (PRight a) s2 = Done NULL) as Hr2.
  { destruct Hc2 as [(Hl & _ & ->)|(c & _ & _ & _ & Hl)]; done. }
  apply load_place_Done in Hl1 as (n1 & Ha1 & Hnl1).
  apply load_place_Done in Hr2 as (n2 & Ha2 & Hnr2).
  assert (tn_left n2 = NULL) as Hnl2.
  { destruct Hn2 as [Hn2 _]. destruct (Hn2 _ _ Ha2) as (n1' & Ha1' & _ & Hf & _).
    rewrite Ha1 in Ha1'. injection Ha1' as <-. destruct Hf; congruence. }
  pose proof (Tree_NodeDelete_leaf _ _ _ Ha2 Hnl2 Hnr2) as Hleaf.
  (* the reference still names the node *)
  apply Tree_NodeDestory_Done in E3 as (p & Hld2 & Hcase).
  assert (p = Some a) as ->.
  { destruct (load_place_fades _ _ _ _ Hn02 Hld2) as (p0 & Hld0 & [->| ->]).
    - congruence.
    - destruct Hcase as [(_ & _ & Hd)|(_ & a' & _ & _ & [=] & _)]. discriminate. }
  destruct Hcase as [(_ & _ & Hd)|(-> & a' & s21 & s22 & [= <-] & Hd & Hfree & Hst)].
  { rewrite Hleaf in Hd. destruct (deleted a n2 s2); discriminate. }
  destruct (Tree_NodeDelete_no_new_links _ _ _ _ Hd) as [Hn3 _].
  destruct (free_no_new_links _ _ _ Hfree) as [Hn4 Ha4].
  destruct (store_place_NULL_no_new_links _ _ _ Hst) as (Hn5 & _ & Hl5 & Hlk5).
  split.
  - eapply no_new_links_trans; [|exact Hn5].
    eapply no_new_links_trans; [|exact Hn4].
    eapply no_new_links_trans; [exact Hn02|exact Hn3].
  - right. exists a. repeat split; try done. by rewrite Hlk5, Ha4.
Qed.

(** ** Ownership: children name their holder *)

Lemma initialized_forward_linked s : initialized s -> forward_linked s.
Proof.
  intros Hi a n b Ha Hc. rewrite (Hi _ _ Ha) in Hc. by destruct Hc.
Qed.

(** Clearing child slots while keeping every parent field keeps the
    invariant. *)
Lemma forward_linked_cleared s s' (g : positive -> TreeNode_t -> TreeNode_t) :
  (forall b, nodes s' !! b = g b <$> nodes s !! b) ->
  (forall b n, tn_parent (g b n) = tn_parent n) ->
  (forall b n, field_fades (tn_left n) (tn_left (g b n))
               /\ field_fades (tn_right n) (tn_right (g b n))) ->
  forward_linked s -> forward_linked s'.
Proof.
  intros Hlk Hp Hf Hfl a n' b Ha Hc. rewrite Hlk in Ha.
  destruct (nodes s !! a) as [n|] eqn:Ha0; [|done]. injection Ha as <-.
  destruct (Hf a n) as [Hfl' Hfr'].
  assert (tn_left n = Some b \/ tn_right n = Some b) as Hc0.
  { destruct Hc as [Hc|Hc]; rewrite Hc in *.
    - left. destruct Hfl'; congruence.
    - right. destruct Hfr'; congruence. }
  destruct (Hfl _ _ _ Ha0 Hc0) as (nb & Hb & Hpb).
  exists (g b nb). split; [by rewrite Hlk, Hb|]. by rewrite Hp.
Qed.

Lemma store_place_NULL_forward_linked pl s s' :
  store_place pl NULL s = Done s' -> forward_linked s -> forward_linked s'.
Proof.
  intros H. destruct (store_place_NULL_no_new_links _ _ _ H) as (_ & _ & _ & Hlk).
  apply (forward_linked_cleared s s' (clear_place pl) Hlk).
  - intros b n. apply clear_place_slots.
  - intros b n. destruct (node_fades_clear_place pl b n) as (_ & ? & ? & _). auto.
Qed.

Lemma unlink_from_slot a n b :
  tn_left (unlink_from a n) = Some b \/ tn_right (unlink_from a n) = Some b ->
  (tn_left n = Some b \/ tn_right n = Some b) /\ b ≠ a.
Proof.
  unfold unlink_from. simpl. intros [H|H].
  - destruct (bool_decide (tn_left n = Some a)) eqn:E; [discriminate|].
    apply bool_decide_eq_false_1 in E. split; [auto|congruence].
  - destruct (bool_decide (tn_right n = Some a)) eqn:E; [discriminate|].
    apply bool_decide_eq_false_1 in E. split; [auto|congruence].
Qed.

Lemma Tree_NodeDelete_forward_linked a s code s' :
  Tree_NodeDelete (Some a) s = Done (code, s') ->
  forward_linked s -> forward_linked s'.
Proof.
  intros H Hfl. apply Tree_NodeDelete_Done in H as [[_ ->]|[_ H]]; [done|].
  destruct H as (n0 & Hn0 & Hl0 & Hr0 & _ & Hlk).
  intros x nx' b Hx Hc. rewrite Hlk in Hx.
  destruct (decide (a = x)) as [<-|Hax].
  { injection Hx as <-. by destruct Hc. }
  destruct (nodes s !! x) as [nx|] eqn:Hx0; [|done]. injection Hx as <-.
  assert ((tn_left nx = Some b \/ tn_right nx = Some b)
          /\ (tn_parent n0 = Some x -> b ≠ a)) as [Hc0 Hba].
  { destruct (bool_decide (tn_parent n0 = Some x)) eqn:Ep.
    - destruct (unlink_from_slot _ _ _ Hc) as [Hc0 Hne]. split; [done|]. auto.
    - split; [done|]. intros Hp. apply bool_decide_eq_false_1 in Ep. done. }
  destruct (Hfl _ _ _ Hx0 Hc0) as (nb & Hb & Hpb).
  assert (a ≠ b) as Hab.
  { intros <-. rewrite Hn0 in Hb. injection Hb as <-. by apply Hba. }
  rewrite Hlk, decide_False, Hb by done. simpl. eexists. split; [reflexivity|].
  destruct (bool_decide (tn_parent n0 = Some b)); exact Hpb.
Qed.

Lemma Tree_SubTreeDelete_Static_forward_linked fuel :
  forall pl s code s',
  Tree_SubTreeDelete_Static fuel (Some pl) s = Done (code, s') ->
  forward_linked s -> forward_linked s'.
Proof.
  induction fuel as [|fuel IH]; intros pl s code s' H Hfl; simpl in H;
    [discriminate|].
  destruct (load_place pl s) as [v| |]; try discriminate.
  rewrite bind_Done in H. destruct v as [a|]; [|by injection H as _ <-].
  destruct (Tree_SubTreeDelete_Static fuel (Some (PLeft a)) s)
    as [[c1 s1]| |] eqn:E1; try discriminate.
  rewrite bind_Done in H. cbv beta iota in H.
  destruct (Tree_SubTreeDelete_Static fuel (Some (PRight a)) s1)
    as [[c2 s2]| |] eqn:E2; try discriminate.
  rewrite bind_Done in H. cbv beta iota in H.
  destruct (Tree_NodeDelete (Some a) s2) as [[c3 s3]| |] eqn:E3;
    try discriminate.
  rewrite bind_Done in H. cbv beta iota in H.
  destruct (store_place pl NULL s3) as [s4| |] eqn:E4; try discriminate.
  rewrite bind_Done in H. injection H as _ <-.
  apply (store_place_NULL_forward_linked _ _ _ E4).
  apply (Tree_NodeDelete_forward_linked _ _ _ _ E3).
  apply (IH _ _ _ _ E2). by apply (IH _ _ _ _ E1).
Qed.

Lemma Tree_NodeAppend_forward_linked a b m s code s' :
  Tree_NodeAppend (Some a) (Some b) m s = Done (code, s') ->
  ~ attached s b ->
  forward_linked s -> forward_linked s'.
Proof.
  intros H Hdet Hfl. apply Tree_NodeAppend_Done in H as [->|H]; [done|].
  destruct H as (n & n1 & nb & Hn & Hn1 & Hb & ->).
  assert (tn_parent n1 = tn_parent n) as Hp1
    by (by destruct Hn1 as [[_ ->]|[_ ->]]).
  assert (forall y, tn_left n1 = Some y \/ tn_right n1 = Some y ->
            y = b \/ tn_left n = Some y \/ tn_right n = Some y) as Hs1.
  { intros y. destruct Hn1 as [[_ ->]|[_ ->]]; simpl; intros [Hy|Hy]; auto;
      left; congruence. }
  assert (forall x nx, nodes s !! x = Some nx ->
            tn_left nx = Some b \/ tn_right nx = Some b -> False) as Hnoheld.
  { intros x nx Hx Hc. apply Hdet. right. eauto. }
  assert (forall nb0, nodes s !! b = Some nb0 -> tn_parent nb0 = NULL) as Hnopar.
  { intros nb0 Hb0. destruct (tn_parent nb0) eqn:E; [|done].
    exfalso. apply Hdet. left. exists nb0. split; [done|]. congruence. }
  (* holders in the old state keep their children, and no child is [b] *)
  assert (forall x nx y, nodes s !! x = Some nx ->
            tn_left nx = Some y \/ tn_right nx = Some y ->
            exists ny', nodes (put_node b (with_parent (Some a) nb)
                                 (put_node a n1 s)) !! y = Some ny'
                        /\ tn_parent ny' = Some x) as Hold.
  { intros x nx y Hx Hc.
    assert (y ≠ b) as Hyb by (intros ->; by apply (Hnoheld x nx)).
    destruct (Hfl _ _ _ Hx Hc) as (ny & Hy & Hpy).
    rewrite lookup_put_node_ne, lookup_put_node by done.
    destruct (decide (a = y)) as [<-|]; [|eauto].
    rewrite Hn in Hy. injection Hy as <-. exists n1. split; [done|congruence]. }
  intros x nx' y Hx Hc. rewrite lookup_put_node in Hx.
  destruct (decide (b = x)) as [<-|Hbx].
  - injection Hx as <-. simpl in Hc.
    rewrite lookup_put_node in Hb. destruct (decide (a = b)) as [<-|Hab].
    + injection Hb as <-. destruct (Hs1 y Hc) as [->|Hc0].
      * rewrite lookup_put_node_eq. eexists. split; [reflexivity|done].
      * by apply (Hold a n).
    + by apply (Hold b nb).
  - rewrite lookup_put_node in Hx. destruct (decide (a = x)) as [<-|Hax].
    + injection Hx as <-. destruct (Hs1 y Hc) as [->|Hc0].
      * rewrite lookup_put_node_eq. eexists. split; [reflexivity|done].
      * by apply (Hold a n).
    + by apply (Hold x nx').
Qed.

Lemma Tree_NodeInit_forward_linked a s s' :
  Tree_NodeInit (Some a) s = Done s' ->
  (forall x nx, nodes s !! x = Some nx ->
     tn_left nx = Some a \/ tn_right nx = Some a -> x = a) ->
  forward_linked s -> forward_linked s'.
Proof.
  intros H Hd Hfl. apply Tree_NodeInit_Done in H as (a' & n & [= <-] & Hn & ->).
  intros x nx b Hx Hc. rewrite lookup_put_node in Hx.
  destruct (decide (a = x)) as [<-|Hax]; [injection Hx as <-; by destruct Hc|].
  destruct (Hfl _ _ _ Hx Hc) as (nb & Hb & Hpb).
  exists nb. split; [|done]. rewrite lookup_put_node_ne; [done|].
  intros <-. apply Hax. symmetry. by apply (Hd x nx).
Qed.

Lemma Tree_NodeValueSet_forward_linked p v s code s' :
  Tree_NodeValueSet p v s = Done (code, s') ->
  forward_linked s -> forward_linked s'.
Proof.
  unfold Tree_NodeValueSet. destruct p as [a|]; [|by intros [= _ <-]].
  destruct (nodes s !! a) as [n|] eqn:Hn.
  2:{ unfold set_field, get_node. rewrite Hn. discriminate. }
  rewrite (set_field_live _ _ _ _ _ Hn), bind_Done. intros [= _ <-].
  apply (forward_linked_cleared s _
           (fun b nb => if decide (a = b) then with_data v nb else nb)).
  - intros b. rewrite lookup_put_node. destruct (decide (a = b)) as [<-|].
    + by rewrite Hn.
    + by destruct (nodes s !! b).
  - intros b nb. by destruct (decide (a = b)).
  - intros b nb. destruct (decide (a = b)); split; apply field_fades_refl.
Qed.

Lemma run_call_forward_linked c s s' :
  no_double_attach c s -> no_init_of_child c s -> run_call c s = Done s' ->
  forward_linked s -> forward_linked s'.
Proof.
  destruct c as [p|p v|p q m|p|fuel pp]; simpl; intros Hda Hd H Hfl.
  - destruct p as [a|]; [|discriminate].
    by apply (Tree_NodeInit_forward_linked a s).
  - destruct (Tree_NodeValueSet p v s) as [[code s1]| |] eqn:E; try discriminate.
    injection H as <-. by apply (Tree_NodeValueSet_forward_linked _ _ _ _ _ E).
  - destruct (Tree_NodeAppend p q m s) as [[code s1]| |] eqn:E; try discriminate.
    injection H as <-. destruct p as [a|], q as [b|];
      try (by injection E as _ <-).
    by apply (Tree_NodeAppend_forward_linked _ _ _ _ _ _ E).
  - destruct (Tree_NodeDelete p s) as [[code s1]| |] eqn:E; try discriminate.
    injection H as <-. destruct p as [a|]; [|discriminate].
    by apply (Tree_NodeDelete_forward_linked _ _ _ _ E).
  - destruct (Tree_SubTreeDelete_Static fuel pp s) as [[code s1]| |] eqn:E;
      try discriminate.
    injection H as <-. destruct pp as [pl|]; [|by destruct fuel].
    by apply (Tree_SubTreeDelete_Static_forward_linked _ _ _ _ _ E).
Qed.

(** X17.  Single ownership.  Start from initialised nodes and apply any sequence
    of completed calls of the static API in which the caller never appends
    a node that is already attached and never re-initialises a node that
    another node still holds.  In every state so reached each occupied
    child slot holds a live node whose parent field names the holder;
    hence no node is held by two different nodes. *)
Theorem single_owner_invariant s :
  reachable (fun c s => no_double_attach c s /\ no_init_of_child c s) s ->
  forward_linked s
  /\ (forall x y b, child_of s x b -> child_of s y b -> x = y).
Proof.
  intros Hr.
  assert (forward_linked s) as Hfl.
  { induction Hr as [s Hi|s c s' _ IH [Hda Hd] Hrun].
    - by apply initialized_forward_linked.
    - by apply (run_call_forward_linked c s). }
  split; [done|].
  intros x y b (nx & Hx & Hcx) (ny & Hy & Hcy).
  destruct (Hfl _ _ _ Hx Hcx) as (nb & Hb & Hpx).
  destruct (Hfl _ _ _ Hy Hcy) as (nb' & Hb' & Hpy).
  congruence.
Qed.

(** ** No ancestry check in append *)

Lemma descends_snoc s a b c :
  descends s a b -> child_of s b c -> descends s a c.
Proof.
  induction 1 as [a b Hab|a b b' Hab _ IH]; intros Hc.
  - by apply (descends_step _ a b c); [|apply descends_child].
  - apply (descends_step _ a b c); [done|]. by apply IH.
Qed.

Lemma descends_mono s s' a b :
  (forall x y, child_of s x y -> child_of s' x y) ->
  descends s a b -> descends s' a b.
Proof.
  intros Hm. induction 1 as [a b Hab|a b c Hab _ IH].
  - apply descends_child. auto.
  - apply (descends_step _ a b c); auto.
Qed.

Lemma append_closes_cycle a b nb n1 na1 s :
  a = b \/ descends s a b ->
  nodes s !! b = Some nb ->
  tn_left n1 = Some a \/ tn_right n1 = Some a ->
  (forall y, tn_left nb = Some y \/ tn_right nb = Some y ->
     tn_left n1 = Some y \/ tn_right n1 = Some y) ->
  nodes (put_node b n1 s) !! a = Some na1 ->
  descends (put_node a (with_parent (Some b) na1) (put_node b n1 s)) a a.
Proof.
  intros Hdesc Hb Hn1a Hn1k Ha1.
  set (s' := put_node a (with_parent (Some b) na1) (put_node b n1 s)).
  assert (forall x y, child_of s x y -> child_of s' x y) as Hmono.
  { intros x y (nx & Hx & Hc). unfold child_of, s'. rewrite lookup_put_node.
    destruct (decide (a = x)) as [<-|Hax].
    - eexists. split; [reflexivity|]. simpl.
      rewrite lookup_put_node in Ha1. destruct (decide (b = a)) as [->|].
      + injection Ha1 as <-. rewrite Hb in Hx. injection Hx as <-. auto.
      + rewrite Hx in Ha1. by injection Ha1 as <-.
    - rewrite lookup_put_node. destruct (decide (b = x)) as [<-|]; [|eauto].
      rewrite Hb in Hx. injection Hx as <-. eauto. }
  assert (child_of s' b a) as Hba.
  { unfold child_of, s'. rewrite lookup_put_node.
    destruct (decide (a = b)) as [<-|Hab].
    - eexists. split; [reflexivity|]. simpl.
      rewrite lookup_put_node_eq in Ha1. by injection Ha1 as <-.
    - rewrite lookup_put_node_eq. eauto. }
  destruct Hdesc as [->|Hdesc]; [by apply descends_child|].
  apply (descends_snoc _ a b a); [|done]. by apply (descends_mono s).
Qed.

(** X18.  [Tree_NodeAppend] does not look at ancestry: hanging a node [a] into a
    free slot of one of its own descendants [b] (or of itself) succeeds and
    closes a cycle through [a], after which [Tree_DepthGet] on [a]
    completes for no call budget. *)
Theorem append_under_descendant a b nb Mode s :
  a = b \/ descends s a b ->
  is_Some (nodes s !! a) -> nodes s !! b = Some nb ->
  (Mode = INSERT_POS_LEFT /\ tn_left nb = NULL)
    \/ (Mode = INSERT_POS_RIGHT /\ tn_right nb = NULL) ->
  exists s',
    Tree_NodeAppend (Some b) (Some a) Mode s = Done (ERR_SUCCESS, s')
    /\ descends s' a a
    /\ forall fuel d s'', Tree_DepthGet fuel (Some a) s' ≠ Done (d, s'').
Proof.
  intros Hdesc [na Ha] Hb Hmode.
  assert (forall n1, is_Some (nodes (put_node b n1 s) !! a)) as Hlive.
  { intros n1. rewrite lookup_put_node.
    destruct (decide (b = a)); [done|by rewrite Ha]. }
  destruct Hmode as [[-> Hf]|[-> Hf]].
  - destruct (Hlive (with_left (Some a) nb)) as [na1 Ha1].
    eexists. split; [|split].
    + rewrite (Tree_NodeAppend_left_free _ _ _ _ Hb Hf).
      by rewrite (set_field_live _ _ _ _ _ Ha1).
    + apply (append_closes_cycle a b nb); try done; simpl; auto.
      intros y [Hy|Hy]; [congruence|auto].
    + intros fuel d s''. apply Tree_DepthGet_never_on_cycle.
      apply (append_closes_cycle a b nb); try done; simpl; auto.
      intros y [Hy|Hy]; [congruence|auto].
  - destruct (Hlive (with_right (Some a) nb)) as [na1 Ha1].
    eexists. split; [|split].
    + rewrite (Tree_NodeAppend_right_free _ _ _ _ Hb Hf).
      by rewrite (set_field_live _ _ _ _ _ Ha1).
    + apply (append_closes_cycle a b nb); try done; simpl; auto.
      intros y [Hy|Hy]; [auto|congruence].
    + intros fuel d s''. apply Tree_DepthGet_never_on_cycle.
      apply (append_closes_cycle a b nb); try done; simpl; auto.
      intros y [Hy|Hy]; [auto|congruence].
Qed.

(** ** The three orders visit the same nodes *)

Lemma inorder_preorder_Permutation s t : inorder s t ≡ₚ preorder s t.
Proof.
  induction t as [|a l IHl r IHr]; simpl; [done|].
  rewrite <- Permutation_middle. by rewrite IHl, IHr.
Qed.

Lemma postorder_preorder_Permutation s t : postorder s t ≡ₚ preorder s t.
Proof.
  induction t as [|a l IHl r IHr]; simpl; [done|].
  rewrite app_assoc, <- Permutation_cons_append. by rewrite IHl, IHr.
Qed.

Lemma preorder_length s t : length (preorder s t) = length (addrs t).
Proof.
  induction t as [|a l IHl r IHr]; simpl; [done|].
  by rewrite !length_app, IHl, IHr.
Qed.

(** X19.  On a finite tree the three traversals call the visitor the same number
    of times, once per node of the tree, and on the same payloads: the logs
    the recording visitor produces are permutations of one another. *)
Theorem traversals_visit_same_nodes s Ctx t fuel :
  shape_at s t -> (height t < fuel)%nat ->
  exists l1 l2 l3,
    Tree_TravesePreOrder fuel (root_ptr t) (Some record_visit) Ctx (s, [])
      = Done (visit_code t, (s, l1))
    /\ Tree_TraveseInOrder fuel (root_ptr t) (Some record_visit) Ctx (s, [])
      = Done (visit_code t, (s, l2))
    /\ Tree_TravesePostOrder fuel (root_ptr t) (Some record_visit) Ctx (s, [])
      = Done (visit_code t, (s, l3))
    /\ l2 ≡ₚ l1 /\ l3 ≡ₚ l1
    /\ length l1 = length (addrs t).
Proof.
  intros Hs Hf.
  exists (logged Ctx (preorder s t)), (logged Ctx (inorder s t)),
         (logged Ctx (postorder s t)).
  split; [by rewrite (Tree_TravesePreOrder_shape s Ctx t Hs fuel [] Hf)|].
  split; [by rewrite (Tree_TraveseInOrder_shape s Ctx t Hs fuel [] Hf)|].
  split; [by rewrite (Tree_TravesePostOrder_shape s Ctx t Hs fuel [] Hf)|].
  unfold logged. split; [|split].
  - by rewrite inorder_preorder_Permutation.
  - by rewrite postorder_preorder_Permutation.
  - by rewrite length_fmap, preorder_length.
Qed.

(** ** Link invariants under the dynamic API *)

Lemma back_linked_nodes s s' :
  nodes s' = nodes s -> back_linked s -> back_linked s'.
Proof. unfold back_linked. by intros ->. Qed.

Lemma forward_linked_nodes s s' :
  nodes s' = nodes s -> forward_linked s -> forward_linked s'.
Proof. unfold forward_linked. by intros ->. Qed.

Lemma Tree_NodeCreate_well_linked answer s p s' :
  Tree_NodeCreate answer s = Done (p, s') ->
  back_linked s /\ forward_linked s -> back_linked s' /\ forward_linked s'.
Proof.
  intros H [Hbl Hfl].
  apply Tree_NodeCreate_Done in H
    as [(_ & _ & ->)|(a & junk & _ & Ha & _ & ->)]; [done|].
  assert (nodes (put_node a empty_node s) !! a = Some empty_node) as Ha'
    by apply lookup_put_node_eq.
  assert (forall b, b ≠ a -> nodes (put_node a empty_node s) !! b = nodes s !! b)
    as Hkeep by (intros b Hb; by rewrite lookup_put_node_ne).
  set (s' := put_node a empty_node s) in *. clearbody s'.
  assert (forall b n, nodes s !! b = Some n -> nodes s' !! b = Some n) as Hold.
  { intros b n Hb. rewrite Hkeep; [done|]. intros ->. congruence. }
  assert (forall b n, nodes s' !! b = Some n -> b ≠ a -> nodes s !! b = Some n)
    as Hnew by (intros b n Hb Hne; by rewrite <- Hkeep).
  split.
  - intros b n q Hb Hq. destruct (decide (b = a)) as [->|Hba].
    { rewrite Ha' in Hb. by injection Hb as <-. }
    destruct (Hbl _ _ _ (Hnew _ _ Hb Hba) Hq) as (np & Hp & Hback). eauto.
  - intros x n y Hx Hc. destruct (decide (x = a)) as [->|Hxa].
    { rewrite Ha' in Hx. injection Hx as <-. by destruct Hc. }
    destruct (Hfl _ _ _ (Hnew _ _ Hx Hxa) Hc) as (ny & Hy & Hpy). eauto.
Qed.

Lemma Tree_NodeDestory_well_linked pl s code s' :
  Tree_NodeDestory (Some pl) s = Done (code, s') ->
  back_linked s /\ forward_linked s -> back_linked s' /\ forward_linked s'.
Proof.
  intros H [Hbl Hfl].
  apply Tree_NodeDestory_Done in H as (p & Hld & Hcase).
  destruct Hcase as [(_ & -> & _)|(_ & a & s1 & s2 & -> & Hd & Hfree & Hst)];
    [done|].
  pose proof (Tree_NodeDelete_back_linked _ _ _ _ Hd Hbl) as Hbl1.
  pose proof (Tree_NodeDelete_forward_linked _ _ _ _ Hd Hfl) as Hfl1.
  destruct (Tree_NodeDelete_no_new_links _ _ _ _ Hd) as [[Hn1 _] _].
  assert (nodes s1 !! a = Some empty_node) as Ha1.
  { apply Tree_NodeDelete_Done in Hd as [[[=] _]|[_ (n & _ & _ & _ & _ & Hlk)]].
    by rewrite Hlk, decide_True. }
  apply free_Done in Hfree.
  assert (forall b n, nodes s2 !! b = Some n <-> a ≠ b /\ nodes s1 !! b = Some n)
    as Hs2.
  { intros b n. rewrite Hfree. simpl. apply lookup_delete_Some. }
  assert (back_linked s2) as Hbl2.
  { intros b n q Hb Hq. apply Hs2 in Hb as [Hba Hb].
    destruct (Hbl1 _ _ _ Hb Hq) as (np & Hp & Hback).
    exists np. split; [|done]. apply Hs2. split; [|done].
    intros ->. rewrite Ha1 in Hp. injection Hp as <-. by destruct Hback. }
  assert (forward_linked s2) as Hfl2.
  { intros x n y Hx Hc. apply Hs2 in Hx as [Hxa Hx].
    destruct (Hfl1 _ _ _ Hx Hc) as (ny & Hy & Hpy).
    exists ny. split; [|done]. apply Hs2. split; [|done].
    intros ->. rewrite Ha1 in Hy. by injection Hy as <-. }
  split; [|by apply (store_place_NULL_forward_linked _ _ _ Hst)].
  destruct (store_place_NULL_no_new_links _ _ _ Hst) as (_ & _ & _ & Hlk3).
  intros b nb' q Hb Hq. rewrite Hlk3 in Hb.
  destruct (nodes s2 !! b) as [nb|] eqn:Hb2; [|done]. injection Hb as <-.
  destruct (clear_place_slots pl b nb) as (Hpar & _). rewrite Hpar in Hq.
  destruct (Hbl2 _ _ _ Hb2 Hq) as (np & Hp & Hback).
  rewrite Hlk3, Hp. simpl. eexists. split; [reflexivity|].
  assert (a ≠ b) as Hba by (by apply Hs2 in Hb2 as [? _]).
  apply load_place_Done in Hld.
  unfold clear_place. destruct pl as [x|r|r]; [done|..];
    (destruct (decide (r = q)) as [->|Hrq];
     [rewrite bool_decide_eq_true_2 by done
     |by rewrite bool_decide_eq_false_2 by done]);
    destruct Hld as (nq & Hq0 & Hqa);
    apply Hs2 in Hp as [_ Hp1];
    destruct (Hn1 _ _ Hp1) as (nq' & Hq0' & _ & Hfl' & Hfr' & _);
    rewrite Hq0 in Hq0'; injection Hq0' as <-; simpl.
  - destruct Hback as [Hback|Hback]; [|auto].
    destruct Hfl' as [Hf|Hf]; congruence.
  - destruct Hback as [Hback|Hback]; [auto|].
    destruct Hfr' as [Hf|Hf]; congruence.
Qed.

Lemma Tree_SubTreeDelete_Dynamic_well_linked fuel :
  forall pl s code s',
  Tree_SubTreeDelete_Dynamic fuel (Some pl) s = Done (code, s') ->
  back_linked s /\ forward_linked s -> back_linked s' /\ forward_linked s'.
Proof.
  induction fuel as [|fuel IH]; intros pl s code s' H Hw; simpl in H;
    [discriminate|].
  destruct (load_place pl s) as [v| |]; try discriminate.
  rewrite bind_Done in H. destruct v as [a|]; [|by injection H as _ <-].
  destruct (Tree_SubTreeDelete_Dynamic fuel (Some (PLeft a)) s)
    as [[c1 s1]| |] eqn:E1; try discriminate.
  rewrite bind_Done in H. cbv beta iota in H.
  destruct (Tree_SubTreeDelete_Dynamic fuel (Some (PRight a)) s1)
    as [[c2 s2]| |] eqn:E2; try discriminate.
  rewrite bind_Done in H. cbv beta iota in H.
  destruct (Tree_NodeDestory (Some pl) s2) as [[c3 s3]| |] eqn:E3;
    try discriminate.
  rewrite bind_Done in H. injection H as _ <-.
  apply (Tree_NodeDestory_well_linked _ _ _ _ E3).
  apply (IH _ _ _ _ E2). by apply (IH _ _ _ _ E1).
Qed.

Lemma run_dyn_well_linked c s s' :
  match c with
  | DynAppend _ (Some b) _ => ~ attached s b
  | _ => True
  end ->
  run_dyn c s = Done s' ->
  back_linked s /\ forward_linked s -> back_linked s' /\ forward_linked s'.
Proof.
  destruct c as [answer|x v|p v|p q m|pp|fuel pp]; simpl; intros Hd H Hw.
  - destruct (Tree_NodeCreate answer s) as [[p s1]| |] eqn:E; try discriminate.
    injection H as <-. by apply (Tree_NodeCreate_well_linked _ _ _ _ E).
  - injection H as <-. destruct Hw as [Hbl Hfl].
    split; [by apply (back_linked_nodes s)|by apply (forward_linked_nodes s)].
  - destruct (Tree_NodeValueSet p v s) as [[code s1]| |] eqn:E; try discriminate.
    injection H as <-. destruct Hw as [Hbl Hfl]. split.
    + by apply (Tree_NodeValueSet_back_linked _ _ _ _ _ E).
    + by apply (Tree_NodeValueSet_forward_linked _ _ _ _ _ E).
  - destruct (Tree_NodeAppend p q m s) as [[code s1]| |] eqn:E; try discriminate.
    injection H as <-. destruct p as [a|], q as [b|];
      try (by injection E as _ <-).
    destruct Hw as [Hbl Hfl]. split.
    + by apply (Tree_NodeAppend_back_linked _ _ _ _ _ _ E).
    + by apply (Tree_NodeAppend_forward_linked _ _ _ _ _ _ E).
  - destruct (Tree_NodeDestory pp s) as [[code s1]| |] eqn:E; try discriminate.
    injection H as <-. destruct pp as [pl|]; [|discriminate].
    by apply (Tree_NodeDestory_well_linked _ _ _ _ E).
  - destruct (Tree_SubTreeDelete_Dynamic fuel pp s) as [[code s1]| |] eqn:E;
      try discriminate.
    injection H as <-. destruct pp as [pl|]; [|by destruct fuel].
    by apply (Tree_SubTreeDelete_Dynamic_well_linked _ _ _ _ _ E).
Qed.

(** X20.  No dangling links under the dynamic API.  Start with no node and apply
    any sequence of completed create, append, set-value, destroy and
    dynamic subtree-delete calls, and assignments to the caller's own
    variables, in which no attached node is appended.  In every state so
    reached parent and child links agree in both directions, and no live
    node holds a pointer to a released node. *)
Theorem dynamic_links_invariant s :
  reachable_dyn s ->
  back_linked s /\ forward_linked s /\ links_closed s.
Proof.
  intros Hr.
  assert (back_linked s /\ forward_linked s) as [Hbl Hfl].
  { induction Hr as [s He|s c s' _ IH Hd Hrun].
    - split; intros a n ? Ha; rewrite He, lookup_empty in Ha; discriminate.
    - by apply (run_dyn_well_linked c s). }
  split; [done|]. split; [done|].
  intros a n p Ha [Hp|Hc].
  - destruct (Hbl _ _ _ Ha Hp) as (np & Hnp & _). by eexists.
  - destruct (Hfl _ _ _ Ha Hc) as (nc & Hnc & _). by eexists.
Qed.

(** ** The further theorems at concrete inputs *)

Lemma Tree_NodeAppend_failure_atomic_witness :
  (ERR_NODE_EXIST = ERR_SUCCESS
   \/ (tree4 = tree4
       /\ (ERR_NODE_EXIST = ERR_INVALID_POINTER \/ ERR_NODE_EXIST = ERR_WRONG_PARAM
           \/ ERR_NODE_EXIST = ERR_NODE_EXIST)))
  /\ (ERR_NODE_EXIST = ERR_INVALID_POINTER
      <-> Some 10%positive = NULL \/ Some 40%positive = NULL).
Proof.
  apply (Tree_NodeAppend_failure_atomic (Some 10%positive) (Some 40%positive)
           INSERT_POS_LEFT tree4 ERR_NODE_EXIST tree4).
  vm_compute. reflexivity.
Defined.

Lemma append_right_delete_roundtrip_witness :
  exists s1,
    Tree_NodeAppend (Some 30%positive) (Some 50%positive) INSERT_POS_RIGHT tree4_spare
      = Done (ERR_SUCCESS, s1)
    /\ nodes s1 !! 30%positive
       = Some (with_right (Some 50%positive)
                 (mkNode (Some 10%positive) NULL NULL (Some 3%positive)))
    /\ nodes s1 !! 50%positive = Some (with_parent (Some 30%positive) empty_node)
    /\ Tree_NodeDelete (Some 50%positive) s1 = Done (ERR_SUCCESS, tree4_spare).
Proof.
  apply (append_right_delete_roundtrip 30 50
           (mkNode (Some 10%positive) NULL NULL (Some 3%positive)) tree4_spare).
  - discriminate.
  - vm_compute. reflexivity.
  - reflexivity.
  - discriminate.
  - vm_compute. reflexivity.
Defined.

Lemma Tree_NodeValue_roundtrip_witness :
  let n := mkNode (Some 20%positive) NULL NULL (Some 4%positive) in
  exists s',
    Tree_NodeValueSet (Some 40%positive) (Some 9%positive) tree4 = Done (ERR_SUCCESS, s')
    /\ Tree_NodeValueGet (Some 40%positive) s' = Done (Some 9%positive)
    /\ nodes s' !! 40%positive = Some (with_data (Some 9%positive) n)
    /\ (forall b, b ≠ 40%positive -> nodes s' !! b = nodes tree4 !! b)
    /\ vars s' = vars tree4
    /\ same_links tree4 s'
    /\ Tree_NodeValueSet NULL (Some 9%positive) tree4 = Done (ERR_INVALID_POINTER, tree4)
    /\ Tree_NodeValueGet NULL s' = Done NULL.
Proof.
  apply (Tree_NodeValue_roundtrip 40
           (mkNode (Some 20%positive) NULL NULL (Some 4%positive))
           (Some 9%positive) tree4).
  vm_compute. reflexivity.
Defined.

Lemma reset_node_is_standalone_witness :
  let s1 := put_node 10 empty_node (storage [10%positive]) in
  Tree_NodeInit (Some 10%positive) s1 = Done s1
  /\ Tree_NodeDelete (Some 10%positive) s1 = Done (ERR_SUCCESS, s1)
  /\ Tree_DepthGet (2 + 0) (Some 10%positive) s1 = Done (1, s1).
Proof.
  apply (reset_node_is_standalone (Some 10%positive) (storage [10%positive])
           (put_node 10 empty_node (storage [10%positive])) 0).
  left. vm_compute. reflexivity.
Defined.

Lemma Tree_DepthGet_finite_witness :
  exists t, root_ptr t = Some 10%positive /\ shape_at tree4 t /\ 3 = depth_spec t
            /\ (height t < 4)%nat /\ 3 <= INT_MAX /\ tree4 = tree4.
Proof.
  apply (Tree_DepthGet_finite 4 (Some 10%positive) tree4 3 tree4).
  vm_compute. reflexivity.
Defined.

Lemma self_loop_descends : descends self_loop 10 10.
Proof.
  apply descends_child. eexists. split; [apply lookup_insert_eq|]. by left.
Qed.

Lemma Tree_DepthGet_cycle_witness :
  descends self_loop 10 10
  /\ Tree_DepthGet 100 (Some 10%positive) self_loop ≠ Done (1, self_loop).
Proof.
  split; [exact self_loop_descends|].
  apply (Tree_DepthGet_cycle self_loop 10 100 1 self_loop self_loop_descends).
Defined.

Lemma depth_after_append_witness :
  exists s',
    Tree_NodeAppend (Some 30%positive) (Some 50%positive) INSERT_POS_LEFT tree4_spare
      = Done (ERR_SUCCESS, s')
    /\ Tree_DepthGet 3 (Some 30%positive) s'
       = Done (Z.max 2 (depth_spec (SNode 30 SNil SNil)), s').
Proof.
  apply (depth_after_append tree4_spare 30 SNil SNil 50 empty_node
           INSERT_POS_LEFT 3).
  - vm_compute. tauto.
  - apply (bool_decide_unpack _). vm_compute. exact I.
  - apply (bool_decide_unpack _). vm_compute. exact I.
  - vm_compute. reflexivity.
  - reflexivity.
  - reflexivity.
  - left. split; reflexivity.
  - vm_compute. discriminate.
  - simpl. lia.
  - lia.
Defined.

Lemma traverse_any_visitor_witness :
  Tree_TravesePreOrder 4 (Some 10%positive) (Some count_visit) NULL (tree4, O)
    = Done (ERR_SUCCESS, visit_all count_visit NULL (preorder tree4 shape4) (tree4, O))
  /\ Tree_TraveseInOrder 4 (Some 10%positive) (Some count_visit) NULL (tree4, O)
    = Done (ERR_SUCCESS, visit_all count_visit NULL (inorder tree4 shape4) (tree4, O))
  /\ Tree_TravesePostOrder 4 (Some 10%positive) (Some count_visit) NULL (tree4, O)
    = Done (ERR_SUCCESS, visit_all count_visit NULL (postorder tree4 shape4) (tree4, O)).
Proof.
  apply (traverse_any_visitor count_visit NULL (fun _ _ _ => eq_refl) shape4 4
           (tree4, O)).
  - vm_compute. tauto.
  - simpl. lia.
Defined.

(** The failing visitor was called four times. *)
Example count_visit_tree4 :
  Tree_TravesePreOrder 4 (Some 10%positive) (Some count_visit) NULL (tree4, O)
  = Done (ERR_SUCCESS, (tree4, 4%nat)).
Proof. vm_compute. reflexivity. Qed.

Lemma Tree_SubTreeDelete_Static_any_witness :
  no_new_links chain3 chain3_reset /\ keeps_live chain3 chain3_reset
  /\ ((load_place (PVar 1) chain3 = Done NULL /\ ERR_SUCCESS = ERR_FAILURE
       /\ chain3_reset = chain3)
      \/ (exists a, load_place (PVar 1) chain3 = Done (Some a)
                    /\ ERR_SUCCESS = ERR_SUCCESS
                    /\ nodes chain3_reset !! a = Some empty_node
                    /\ load_place (PVar 1) chain3_reset = Done NULL)).
Proof.
  apply (Tree_SubTreeDelete_Static_any 4 (PVar 1) chain3 ERR_SUCCESS chain3_reset).
  vm_compute. reflexivity.
Defined.

Lemma Tree_NodeCreate_spec_witness :
  (Some (50%positive, stale_node) = None /\ Some 50%positive = NULL
   /\ tree4_spare = tree4)
  \/ (exists a junk, Some (50%positive, stale_node) = Some (a, junk)
        /\ nodes tree4 !! a = None
        /\ Some 50%positive = Some a /\ nodes tree4_spare !! a = Some empty_node
        /\ (forall b, b ≠ a -> nodes tree4_spare !! b = nodes tree4 !! b)
        /\ vars tree4_spare = vars tree4).
Proof.
  apply (Tree_NodeCreate_spec (Some (50%positive, stale_node)) tree4
           (Some 50%positive) tree4_spare).
  vm_compute. reflexivity.
Defined.

Lemma Tree_NodeDestory_leaf_witness :
  exists s',
    Tree_NodeDestory (Some (PLeft 20)) chain3 = Done (ERR_SUCCESS, s')
    /\ nodes s' !! 30%positive = None
    /\ load_place (PLeft 20) s' = Done NULL
    /\ (forall b, b ≠ 30%positive ->
          nodes s' !! b
          = outside_effect 30 (Some 20%positive) (PLeft 20) b <$> nodes chain3 !! b).
Proof.
  apply (Tree_NodeDestory_leaf (PLeft 20) 30
           (mkNode (Some 20%positive) NULL NULL NULL) chain3).
  - vm_compute. reflexivity.
  - vm_compute. reflexivity.
  - reflexivity.
  - reflexivity.
  - intros p [= <-]. vm_compute. eauto.
Defined.

Lemma create_destroy_roundtrip_witness :
  exists s1 s2,
    Tree_NodeCreate (Some (50%positive, stale_node)) tree4 = Done (Some 50%positive, s1)
    /\ store_place (PVar 1) (Some 50%positive) s1 = Done s2
    /\ Tree_NodeDestory (Some (PVar 1)) s2 = Done (ERR_SUCCESS, tree4).
Proof.
  apply (create_destroy_roundtrip 50 stale_node 1 tree4).
  - vm_compute. reflexivity.
  - vm_compute. reflexivity.
Defined.

Lemma Tree_SubTreeDelete_Dynamic_spec_witness :
  exists s',
    Tree_SubTreeDelete_Dynamic 4 (Some (PVar 1)) chain3 = Done (ERR_SUCCESS, s')
    /\ (forall b, b ∈ addrs shape_chain3 -> nodes s' !! b = None)
    /\ load_place (PVar 1) s' = Done NULL
    /\ (forall b a, b ∉ addrs shape_chain3 -> root_ptr shape_chain3 = Some a ->
          nodes s' !! b = outside_effect a NULL (PVar 1) b <$> nodes chain3 !! b).
Proof.
  apply (Tree_SubTreeDelete_Dynamic_spec shape_chain3 chain3 NULL (PVar 1) 4).
  - discriminate.
  - vm_compute. tauto.
  - apply (bool_decide_unpack _). vm_compute. exact I.
  - discriminate.
  - vm_compute. reflexivity.
  - exact I.
  - simpl. lia.
Defined.

Lemma Tree_SubTreeDelete_Dynamic_any_witness :
  no_new_links chain3 chain3_released
  /\ ((load_place (PVar 1) chain3 = Done NULL /\ ERR_SUCCESS = ERR_FAILURE
       /\ chain3_released = chain3)
      \/ (exists a, load_place (PVar 1) chain3 = Done (Some a)
                    /\ ERR_SUCCESS = ERR_SUCCESS
                    /\ nodes chain3_released !! a = None
                    /\ load_place (PVar 1) chain3_released = Done NULL)).
Proof.
  apply (Tree_SubTreeDelete_Dynamic_any 4 (PVar 1) chain3 ERR_SUCCESS
           chain3_released).
  vm_compute. reflexivity.
Defined.

Lemma single_owner_invariant_witness :
  forward_linked linked_pair
  /\ (forall x y b, child_of linked_pair x b -> child_of linked_pair y b -> x = y).
Proof.
  apply single_owner_invariant, linked_pair_reachable.
  split; [apply two_fresh_detached|exact I].
Defined.

Lemma linked_pair_descends : descends linked_pair 10 20.
Proof.
  apply descends_child. exists (mkNode NULL (Some 20%positive) NULL NULL).
  split; [reflexivity|]. by left.
Qed.

Lemma append_under_descendant_witness :
  exists s',
    Tree_NodeAppend (Some 20%positive) (Some 10%positive) INSERT_POS_LEFT linked_pair
      = Done (ERR_SUCCESS, s')
    /\ descends s' 10 10
    /\ forall fuel d s'', Tree_DepthGet fuel (Some 10%positive) s' ≠ Done (d, s'').
Proof.
  apply (append_under_descendant 10 20 (mkNode (Some 10%positive) NULL NULL NULL)
           INSERT_POS_LEFT linked_pair).
  - right. exact linked_pair_descends.
  - vm_compute. eauto.
  - reflexivity.
  - left. split; reflexivity.
Defined.

Lemma traversals_visit_same_nodes_witness :
  exists l1 l2 l3,
    Tree_TravesePreOrder 4 (Some 10%positive) (Some record_visit) NULL (tree4, [])
      = Done (ERR_SUCCESS, (tree4, l1))
    /\ Tree_TraveseInOrder 4 (Some 10%positive) (Some record_visit) NULL (tree4, [])
      = Done (ERR_SUCCESS, (tree4, l2))
    /\ Tree_TravesePostOrder 4 (Some 10%positive) (Some record_visit) NULL (tree4, [])
      = Done (ERR_SUCCESS, (tree4, l3))
    /\ l2 ≡ₚ l1 /\ l3 ≡ₚ l1
    /\ length l1 = length (addrs shape4).
Proof.
  apply (traversals_visit_same_nodes tree4 NULL shape4 4).
  - vm_compute. tauto.
  - simpl. lia.
Defined.

Lemma one_created_reachable : reachable_dyn one_created.
Proof.
  apply (reach_dyn_call (mkState ∅ ∅) (DynCreate (Some (10%positive, stale_node)))).
  - by apply reach_dyn_start.
  - exact I.
  - vm_compute. reflexivity.
Qed.

Lemma linked_pair_reachable_dyn : reachable_dyn linked_pair.
Proof.
  apply (reach_dyn_call two_fresh
           (DynAppend (Some 10%positive) (Some 20%positive) INSERT_POS_LEFT)).
  - apply (reach_dyn_call one_created (DynCreate (Some (20%positive, stale_node)))).
    + exact one_created_reachable.
    + exact I.
    + vm_compute. reflexivity.
  - apply two_fresh_detached.
  - vm_compute. reflexivity.
Qed.

Lemma dynamic_links_invariant_witness :
  back_linked linked_pair /\ forward_linked linked_pair /\ links_closed linked_pair.
Proof. apply dynamic_links_invariant, linked_pair_reachable_dyn. Defined.
